(** * The Jsonnet virtual machine (core/vm.cpp): a shallow embedding

    This development embeds the tree-walking evaluator of core/vm.cpp:
    the evaluation stack ([Stack], [Frame]), the prototype object model
    ([findObject], [objectFields], [countLeaves], [objectIndex]), the
    driver ([evaluate]) and the manifester ([manifestJson]).

    Conventions.
    - A C++ [unsigned] is a [Z] kept in [0, 2^32) by [wrap32]; a [long] is
      a [Z] in the signed 64-bit range; a [double] is a primitive binary64
      [float].
    - [std::vector<Frame> stack] is a list whose head is [stack.back()],
      so the loops [for (i = size-1; i >= 0; --i)] walk the list from its
      head.
    - Heap objects, closures and strings are immutable once built and are
      embedded by value; every object and closure carries the address it
      was allocated at, which stands for pointer identity.  Thunks are
      mutable and live in a store indexed by their address.
    - Garbage collection only reclaims unreachable entities and is not
      represented: the store grows monotonically.
    - Identifiers are interned, so pointer equality on [const Identifier *]
      is equality of names. *)

From Stdlib Require Import ZArith Floats.
From stdpp Require Import gmap strings list pretty sorting.

Set Warnings "-register-all".
Local Open Scope Z_scope.

(** ** Machine integers *)

Definition wrap32 (z : Z) : Z := z mod 2 ^ 32.

Definition long_min : Z := - 2 ^ 63.
Definition long_max : Z := 2 ^ 63 - 1.

(** Signed 64-bit wrap-around, for the two's complement [long] results
    of the bitwise operators. *)
Definition wrap_long (z : Z) : Z := (z + 2 ^ 63) mod 2 ^ 64 - 2 ^ 63.

(** ** Strings and identifiers *)

(** [String] of the source is [std::u32string]: a sequence of code
    points. *)
Abbreviation UString := (list N).

(** A [U"..."] literal with ASCII content. *)
Definition U (s : string) : UString :=
  (fun a => N.of_nat (Ascii.nat_of_ascii a)) <$> String.list_ascii_of_string s.

Abbreviation Identifier := (list N) (only parsing).

Record Location := { line : Z; column : Z }.

Record LocationRange := {
  file : string;
  begin_ : Location;
  end_ : Location
}.

(** [LocationRange(const std::string &msg)]. *)
Definition LocationRange_msg (msg : string) : LocationRange :=
  {| file := msg; begin_ := {| line := 0; column := 0 |};
     end_ := {| line := 0; column := 0 |} |}.

(** ** The core AST (as consumed by the VM) *)

Inductive BinaryOp :=
| BOP_MULT | BOP_DIV | BOP_PLUS | BOP_MINUS | BOP_SHIFT_L | BOP_SHIFT_R
| BOP_GREATER | BOP_GREATER_EQ | BOP_LESS | BOP_LESS_EQ
| BOP_MANIFEST_EQUAL | BOP_MANIFEST_UNEQUAL
| BOP_BITWISE_AND | BOP_BITWISE_XOR | BOP_BITWISE_OR
| BOP_AND | BOP_OR
| BOP_OTHER (tag : Z).

#[global] Instance BinaryOp_eq_dec : EqDecision BinaryOp.
Proof. solve_decision. Defined.

Inductive UnaryOp :=
| UOP_NOT | UOP_BITWISE_NOT | UOP_PLUS | UOP_MINUS | UOP_OTHER (tag : Z).

(** [ObjectField::Hide]. *)
Inductive Hide := HIDDEN | INHERIT | VISIBLE.

#[global] Instance Hide_eq_dec : EqDecision Hide.
Proof. solve_decision. Defined.

(** What every AST node carries: its location and the free variables the
    static analysis annotated it with. *)
Record Attr := {
  location : LocationRange;
  freeVariables : list Identifier
}.

Inductive AST :=
| AST_APPLY (a : Attr) (target : AST) (args : list AST) (tailstrict : bool)
| AST_ARRAY (a : Attr) (elements : list AST)
| AST_BINARY (a : Attr) (left : AST) (op : BinaryOp) (right : AST)
| AST_BUILTIN_FUNCTION (a : Attr) (id : Z) (params : list Identifier)
| AST_CONDITIONAL (a : Attr) (cond branchTrue branchFalse : AST)
| AST_ERROR (a : Attr) (expr : AST)
| AST_FUNCTION (a : Attr) (params : list Identifier) (body : AST)
| AST_IMPORT (a : Attr) (file : UString)
| AST_IMPORTSTR (a : Attr) (file : UString)
| AST_INDEX (a : Attr) (target index : AST)
| AST_LOCAL (a : Attr) (binds : list (Identifier * AST)) (body : AST)
| AST_LITERAL_BOOLEAN (a : Attr) (value : bool)
| AST_LITERAL_NUMBER (a : Attr) (value : float)
| AST_LITERAL_STRING (a : Attr) (value : UString)
| AST_LITERAL_NULL (a : Attr)
| AST_DESUGARED_OBJECT (a : Attr) (asserts : list AST)
    (fields : list (Hide * AST * AST))
| AST_OBJECT_COMPREHENSION_SIMPLE (a : Attr) (field value : AST)
    (id : Identifier) (array : AST)
| AST_SELF (a : Attr)
| AST_SUPER_INDEX (a : Attr) (index : AST)
| AST_UNARY (a : Attr) (op : UnaryOp) (expr : AST)
| AST_VAR (a : Attr) (id : Identifier)
| AST_OTHER (a : Attr) (type : Z).

Definition attr (e : AST) : Attr :=
  match e with
  | AST_APPLY a _ _ _ | AST_ARRAY a _ | AST_BINARY a _ _ _
  | AST_BUILTIN_FUNCTION a _ _ | AST_CONDITIONAL a _ _ _ | AST_ERROR a _
  | AST_FUNCTION a _ _ | AST_IMPORT a _ | AST_IMPORTSTR a _
  | AST_INDEX a _ _ | AST_LOCAL a _ _ | AST_LITERAL_BOOLEAN a _
  | AST_LITERAL_NUMBER a _ | AST_LITERAL_STRING a _ | AST_LITERAL_NULL a
  | AST_DESUGARED_OBJECT a _ _ | AST_OBJECT_COMPREHENSION_SIMPLE a _ _ _ _
  | AST_SELF a | AST_SUPER_INDEX a _ | AST_UNARY a _ _ | AST_VAR a _
  | AST_OTHER a _ => a
  end.

Definition ast_location (e : AST) : LocationRange := location (attr e).
Definition ast_freeVariables (e : AST) : list Identifier :=
  freeVariables (attr e).

(** ** Heap entities and values *)

(** Address of a [HeapThunk] in the thunk store. *)
Abbreviation ThunkRef := nat (only parsing).

(** [BindingFrame]: [std::map<const Identifier *, HeapThunk *>]. *)
Abbreviation BindingFrame := (gmap (list N) nat).

(** [HeapSimpleObject::Field]. *)
Record Field := { hide : Hide; body : AST }.

(** [HeapObject] and its three subclasses.  [HeapLeafObject] is the union
    of the first two. *)
Inductive HeapObject :=
| HeapSimpleObject (addr : nat) (upValues : BindingFrame)
    (fields : gmap (list N) Field) (asserts : list AST)
| HeapComprehensionObject (addr : nat) (upValues : BindingFrame)
    (value : AST) (id : Identifier) (compValues : gmap (list N) nat)
| HeapExtendedObject (addr : nat) (left right : HeapObject).

Definition obj_addr (o : HeapObject) : nat :=
  match o with
  | HeapSimpleObject a _ _ _ | HeapComprehensionObject a _ _ _ _
  | HeapExtendedObject a _ _ => a
  end.

(** [upValues] of a leaf. *)
Definition leaf_upValues (o : HeapObject) : BindingFrame :=
  match o with
  | HeapSimpleObject _ up _ _ | HeapComprehensionObject _ up _ _ _ => up
  | HeapExtendedObject _ _ _ => ∅
  end.

Module Closure.
(** [HeapClosure]; [body = None] is the null body of a builtin. *)
Record t := {
  addr : nat;
  upValues : BindingFrame;
  self : option HeapObject;
  offset : Z;
  params : list Identifier;
  body : option AST;
  builtin : Z
}.
End Closure.
Abbreviation HeapClosure := Closure.t.

(** [Value]: the tag [t] and the union [v] together.  An [OBJECT] may
    hold a null pointer (the [self] of a frame without one). *)
Inductive Value :=
| NULL_TYPE
| BOOLEAN (b : bool)
| DOUBLE (d : float)
| STRING (s : UString)
| ARRAY (elements : list nat)
| OBJECT (h : option HeapObject)
| FUNCTION (h : HeapClosure).

(** [Value::Type]. *)
Inductive ValueType :=
| T_NULL_TYPE | T_BOOLEAN | T_DOUBLE | T_STRING | T_ARRAY | T_OBJECT
| T_FUNCTION.

#[global] Instance ValueType_eq_dec : EqDecision ValueType.
Proof. solve_decision. Defined.

(** The field [t] of a [Value]. *)
Definition Value_t (v : Value) : ValueType :=
  match v with
  | NULL_TYPE => T_NULL_TYPE
  | BOOLEAN _ => T_BOOLEAN
  | DOUBLE _ => T_DOUBLE
  | STRING _ => T_STRING
  | ARRAY _ => T_ARRAY
  | OBJECT _ => T_OBJECT
  | FUNCTION _ => T_FUNCTION
  end.

Module Thunk.
(** [HeapThunk]. *)
Record t := {
  name : Identifier;
  self : option HeapObject;
  offset : Z;
  body : option AST;
  upValues : BindingFrame;
  filled : bool;
  content : Value
}.

(** [HeapThunk(name, self, offset, body)]: unfilled, no up-values. *)
Definition make (name : Identifier) (self : option HeapObject)
    (offset : Z) (body : option AST) : t :=
  {| name := name; self := self; offset := offset; body := body;
     upValues := ∅; filled := false; content := NULL_TYPE |}.

Definition set_upValues (up : BindingFrame) (th : t) : t :=
  {| name := name th; self := self th; offset := offset th;
     body := body th; upValues := up; filled := filled th;
     content := content th |}.

(** Modelled from the spec: [HeapThunk::fill] is declared in state.h,
    which is not part of the sources at hand.  "The scratch is copied
    into the thunk's slot and filled is set." *)
Definition fill (v : Value) (th : t) : t :=
  {| name := name th; self := self th; offset := offset th;
     body := body th; upValues := upValues th; filled := true;
     content := v |}.
End Thunk.
Abbreviation HeapThunk := Thunk.t.

(** A [HeapEntity *] used as the [context] of a frame: an object, a thunk
    or a closure. *)
Inductive HeapEntity :=
| EObject (o : HeapObject)
| EThunk (r : nat)
| EClosure (c : HeapClosure).

(** ** Stack frames *)

Inductive FrameKind :=
| FRAME_APPLY_TARGET
| FRAME_BINARY_LEFT
| FRAME_BINARY_RIGHT
| FRAME_BUILTIN_FILTER
| FRAME_BUILTIN_FORCE_THUNKS
| FRAME_CALL
| FRAME_ERROR
| FRAME_IF
| FRAME_INDEX_TARGET
| FRAME_INDEX_INDEX
| FRAME_INVARIANTS
| FRAME_LOCAL
| FRAME_OBJECT
| FRAME_OBJECT_COMP_ARRAY
| FRAME_OBJECT_COMP_ELEMENT
| FRAME_STRING_CONCAT
| FRAME_SUPER_INDEX
| FRAME_UNARY.

#[global] Instance FrameKind_eq_dec : EqDecision FrameKind.
Proof. solve_decision. Defined.

Module Frame.
Record t := {
  kind : FrameKind;
  ast : option AST;
  location : LocationRange;
  tailCall : bool;
  val : Value;
  val2 : Value;
  fit : nat;
  objectFields : gmap (list N) Field;
  elementId : Z;
  elements : gmap (list N) nat;
  thunks : list nat;
  context : option HeapEntity;
  self : option HeapObject;
  offset : Z;
  bindings : BindingFrame
}.

(** [Frame(kind, ast)] and [Frame(kind, location)]. *)
Definition make (k : FrameKind) (a : option AST) (loc : LocationRange) : t :=
  {| kind := k; ast := a; location := loc; tailCall := false;
     val := NULL_TYPE; val2 := NULL_TYPE; fit := 0%nat; objectFields := ∅;
     elementId := 0; elements := ∅; thunks := []; context := None;
     self := None; offset := 0; bindings := ∅ |}.

Definition of_ast (k : FrameKind) (a : AST) : t :=
  make k (Some a) (ast_location a).

Definition of_loc (k : FrameKind) (loc : LocationRange) : t :=
  make k None loc.

Definition isCall (f : t) : bool := bool_decide (kind f = FRAME_CALL).

(** Assignments to one member. *)
Definition set_kind (x : FrameKind) (f : t) : t :=
  {| kind := x; ast := ast f; location := location f;
     tailCall := tailCall f; val := val f; val2 := val2 f; fit := fit f;
     objectFields := objectFields f; elementId := elementId f;
     elements := elements f; thunks := thunks f; context := context f;
     self := self f; offset := offset f; bindings := bindings f |}.
Definition set_tailCall (x : bool) (f : t) : t :=
  {| kind := kind f; ast := ast f; location := location f;
     tailCall := x; val := val f; val2 := val2 f; fit := fit f;
     objectFields := objectFields f; elementId := elementId f;
     elements := elements f; thunks := thunks f; context := context f;
     self := self f; offset := offset f; bindings := bindings f |}.
Definition set_val (x : Value) (f : t) : t :=
  {| kind := kind f; ast := ast f; location := location f;
     tailCall := tailCall f; val := x; val2 := val2 f; fit := fit f;
     objectFields := objectFields f; elementId := elementId f;
     elements := elements f; thunks := thunks f; context := context f;
     self := self f; offset := offset f; bindings := bindings f |}.
Definition set_val2 (x : Value) (f : t) : t :=
  {| kind := kind f; ast := ast f; location := location f;
     tailCall := tailCall f; val := val f; val2 := x; fit := fit f;
     objectFields := objectFields f; elementId := elementId f;
     elements := elements f; thunks := thunks f; context := context f;
     self := self f; offset := offset f; bindings := bindings f |}.
Definition set_fit (x : nat) (f : t) : t :=
  {| kind := kind f; ast := ast f; location := location f;
     tailCall := tailCall f; val := val f; val2 := val2 f; fit := x;
     objectFields := objectFields f; elementId := elementId f;
     elements := elements f; thunks := thunks f; context := context f;
     self := self f; offset := offset f; bindings := bindings f |}.
Definition set_objectFields (x : gmap (list N) Field) (f : t) : t :=
  {| kind := kind f; ast := ast f; location := location f;
     tailCall := tailCall f; val := val f; val2 := val2 f; fit := fit f;
     objectFields := x; elementId := elementId f;
     elements := elements f; thunks := thunks f; context := context f;
     self := self f; offset := offset f; bindings := bindings f |}.
Definition set_elementId (x : Z) (f : t) : t :=
  {| kind := kind f; ast := ast f; location := location f;
     tailCall := tailCall f; val := val f; val2 := val2 f; fit := fit f;
     objectFields := objectFields f; elementId := x;
     elements := elements f; thunks := thunks f; context := context f;
     self := self f; offset := offset f; bindings := bindings f |}.
Definition set_elements (x : gmap (list N) nat) (f : t) : t :=
  {| kind := kind f; ast := ast f; location := location f;
     tailCall := tailCall f; val := val f; val2 := val2 f; fit := fit f;
     objectFields := objectFields f; elementId := elementId f;
     elements := x; thunks := thunks f; context := context f;
     self := self f; offset := offset f; bindings := bindings f |}.
Definition set_thunks (x : list nat) (f : t) : t :=
  {| kind := kind f; ast := ast f; location := location f;
     tailCall := tailCall f; val := val f; val2 := val2 f; fit := fit f;
     objectFields := objectFields f; elementId := elementId f;
     elements := elements f; thunks := x; context := context f;
     self := self f; offset := offset f; bindings := bindings f |}.
Definition set_context (x : option HeapEntity) (f : t) : t :=
  {| kind := kind f; ast := ast f; location := location f;
     tailCall := tailCall f; val := val f; val2 := val2 f; fit := fit f;
     objectFields := objectFields f; elementId := elementId f;
     elements := elements f; thunks := thunks f; context := x;
     self := self f; offset := offset f; bindings := bindings f |}.
Definition set_self (x : option HeapObject) (f : t) : t :=
  {| kind := kind f; ast := ast f; location := location f;
     tailCall := tailCall f; val := val f; val2 := val2 f; fit := fit f;
     objectFields := objectFields f; elementId := elementId f;
     elements := elements f; thunks := thunks f; context := context f;
     self := x; offset := offset f; bindings := bindings f |}.
Definition set_offset (x : Z) (f : t) : t :=
  {| kind := kind f; ast := ast f; location := location f;
     tailCall := tailCall f; val := val f; val2 := val2 f; fit := fit f;
     objectFields := objectFields f; elementId := elementId f;
     elements := elements f; thunks := thunks f; context := context f;
     self := self f; offset := x; bindings := bindings f |}.
Definition set_bindings (x : BindingFrame) (f : t) : t :=
  {| kind := kind f; ast := ast f; location := location f;
     tailCall := tailCall f; val := val f; val2 := val2 f; fit := fit f;
     objectFields := objectFields f; elementId := elementId f;
     elements := elements f; thunks := thunks f; context := context f;
     self := self f; offset := offset f; bindings := x |}.
End Frame.
Abbreviation Frame := Frame.t.

(** ** Errors and results *)

Record TraceFrame := { tf_location : LocationRange; tf_name : string }.

Record RuntimeError := { stack_trace : list TraceFrame; msg : string }.

(** How a piece of the VM can end: normally, by throwing a
    [RuntimeError], by an exception of a collaborator (lexer, parser,
    desugarer, static analysis), by [std::abort()] after an INTERNAL
    ERROR, by behaviour the language leaves undefined, or by the fuel of
    the embedding running out (the C++ code would still be running). *)
Inductive Result (A : Type) :=
| OK (a : A)
| Throw (e : RuntimeError)
| ThrowStatic (what : string)
| Abort (what : string)
| Undefined
| OutOfFuel.
Arguments OK {A} a.
Arguments Throw {A} e.
Arguments ThrowStatic {A} what.
Arguments Abort {A} what.
Arguments Undefined {A}.
Arguments OutOfFuel {A}.

(** ** Collaborators outside core/vm.cpp

    Functions the VM calls but does not define (string_utils.h, state.h,
    ast.h, the lexer, parser, desugarer and static analysis, the number
    and string unparsers, the C library, the import callback).  The
    development is parametric in them. *)
Class Externals := {
  encode_utf8 : UString → string;
  decode_utf8 : string → UString;
  type_str : ValueType → string;
  bop_string : BinaryOp → string;
  uop_string : UnaryOp → string;
  (** [jsonnet_builtin_decl(builtin).name] *)
  jsonnet_builtin_decl_name : Z → UString;
  jsonnet_unparse_number : float → string;
  jsonnet_string_unparse : UString → bool → UString;
  JSONNET_CODEPOINT_MAX : Z;
  (** [jsonnet_lex], [jsonnet_parse], [jsonnet_desugar] and
      [jsonnet_static_analysis] in a row, on a file name and its content;
      [inr] is the [StaticError] one of them threw. *)
  jsonnet_frontend : string → string → AST + string;
  (** The import callback, on [dir] and [path]: success flag, content
      (or the error text) and [found_here]. *)
  importCallback : string → string → bool * string * string;
  std_pow : float → float → float;
  std_floor : float → float;
  std_ceil : float → float;
  std_sin : float → float;
  std_cos : float → float;
  std_tan : float → float;
  std_asin : float → float;
  std_acos : float → float;
  std_atan : float → float;
  std_log : float → float;
  std_exp : float → float;
  (** [std::frexp]: mantissa and exponent. *)
  std_frexp : float → float * Z;
  std_fmod : float → float → float;
  (** The address of an interned identifier, which is what a map keyed
      by [const Identifier *] orders its entries by; it may differ from
      one run to the next. *)
  Identifier_address : Identifier → Z
}.

(** ** The evaluation stack *)

Module Stack.
(** [class Stack].  [low_water] is a ghost member: the smallest size
    [stack] has had since it was last reset.  No operation reads it; it
    only lets a theorem speak of the frames popped in the middle of a
    call. *)
Record t := {
  calls : Z;
  limit : Z;
  stack : list Frame;
  low_water : nat
}.

(** [Stack(unsigned limit)]. *)
Definition make (limit : Z) : t :=
  {| calls := 0; limit := wrap32 limit; stack := []; low_water := 0%nat |}.

(** [size()].  The source narrows [stack.size()] to [unsigned]; the
    embedding keeps the length, which no run brings to [2^32]. *)
Definition size (s : t) : nat := length (stack s).

Definition set_stack (l : list Frame) (s : t) : t :=
  {| calls := calls s; limit := limit s; stack := l;
     low_water := low_water s `min` length l |}.

Definition set_calls (c : Z) (s : t) : t :=
  {| calls := c; limit := limit s; stack := stack s;
     low_water := low_water s |}.

(** Ghost: start observing the low-water mark from the current size. *)
Definition reset_low (s : t) : t :=
  {| calls := calls s; limit := limit s; stack := stack s;
     low_water := length (stack s) |}.

(** [lookUpVar]: the closest variable in scope, not looking past a
    call frame. *)
Fixpoint lookUpVar_from (l : list Frame) (id : Identifier) : option nat :=
  match l with
  | [] => None
  | f :: below =>
      match Frame.bindings f !! id with
      | Some th => Some th
      | None => if Frame.isCall f then None else lookUpVar_from below id
      end
  end.
Definition lookUpVar (s : t) (id : Identifier) : option nat :=
  lookUpVar_from (stack s) id.

(** [top()]; [None] on an empty vector, where [back()] is undefined. *)
Definition top (s : t) : option Frame := head (stack s).

(** [pop()]. *)
Definition pop (s : t) : option t :=
  match stack s with
  | [] => None
  | f :: below =>
      let s' := if Frame.isCall f then set_calls (wrap32 (calls s - 1)) s
                else s in
      Some (set_stack below s')
  end.

(** [newFrame(args...)]: [stack.emplace_back(args...)]. *)
Definition newFrame (f : Frame) (s : t) : t := set_stack (f :: stack s) s.

(** The loop of [tailCallTrimStack]: what is left of the vector, and
    whether a call frame was removed. *)
Fixpoint trim (l : list Frame) : option (list Frame) :=
  match l with
  | [] => None
  | f :: below =>
      match Frame.kind f with
      | FRAME_CALL =>
          if negb (Frame.tailCall f)
             || bool_decide (0 < length (Frame.thunks f))%nat
          then None
          else Some below
      | FRAME_LOCAL => trim below
      | _ => None
      end
  end.

(** [tailCallTrimStack]. *)
Definition tailCallTrimStack (s : t) : t :=
  match trim (stack s) with
  | Some below => set_calls (wrap32 (calls s - 1)) (set_stack below s)
  | None => s
  end.

(** [getSelfBinding]. *)
Fixpoint getSelfBinding_from (l : list Frame) : option HeapObject * Z :=
  match l with
  | [] => (None, 0)
  | f :: below =>
      if Frame.isCall f then (Frame.self f, Frame.offset f)
      else getSelfBinding_from below
  end.
Definition getSelfBinding (s : t) : option HeapObject * Z :=
  getSelfBinding_from (stack s).

(** Pointer equality of two [HeapObject *]. *)
Definition same_object (a b : option HeapObject) : bool :=
  match a, b with
  | None, None => true
  | Some x, Some y => bool_decide (obj_addr x = obj_addr y)
  | _, _ => false
  end.

(** [alreadyExecutingInvariants]. *)
Definition alreadyExecutingInvariants (s : t) (self : option HeapObject)
    : bool :=
  existsb (fun f => bool_decide (Frame.kind f = FRAME_INVARIANTS)
                    && same_object (Frame.self f) self) (stack s).
End Stack.
Abbreviation Stack := Stack.t.

(** ** The interpreter state *)

(** [VmExt] (vm.h): an external variable, as raw text or as code. *)
Record VmExt := { data : string; isCode : bool }.

Record ImportCacheValue := { foundHere : string; content : string }.

(** The mutable members of [class Interpreter]: the heap (the thunk store
    and the next free address for objects and closures), the scratch
    register, the stack, the import cache, and the external variables. *)
Record Interpreter := {
  heap_thunks : list HeapThunk;
  heap_next : nat;
  scratch : Value;
  stack : Stack;
  cachedImports : gmap (string * list N) ImportCacheValue;
  externalVars : gmap string VmExt
}.

Definition set_heap_thunks (x : list HeapThunk) (vm : Interpreter) :=
  {| heap_thunks := x; heap_next := heap_next vm; scratch := scratch vm;
     stack := stack vm; cachedImports := cachedImports vm;
     externalVars := externalVars vm |}.
Definition set_heap_next (x : nat) (vm : Interpreter) :=
  {| heap_thunks := heap_thunks vm; heap_next := x; scratch := scratch vm;
     stack := stack vm; cachedImports := cachedImports vm;
     externalVars := externalVars vm |}.
Definition set_scratch (x : Value) (vm : Interpreter) :=
  {| heap_thunks := heap_thunks vm; heap_next := heap_next vm; scratch := x;
     stack := stack vm; cachedImports := cachedImports vm;
     externalVars := externalVars vm |}.
Definition set_stack (x : Stack) (vm : Interpreter) :=
  {| heap_thunks := heap_thunks vm; heap_next := heap_next vm;
     scratch := scratch vm; stack := x; cachedImports := cachedImports vm;
     externalVars := externalVars vm |}.
Definition set_cachedImports (x : gmap (string * list N) ImportCacheValue)
    (vm : Interpreter) :=
  {| heap_thunks := heap_thunks vm; heap_next := heap_next vm;
     scratch := scratch vm; stack := stack vm; cachedImports := x;
     externalVars := externalVars vm |}.

(** [Interpreter(alloc, ext_vars, max_stack, ...)]. *)
Definition Interpreter_make (ext_vars : gmap string VmExt) (max_stack : Z)
    : Interpreter :=
  {| heap_thunks := []; heap_next := 0; scratch := NULL_TYPE;
     stack := Stack.make max_stack; cachedImports := ∅;
     externalVars := ext_vars |}.

(** The frames of the stack, top first. *)
Definition frames (vm : Interpreter) : list Frame := Stack.stack (stack vm).

(** ** Error construction *)

Section Errors.
Context `{Externals}.

(** [e == thunk->content.v.h], for a value that [isHeap()]. *)
Definition points_to (e : HeapEntity) (v : Value) : bool :=
  match e, v with
  | EObject o, OBJECT (Some o') => bool_decide (obj_addr o = obj_addr o')
  | EClosure c, FUNCTION c' =>
      bool_decide (Closure.addr c = Closure.addr c')
  | _, _ => false
  end.

(** The entries of a map keyed by [const Identifier *], in the order
    the C++ map iterates them: by the addresses of the identifiers. *)
Definition by_address {A} (m : gmap (list N) A) : list (list N * A) :=
  merge_sort
    (fun a b => Is_true (Identifier_address a.1 <=? Identifier_address b.1))
    (map_to_list m).

(** The inner loop of [getName] over the bindings of one frame, in the
    order of the map; the last match is the one kept. *)
Definition getName_frame (heap : list HeapThunk) (e : HeapEntity)
    (binds : BindingFrame) (name : string) : string :=
  foldl (fun (name : string) (pair : list N * nat) =>
           match heap !! pair.2 with
           | Some thunk =>
               if Thunk.filled thunk && points_to e (Thunk.content thunk)
               then encode_utf8 pair.1 else name
           | None => name
           end) name (by_address binds).

(** The outer loop of [getName], over the frames below [from_here]. *)
Fixpoint getName_scan (heap : list HeapThunk) (l : list Frame)
    (e : HeapEntity) (name : string) : string :=
  match l with
  | [] => name
  | f :: below =>
      let name' := getName_frame heap e (Frame.bindings f) name in
      if Frame.isCall f then name' else getName_scan heap below e name'
  end.

(** [Stack::getName(from_here, e)], on the frames below [from_here]. *)
Definition getName (heap : list HeapThunk) (below : list Frame)
    (e : HeapEntity) : string :=
  let name := getName_scan heap below e "" in
  let name := if bool_decide (name = "") then "anonymous" else name in
  match e with
  | EObject _ => "object <" +:+ name +:+ ">"
  | EThunk r =>
      match heap !! r with
      | Some thunk => "thunk <" +:+ encode_utf8 (Thunk.name thunk) +:+ ">"
      | None => "thunk <>"
      end
  | EClosure func =>
      match Closure.body func with
      | None =>
          "builtin function <"
          +:+ encode_utf8 (jsonnet_builtin_decl_name (Closure.builtin func))
          +:+ ">"
      | Some _ => "function <" +:+ name +:+ ">"
      end
  end.

(** [stack_trace[stack_trace.size()-1].name = n]. *)
Definition set_last_name (trace : list TraceFrame) (n : string)
    : list TraceFrame :=
  match reverse trace with
  | [] => []
  | t :: before =>
      reverse ({| tf_location := tf_location t; tf_name := n |} :: before)
  end.

Fixpoint makeError_scan (heap : list HeapThunk) (l : list Frame)
    (trace : list TraceFrame) : list TraceFrame :=
  match l with
  | [] => trace
  | f :: below =>
      if Frame.isCall f then
        let trace :=
          match Frame.context f with
          | Some e => set_last_name trace (getName heap below e)
          | None => trace
          end in
        makeError_scan heap below
          (trace ++ [{| tf_location := Frame.location f; tf_name := "" |}])
      else makeError_scan heap below trace
  end.

(** [Stack::makeError(loc, msg)]: the error object with the stack
    trace; its first entry is the place of the failure. *)
Definition makeError (heap : list HeapThunk) (s : Stack)
    (loc : LocationRange) (msg : string) : RuntimeError :=
  {| stack_trace :=
       makeError_scan heap (Stack.stack s)
         [{| tf_location := loc; tf_name := "" |}];
     msg := msg |}.

(** [newCall]. *)
Definition Stack_newCall (heap : list HeapThunk) (loc : LocationRange)
    (context : option HeapEntity) (self : option HeapObject) (offset : Z)
    (up_values : BindingFrame) (s : Stack) : Result Stack :=
  let s := Stack.tailCallTrimStack s in
  if bool_decide (Stack.limit s ≤ Stack.calls s) then
    Throw (makeError heap s loc "Max stack frames exceeded.")
  else
    let f := Frame.of_loc FRAME_CALL loc in
    let f := Frame.set_context context f in
    let f := Frame.set_self self f in
    let f := Frame.set_offset offset f in
    let f := Frame.set_bindings up_values f in
    let f := Frame.set_tailCall false f in
    OK (Stack.set_calls (wrap32 (Stack.calls s + 1)) (Stack.newFrame f s)).
End Errors.

(** ** The prototype object model *)

(** [countLeaves]: the number of leaves of the tree, as an [unsigned]. *)
Fixpoint countLeaves (obj : HeapObject) : Z :=
  match obj with
  | HeapExtendedObject _ left_ right_ =>
      wrap32 (countLeaves left_ + countLeaves right_)
  | _ => 1
  end.

(** [countLeaves] on a possibly null pointer: [dynamic_cast] of a null
    pointer is null, so the answer is 1. *)
Definition countLeaves_ptr (obj : option HeapObject) : Z :=
  match obj with
  | Some o => countLeaves o
  | None => 1
  end.

(** [findObject(f, root, curr, start_from, counter, self)].  The two
    reference parameters [counter] and [self] are threaded as a pair. *)
Fixpoint findObject (f : Identifier) (root curr : HeapObject)
    (start_from : Z) (cs : Z * option HeapObject)
    : option HeapObject * (Z * option HeapObject) :=
  match curr with
  | HeapExtendedObject _ left_ right_ =>
      match findObject f root right_ start_from cs with
      | (Some r, cs) => (Some r, cs)
      | (None, cs) =>
          match findObject f root left_ start_from cs with
          | (Some l, cs) => (Some l, cs)
          | (None, cs) => (None, cs)
          end
      end
  | HeapSimpleObject _ _ fields _ =>
      let '(counter, self) := cs in
      if bool_decide (start_from ≤ counter)
         && bool_decide (is_Some (fields !! f))
      then (Some curr, (counter, Some root))
      else (None, (wrap32 (counter + 1), self))
  | HeapComprehensionObject _ _ _ _ compValues =>
      let '(counter, self) := cs in
      if bool_decide (start_from ≤ counter)
         && bool_decide (is_Some (compValues !! f))
      then (Some curr, (counter, Some root))
      else (None, (wrap32 (counter + 1), self))
  end.

(** [IdHideMap]. *)
Abbreviation IdHideMap := (gmap (list N) Hide).

(** The loop that merges the fields of the left operand into those
    collected from the right one. *)
Definition merge_left (r left_fields : IdHideMap) : IdHideMap :=
  map_fold (fun (k : list N) (h : Hide) (r : IdHideMap) =>
              match r !! k with
              | None => <[k := h]> r
              | Some INHERIT => <[k := h]> r
              | Some _ => r
              end) r left_fields.

(** [objectFields(obj_, counter, skip, manifesting)], the auxiliary
    overload: the map and the new value of [counter]. *)
Fixpoint objectFields_rec (obj_ : HeapObject) (counter skip : Z)
    (manifesting : bool) : IdHideMap * Z :=
  match obj_ with
  | HeapSimpleObject _ _ fields _ =>
      let counter := wrap32 (counter + 1) in
      if bool_decide (counter ≤ skip) then (∅, counter)
      else
        (map_fold (fun (k : list N) (f : Field) (r : IdHideMap) =>
                     <[k := if negb manifesting then VISIBLE else hide f]> r)
           ∅ fields,
         counter)
  | HeapExtendedObject _ left_ right_ =>
      let '(r, counter) := objectFields_rec right_ counter skip manifesting in
      let '(l, counter) := objectFields_rec left_ counter skip manifesting in
      (merge_left r l, counter)
  | HeapComprehensionObject _ _ _ _ compValues =>
      let counter := wrap32 (counter + 1) in
      if bool_decide (counter ≤ skip) then (∅, counter)
      else
        (map_fold (fun (k : list N) (_ : nat) (r : IdHideMap) =>
                     <[k := VISIBLE]> r) ∅ compValues,
         counter)
  end.

(** [objectFields(obj_, manifesting)]: the identifiers that are not
    hidden. *)
Definition objectFields (obj_ : HeapObject) (manifesting : bool)
    : gset (list N) :=
  map_fold (fun (k : list N) (h : Hide) (r : gset (list N)) =>
              if bool_decide (h ≠ HIDDEN) then {[k]} ∪ r else r)
    ∅ (objectFields_rec obj_ 0 0 manifesting).1.

(** ** A state and error monad for the members of [Interpreter] *)

Definition M (A : Type) : Type := Interpreter → Result (A * Interpreter).

Definition ret {A} (a : A) : M A := fun vm => OK (a, vm).

Definition bind {A B} (m : M A) (k : A → M B) : M B :=
  fun vm =>
    match m vm with
    | OK (a, vm') => k a vm'
    | Throw e => Throw e
    | ThrowStatic w => ThrowStatic w
    | Abort w => Abort w
    | Undefined => Undefined
    | OutOfFuel => OutOfFuel
    end.

Declare Scope vm_scope.
Delimit Scope vm_scope with vm.
Notation "'do' x <- m ; k" := (bind m (fun x => k))
  (at level 10, x pattern, m at level 100, k at level 200,
   format "'[v' 'do'  x  <-  m ; '/' k ']'") : vm_scope.
Notation "m ;; k" := (bind m (fun _ => k))
  (at level 100, k at level 200, right associativity) : vm_scope.
Local Open Scope vm_scope.

Definition get : M Interpreter := fun vm => OK (vm, vm).
Definition gets {A} (f : Interpreter → A) : M A := fun vm => OK (f vm, vm).
Definition modify (f : Interpreter → Interpreter) : M unit :=
  fun vm => OK (tt, f vm).
Definition abort {A} (what : string) : M A := fun _ => Abort what.
Definition undefined {A} : M A := fun _ => Undefined.
Definition out_of_fuel {A} : M A := fun _ => OutOfFuel.
Definition throw_static {A} (what : string) : M A :=
  fun _ => ThrowStatic what.

(** Lift a result that does not touch the state. *)
Definition lift {A} (r : Result A) : M A :=
  fun vm =>
    match r with
    | OK a => OK (a, vm)
    | Throw e => Throw e
    | ThrowStatic w => ThrowStatic w
    | Abort w => Abort w
    | Undefined => Undefined
    | OutOfFuel => OutOfFuel
    end.

(** A loop over a vector, threading an accumulator. *)
Fixpoint foldM {A B} (f : B → A → M B) (b : B) (l : list A) : M B :=
  match l with
  | [] => ret b
  | x :: l => do b <- f b x; foldM f b l
  end.

Section Primitives.
Context `{Externals}.

(** [throw makeError(loc, msg)]. *)
Definition throw {A} (loc : LocationRange) (msg : string) : M A :=
  fun vm => Throw (makeError (heap_thunks vm) (stack vm) loc msg).

Definition getScratch : M Value := gets scratch.
Definition setScratch (v : Value) : M unit := modify (set_scratch v).

(** [stack.newFrame(kind, ast)] and [stack.newFrame(kind, loc)]. *)
Definition newFrame (f : Frame) : M unit :=
  modify (fun vm => set_stack (Stack.newFrame f (stack vm)) vm).

(** [stack.pop()]. *)
Definition pop : M unit :=
  fun vm =>
    match Stack.pop (stack vm) with
    | Some s => OK (tt, set_stack s vm)
    | None => Undefined
    end.

(** [stack.top()], read. *)
Definition top : M Frame :=
  fun vm =>
    match Stack.top (stack vm) with
    | Some f => OK (f, vm)
    | None => Undefined
    end.

(** An assignment through [stack.top()]. *)
Definition modifyTop (g : Frame → Frame) : M unit :=
  fun vm =>
    match Stack.stack (stack vm) with
    | f :: below =>
        OK (tt, set_stack (Stack.set_stack (g f :: below) (stack vm)) vm)
    | [] => Undefined
    end.

Definition stackSize : M nat := gets (fun vm => Stack.size (stack vm)).

(** [stack.newCall(loc, context, self, offset, up_values)]. *)
Definition newCall (loc : LocationRange) (context : option HeapEntity)
    (self : option HeapObject) (offset : Z) (up_values : BindingFrame)
    : M unit :=
  fun vm =>
    match Stack_newCall (heap_thunks vm) loc context self offset up_values
            (stack vm) with
    | OK s => OK (tt, set_stack s vm)
    | Throw e => Throw e
    | ThrowStatic w => ThrowStatic w
    | Abort w => Abort w
    | Undefined => Undefined
    | OutOfFuel => OutOfFuel
    end.

Definition getSelfBinding : M (option HeapObject * Z) :=
  gets (fun vm => Stack.getSelfBinding (stack vm)).

Definition lookUpVar (id : Identifier) : M (option nat) :=
  gets (fun vm => Stack.lookUpVar (stack vm) id).

(** [makeHeap<HeapThunk>(name, self, offset, body)]: the address of
    the new thunk. *)
Definition makeThunk (name : Identifier) (self : option HeapObject)
    (offset : Z) (body : option AST) : M nat :=
  fun vm =>
    OK (length (heap_thunks vm),
        set_heap_thunks
          (heap_thunks vm ++ [Thunk.make name self offset body]) vm).

(** Reading through a [HeapThunk *]. *)
Definition getThunk (r : nat) : M HeapThunk :=
  fun vm =>
    match heap_thunks vm !! r with
    | Some th => OK (th, vm)
    | None => Undefined
    end.

(** Writing through a [HeapThunk *]. *)
Definition modifyThunk (r : nat) (g : HeapThunk → HeapThunk) : M unit :=
  fun vm =>
    match heap_thunks vm !! r with
    | Some th => OK (tt, set_heap_thunks (<[r := g th]> (heap_thunks vm)) vm)
    | None => Undefined
    end.

(** The address given to a new object or closure by [makeHeap]. *)
Definition freshAddr : M nat :=
  fun vm => OK (heap_next vm, set_heap_next (S (heap_next vm)) vm).

(** [capture(free_vars)]. *)
Definition capture (free_vars : list Identifier) : M BindingFrame :=
  foldM (fun (env : BindingFrame) (fv : list N) =>
           do th <- lookUpVar fv;
           match th with
           | Some th => ret (<[fv := th]> env)
           | None => ret env
           end) ∅ free_vars.

(** ** Value constructors *)

Definition makeBoolean (v : bool) : Value := BOOLEAN v.
Definition makeDouble (v : float) : Value := DOUBLE v.
Definition makeNull : Value := NULL_TYPE.
Definition makeString (v : UString) : Value := STRING v.

(** [makeDoubleCheck(loc, v)]. *)
Definition makeDoubleCheck (loc : LocationRange) (v : float) : M Value :=
  if PrimFloat.is_nan v then throw loc "Not a number"
  else if PrimFloat.is_infinity v then throw loc "Overflow"
  else ret (makeDouble v).

(** [makeArray(v)]. *)
Definition makeArray (v : list nat) : Value := ARRAY v.

(** [makeClosure(env, self, offset, params, body)]. *)
Definition makeClosure (env : BindingFrame) (self : option HeapObject)
    (offset : Z) (params : list Identifier) (body : AST) : M Value :=
  do a <- freshAddr;
  ret (FUNCTION {| Closure.addr := a; Closure.upValues := env;
                   Closure.self := self; Closure.offset := offset;
                   Closure.params := params; Closure.body := Some body;
                   Closure.builtin := 0 |}).

(** [makeBuiltin(builtin_id, params)]. *)
Definition makeBuiltin (builtin_id : Z) (params : list Identifier)
    : M Value :=
  do a <- freshAddr;
  ret (FUNCTION {| Closure.addr := a; Closure.upValues := ∅;
                   Closure.self := None; Closure.offset := 0;
                   Closure.params := params; Closure.body := None;
                   Closure.builtin := builtin_id |}).

(** [makeObject<HeapSimpleObject>(env, fields, asserts)]. *)
Definition makeSimpleObject (env : BindingFrame)
    (fields : gmap (list N) Field) (asserts : list AST) : M Value :=
  do a <- freshAddr;
  ret (OBJECT (Some (HeapSimpleObject a env fields asserts))).

(** [makeObject<HeapComprehensionObject>(env, value, id, elements)]. *)
Definition makeComprehensionObject (env : BindingFrame) (value : AST)
    (id : Identifier) (compValues : gmap (list N) nat) : M Value :=
  do a <- freshAddr;
  ret (OBJECT (Some (HeapComprehensionObject a env value id compValues))).
End Primitives.

(** ** Conversions between [double] and [long] *)

(** The integer a finite [double] truncates to; [None] for NaN and the
    infinities. *)
Definition trunc_double (d : float) : option Z :=
  match Prim2SF d with
  | S754_zero _ => Some 0
  | S754_finite s m e =>
      let mag := if bool_decide (0 ≤ e) then Z.pos m * 2 ^ e
                 else Z.pos m `div` 2 ^ (- e) in
      Some (if s then - mag else mag)
  | _ => None
  end.

(** [long(d)]: undefined when the truncated value is not a [long]. *)
Definition double_to_long (d : float) : Result Z :=
  match trunc_double d with
  | Some z =>
      if bool_decide (long_min ≤ z ≤ long_max) then OK z else Undefined
  | None => Undefined
  end.

(** The conversion of an integer to [double] (round to nearest even). *)
Definition Z_to_double (z : Z) : float :=
  SF2Prim (binary_normalize prec emax z 0 false).

(** Lexicographic order on [std::u32string]. *)
Fixpoint ustring_ltb (a b : UString) : bool :=
  match a, b with
  | _, [] => false
  | [], _ :: _ => true
  | x :: a, y :: b => if (x <? y)%N then true
                      else if (y <? x)%N then false else ustring_ltb a b
  end.
Definition ustring_leb (a b : UString) : bool := negb (ustring_ltb b a).

(** [dir_name]: the path up to and including its last slash, or the
    empty string. *)
Fixpoint dir_name_opt (path : string) : option string :=
  match path with
  | EmptyString => None
  | String c rest =>
      match dir_name_opt rest with
      | Some d => Some (String c d)
      | None => if Ascii.eqb c (Ascii.ascii_of_nat 47) then Some (String c EmptyString) else None
      end
  end.
Definition dir_name (path : string) : string :=
  default "" (dir_name_opt path).

(** The one-character string holding a double quote. *)
Definition dquote : string := String (Ascii.ascii_of_nat 34) EmptyString.

Definition idArrayElement : UString := U "array_element".
Definition idInvariant : UString := U "object_assert".

(** What the driver does after a case of one of its two switches. *)
Inductive Next := Goto (ast_ : AST) | Fall.
Inductive Jump := Recurse (ast_ : AST) | PopFrame | ReplaceFrame.

Section Values.
Context `{Externals}.

(** [type_str(v)]. *)
Definition type_str_value (v : Value) : string := type_str (Value_t v).

(** A comma-separated list, as the two loops of [validateBuiltinArgs]
    print it. *)
Fixpoint comma_sep (l : list string) : string :=
  match l with
  | [] => ""
  | [x] => x
  | x :: l => x +:+ ", " +:+ comma_sep l
  end.

(** [validateBuiltinArgs(loc, builtin, args, params)]. *)
Definition validateBuiltinArgs (loc : LocationRange) (builtin : Z)
    (args : list Value) (params : list ValueType) : M unit :=
  if bool_decide (Value_t <$> args = params) then ret tt
  else
    throw loc
      ("Builtin function " +:+ encode_utf8 (jsonnet_builtin_decl_name builtin)
       +:+ " expected (" +:+ comma_sep (type_str <$> params)
       +:+ ") but got (" +:+ comma_sep (type_str_value <$> args) +:+ ")").

(** The two operands of a bitwise operator, as [long]s. *)
Definition two_longs (l r : float) : M (Z * Z) :=
  do long_l <- lift (double_to_long l);
  do long_r <- lift (double_to_long r);
  ret (long_l, long_r).

(** [case Value::DOUBLE] of [FRAME_BINARY_RIGHT]. *)
Definition binary_double (loc : LocationRange) (op : BinaryOp)
    (l r : float) : M Value :=
  match op with
  | BOP_PLUS => makeDoubleCheck loc (PrimFloat.add l r)
  | BOP_MINUS => makeDoubleCheck loc (PrimFloat.sub l r)
  | BOP_MULT => makeDoubleCheck loc (PrimFloat.mul l r)
  | BOP_DIV =>
      if PrimFloat.eqb r PrimFloat.zero then throw loc "Division by zero."
      else makeDoubleCheck loc (PrimFloat.div l r)
  | BOP_SHIFT_L =>
      do (long_l, long_r) <- two_longs l r;
      if bool_decide (0 ≤ long_r < 64)
      then ret (makeDouble (Z_to_double (wrap_long (Z.shiftl long_l long_r))))
      else undefined
  | BOP_SHIFT_R =>
      do (long_l, long_r) <- two_longs l r;
      if bool_decide (0 ≤ long_r < 64)
      then ret (makeDouble (Z_to_double (Z.shiftr long_l long_r)))
      else undefined
  | BOP_BITWISE_AND =>
      do (long_l, long_r) <- two_longs l r;
      ret (makeDouble (Z_to_double (Z.land long_l long_r)))
  | BOP_BITWISE_XOR =>
      do (long_l, long_r) <- two_longs l r;
      ret (makeDouble (Z_to_double (Z.lxor long_l long_r)))
  | BOP_BITWISE_OR =>
      do (long_l, long_r) <- two_longs l r;
      ret (makeDouble (Z_to_double (Z.lor long_l long_r)))
  | BOP_LESS_EQ => ret (makeBoolean (PrimFloat.leb l r))
  | BOP_GREATER_EQ => ret (makeBoolean (PrimFloat.leb r l))
  | BOP_LESS => ret (makeBoolean (PrimFloat.ltb l r))
  | BOP_GREATER => ret (makeBoolean (PrimFloat.ltb r l))
  | _ =>
      throw loc ("Binary operator " +:+ bop_string op
                 +:+ " does not operate on numbers.")
  end.

(** [case Value::STRING] of [FRAME_BINARY_RIGHT]. *)
Definition binary_string (loc : LocationRange) (op : BinaryOp)
    (lhs_str rhs_str : UString) : M Value :=
  match op with
  | BOP_PLUS => ret (makeString (lhs_str ++ rhs_str))
  | BOP_LESS_EQ => ret (makeBoolean (ustring_leb lhs_str rhs_str))
  | BOP_GREATER_EQ => ret (makeBoolean (ustring_leb rhs_str lhs_str))
  | BOP_LESS => ret (makeBoolean (ustring_ltb lhs_str rhs_str))
  | BOP_GREATER => ret (makeBoolean (ustring_ltb rhs_str lhs_str))
  | _ =>
      throw loc ("Binary operator " +:+ bop_string op
                 +:+ " does not operate on strings.")
  end.

(** The [switch (lhs.t)] of [FRAME_BINARY_RIGHT], entered once both
    operands have the same type.  An extended object is only built over
    two non-null objects: a null object pointer can only come from
    [self] outside of an object, which the static analysis rejects. *)
Definition binary_same_type (loc : LocationRange) (op : BinaryOp)
    (lhs rhs : Value) : M Value :=
  match lhs, rhs with
  | ARRAY arr_l, ARRAY arr_r =>
      match op with
      | BOP_PLUS => ret (makeArray (arr_l ++ arr_r))
      | _ => throw loc ("Binary operator " +:+ bop_string op
                        +:+ " does not operate on arrays.")
      end
  | BOOLEAN l, BOOLEAN r =>
      match op with
      | BOP_AND => ret (makeBoolean (l && r))
      | BOP_OR => ret (makeBoolean (l || r))
      | _ => throw loc ("Binary operator " +:+ bop_string op
                        +:+ " does not operate on booleans.")
      end
  | DOUBLE l, DOUBLE r => binary_double loc op l r
  | FUNCTION _, FUNCTION _ =>
      throw loc ("Binary operator " +:+ bop_string op
                 +:+ " does not operate on functions.")
  | NULL_TYPE, NULL_TYPE =>
      throw loc ("Binary operator " +:+ bop_string op
                 +:+ " does not operate on null.")
  | OBJECT lhs_obj, OBJECT rhs_obj =>
      match op with
      | BOP_PLUS =>
          match lhs_obj, rhs_obj with
          | Some l, Some r =>
              do a <- freshAddr;
              ret (OBJECT (Some (HeapExtendedObject a l r)))
          | _, _ => undefined
          end
      | _ => throw loc ("Binary operator " +:+ bop_string op
                        +:+ " does not operate on objects.")
      end
  | STRING lhs_str, STRING rhs_str => binary_string loc op lhs_str rhs_str
  | _, _ => undefined
  end.
End Values.

(** ** Objects: invariants and indexing *)

Section Objects.
Context `{Externals}.

(** [objectInvariants(curr, self, counter, thunks)], where [thunks] is
    the vector of the frame at the top of the stack (both callers pass
    [stack.top().thunks]); the result is the new [counter]. *)
Fixpoint objectInvariants (curr : HeapObject) (self : option HeapObject)
    (counter : Z) : M Z :=
  match curr with
  | HeapExtendedObject _ left_ right_ =>
      do counter <- objectInvariants right_ self counter;
      objectInvariants left_ self counter
  | HeapSimpleObject _ upValues _ asserts =>
      foldM (fun (_ : unit) (assert : AST) =>
               do el_th <- makeThunk idInvariant self counter (Some assert);
               modifyThunk el_th (Thunk.set_upValues upValues);;
               modifyTop (fun f =>
                 Frame.set_thunks (Frame.thunks f ++ [el_th]) f))
        tt asserts;;
      ret (wrap32 (counter + 1))
  | HeapComprehensionObject _ _ _ _ _ => ret (wrap32 (counter + 1))
  end.

(** The same on a pointer that may be null: no cast succeeds on a null
    pointer, so only the counter moves. *)
Definition objectInvariants_ptr (curr self : option HeapObject)
    (counter : Z) : M Z :=
  match curr with
  | Some o => objectInvariants o self counter
  | None => ret (wrap32 (counter + 1))
  end.

(** [findObject] from the root, as [objectIndex] calls it; on a null
    root no cast succeeds and the answer is null. *)
Definition findObject_ptr (f : Identifier) (obj : option HeapObject)
    (offset : Z) : option HeapObject * (Z * option HeapObject) :=
  match obj with
  | Some o => findObject f o o offset (0, None)
  | None => (None, (1, None))
  end.

(** [objectIndex(loc, obj, f, offset)]: pushes the call frame of the
    field and returns its body. *)
Definition objectIndex (loc : LocationRange) (obj : option HeapObject)
    (f : Identifier) (offset : Z) : M AST :=
  let '(found, (found_at, self)) := findObject_ptr f obj offset in
  match found with
  | None => throw loc ("Field does not exist: " +:+ encode_utf8 f)
  | Some (HeapSimpleObject _ upValues fields _ as simp) =>
      match fields !! f with
      | Some it =>
          newCall loc (Some (EObject simp)) self found_at upValues;;
          ret (body it)
      | None => undefined
      end
  | Some (HeapComprehensionObject _ upValues value id compValues as comp) =>
      match compValues !! f with
      | Some th =>
          let binds := <[id := th]> upValues in
          newCall loc (Some (EObject comp)) self found_at binds;;
          ret value
      | None => undefined
      end
  | Some (HeapExtendedObject _ _ _) => undefined
  end.

(** [objectFields(obj_, manifesting)] on a pointer that may be null. *)
Definition objectFields_ptr (obj : option HeapObject) (manifesting : bool)
    : gset (list N) :=
  match obj with
  | Some o => objectFields o manifesting
  | None => ∅
  end.

(** ** Imports *)

(** [importString(loc, file)]. *)
Definition importString (loc : LocationRange) (path : UString)
    : M ImportCacheValue :=
  let dir := dir_name (file loc) in
  let key := (dir, path) in
  do cache <- gets cachedImports;
  match cache !! key with
  | Some cached_value => ret cached_value
  | None =>
      let '(success, input, found_here) :=
        importCallback dir (encode_utf8 path) in
      if negb success then
        throw loc ("Couldn't open import " +:+ dquote +:+ encode_utf8 path
                   +:+ dquote +:+ ": " +:+ input)
      else
        let input_ptr := {| foundHere := found_here; content := input |} in
        modify (fun vm =>
          set_cachedImports (<[key := input_ptr]> (cachedImports vm)) vm);;
        ret input_ptr
  end.

(** The lexer, parser, desugarer and static analysis on one source. *)
Definition frontend (filename src : string) : M AST :=
  match jsonnet_frontend filename src with
  | inl expr => ret expr
  | inr what => throw_static what
  end.

(** [import(loc, file)]. *)
Definition import (loc : LocationRange) (path : UString) : M AST :=
  do input <- importString loc path;
  frontend (foundHere input) (content input).
End Objects.

(** ** Built-in functions *)

Section Builtins.
Context `{Externals}.

(** [validateBuiltinArgs] followed by the use of [args[0].v.d]. *)
Definition one_double (loc : LocationRange) (builtin : Z)
    (args : list Value) : M float :=
  validateBuiltinArgs loc builtin args [T_DOUBLE];;
  match args with
  | [DOUBLE d] => ret d
  | _ => undefined
  end.

(** A builtin of the form
    [scratch = makeDoubleCheck(loc, std::fn(args[0].v.d))]. *)
Definition builtin_unary_math (loc : LocationRange) (builtin : Z)
    (args : list Value) (fn : float → float) : M Jump :=
  do d <- one_double loc builtin args;
  do v <- makeDoubleCheck loc (fn d);
  setScratch v;;
  ret PopFrame.

(** [case 24: primitiveEquals]. *)
Definition builtin_primitiveEquals (loc : LocationRange)
    (args : list Value) : M Jump :=
  match args with
  | [a; b] =>
      if bool_decide (Value_t a ≠ Value_t b) then
        setScratch (makeBoolean false);;
        ret PopFrame
      else
        do r <-
          match a, b with
          | BOOLEAN x, BOOLEAN y => ret (Bool.eqb x y)
          | DOUBLE x, DOUBLE y => ret (PrimFloat.eqb x y)
          | STRING x, STRING y => ret (bool_decide (x = y))
          | NULL_TYPE, NULL_TYPE => ret true
          | FUNCTION _, FUNCTION _ =>
              throw loc "Cannot test equality of functions"
          | _, _ =>
              throw loc ("primitiveEquals operates on primitive "
                         +:+ "types, got " +:+ type_str_value a)
          end;
        setScratch (makeBoolean r);;
        ret PopFrame
  | _ => throw loc "primitiveEquals takes 2 parameters."
  end.

(** [case 0: makeArray]. *)
Definition builtin_makeArray (loc : LocationRange) (builtin : Z)
    (args : list Value) : M Jump :=
  validateBuiltinArgs loc builtin args [T_DOUBLE; T_FUNCTION];;
  match args with
  | [DOUBLE d; FUNCTION func] =>
      do sz <- lift (double_to_long d);
      if bool_decide (sz < 0) then
        throw loc ("makeArray requires size >= 0, got " +:+ pretty sz)
      else
        match Closure.params func with
        | [param] =>
            do elements <-
              foldM (fun (elements : list nat) (i : nat) =>
                       do th <- makeThunk idArrayElement (Closure.self func)
                                  (Closure.offset func) (Closure.body func);
                       modifyTop (fun f =>
                         Frame.set_thunks (Frame.thunks f ++ [th]) f);;
                       modifyThunk th
                         (Thunk.set_upValues (Closure.upValues func));;
                       do el <- makeThunk param None 0 None;
                       modifyThunk el
                         (Thunk.fill (makeDouble (Z_to_double (Z.of_nat i))));;
                       modifyThunk th (fun t =>
                         Thunk.set_upValues
                           (<[param := el]> (Thunk.upValues t)) t);;
                       ret (elements ++ [th]))
                [] (seq 0 (Z.to_nat sz));
            setScratch (makeArray elements);;
            ret PopFrame
        | params =>
            throw loc ("makeArray function must take 1 param, got: "
                       +:+ pretty (length params))
        end
  | _ => undefined
  end.

(** [case 11: type]. *)
Definition builtin_type (args : list Value) : M Jump :=
  match args with
  | v :: _ =>
      setScratch
        (makeString
           match v with
           | NULL_TYPE => U "null"
           | BOOLEAN _ => U "boolean"
           | DOUBLE _ => U "number"
           | ARRAY _ => U "array"
           | FUNCTION _ => U "function"
           | OBJECT _ => U "object"
           | STRING _ => U "string"
           end);;
      ret PopFrame
  | [] => undefined
  end.

(** [case 12: filter]. *)
Definition builtin_filter (loc : LocationRange) (builtin : Z)
    (args : list Value) : M Jump :=
  validateBuiltinArgs loc builtin args [T_FUNCTION; T_ARRAY];;
  match args with
  | [FUNCTION func as a0; ARRAY arr as a1] =>
      match Closure.params func with
      | [param] =>
          match arr with
          | [] => setScratch (makeArray []);; ret PopFrame
          | thunk :: _ =>
              modifyTop (fun f =>
                Frame.set_elementId 0
                  (Frame.set_thunks []
                     (Frame.set_val2 a1
                        (Frame.set_val a0
                           (Frame.set_kind FRAME_BUILTIN_FILTER f)))));;
              let bindings := <[param := thunk]> (Closure.upValues func) in
              newCall loc (Some (EClosure func)) (Closure.self func)
                (Closure.offset func) bindings;;
              match Closure.body func with
              | Some body => ret (Recurse body)
              | None => undefined
              end
          end
      | _ => throw loc "filter function takes 1 parameter."
      end
  | _ => undefined
  end.

(** [case 13: objectHasEx]. *)
Definition builtin_objectHasEx (loc : LocationRange) (builtin : Z)
    (args : list Value) : M Jump :=
  validateBuiltinArgs loc builtin args [T_OBJECT; T_STRING; T_BOOLEAN];;
  match args with
  | [OBJECT obj; STRING str; BOOLEAN include_hidden] =>
      let found :=
        bool_decide (str ∈ objectFields_ptr obj (negb include_hidden)) in
      setScratch (makeBoolean found);;
      ret PopFrame
  | _ => undefined
  end.

(** [case 14: length]. *)
Definition builtin_length (loc : LocationRange) (args : list Value)
    : M Jump :=
  match args with
  | [v] =>
      do n <-
        match v with
        | OBJECT e => ret (size (objectFields_ptr e true))
        | ARRAY elements => ret (length elements)
        | STRING value => ret (length value)
        | FUNCTION e => ret (length (Closure.params e))
        | _ => throw loc ("length operates on strings, objects, "
                          +:+ "and arrays, got " +:+ type_str_value v)
        end;
      setScratch (makeDouble (Z_to_double (Z.of_nat n)));;
      ret PopFrame
  | _ => throw loc "length takes 1 parameter."
  end.

(** [case 15: objectFieldsEx]. *)
Definition builtin_objectFieldsEx (loc : LocationRange) (builtin : Z)
    (args : list Value) : M Jump :=
  validateBuiltinArgs loc builtin args [T_OBJECT; T_BOOLEAN];;
  match args with
  | [OBJECT obj; BOOLEAN include_hidden] =>
      let fields :=
        merge_sort (fun a b => Is_true (ustring_leb a b))
          (elements (objectFields_ptr obj (negb include_hidden))) in
      setScratch (makeArray []);;
      foldM (fun (_ : unit) (field : UString) =>
               do th <- makeThunk idArrayElement None 0 None;
               do scr <- getScratch;
               match scr with
               | ARRAY elements => setScratch (ARRAY (elements ++ [th]))
               | _ => undefined
               end;;
               modifyThunk th (Thunk.fill (makeString field)))
        tt fields;;
      ret PopFrame
  | _ => undefined
  end.

(** [case 16: codepoint]. *)
Definition builtin_codepoint (loc : LocationRange) (builtin : Z)
    (args : list Value) : M Jump :=
  validateBuiltinArgs loc builtin args [T_STRING];;
  match args with
  | [STRING str] =>
      match str with
      | [c] =>
          setScratch (makeDouble (Z_to_double (Z.of_N c)));;
          ret PopFrame
      | _ =>
          throw loc ("codepoint takes a string of length 1, got length "
                     +:+ pretty (length str))
      end
  | _ => undefined
  end.

(** [case 17: char]. *)
Definition builtin_char (loc : LocationRange) (builtin : Z)
    (args : list Value) : M Jump :=
  do d <- one_double loc builtin args;
  do l <- lift (double_to_long d);
  if bool_decide (l < 0) then
    throw loc ("Codepoints must be >= 0, got " +:+ pretty l)
  else if bool_decide (JSONNET_CODEPOINT_MAX ≤ l) then
    throw loc ("Invalid unicode codepoint, got " +:+ pretty l)
  else
    setScratch (makeString [Z.to_N l]);;
    ret PopFrame.

(** [case 23: extVar]. *)
Definition builtin_extVar (loc : LocationRange) (builtin : Z)
    (args : list Value) : M Jump :=
  validateBuiltinArgs loc builtin args [T_STRING];;
  match args with
  | [STRING var] =>
      let var8 := encode_utf8 var in
      do vars <- gets externalVars;
      match vars !! var8 with
      | None => throw loc ("Undefined external variable: " +:+ var8)
      | Some ext =>
          if isCode ext then
            let filename := "<extvar:" +:+ var8 +:+ ">" in
            do expr <- frontend filename (data ext);
            pop;;
            ret (Recurse expr)
          else
            setScratch (makeString (decode_utf8 (data ext)));;
            ret PopFrame
      end
  | _ => undefined
  end.

(** The [switch (builtin)] of [FRAME_BUILTIN_FORCE_THUNKS], once every
    argument is forced. *)
Definition builtin_call (loc : LocationRange) (builtin : Z)
    (args : list Value) : M Jump :=
  match builtin with
  | 0 => builtin_makeArray loc builtin args
  | 1 =>
      validateBuiltinArgs loc builtin args [T_DOUBLE; T_DOUBLE];;
      match args with
      | [DOUBLE a; DOUBLE b] =>
          do v <- makeDoubleCheck loc (std_pow a b);
          setScratch v;;
          ret PopFrame
      | _ => undefined
      end
  | 2 => builtin_unary_math loc builtin args std_floor
  | 3 => builtin_unary_math loc builtin args std_ceil
  | 4 => builtin_unary_math loc builtin args PrimFloat.sqrt
  | 5 => builtin_unary_math loc builtin args std_sin
  | 6 => builtin_unary_math loc builtin args std_cos
  | 7 => builtin_unary_math loc builtin args std_tan
  | 8 => builtin_unary_math loc builtin args std_asin
  | 9 => builtin_unary_math loc builtin args std_acos
  | 10 => builtin_unary_math loc builtin args std_atan
  | 11 => builtin_type args
  | 12 => builtin_filter loc builtin args
  | 13 => builtin_objectHasEx loc builtin args
  | 14 => builtin_length loc args
  | 15 => builtin_objectFieldsEx loc builtin args
  | 16 => builtin_codepoint loc builtin args
  | 17 => builtin_char loc builtin args
  | 18 => builtin_unary_math loc builtin args std_log
  | 19 => builtin_unary_math loc builtin args std_exp
  | 20 => builtin_unary_math loc builtin args (fun d => (std_frexp d).1)
  | 21 =>
      builtin_unary_math loc builtin args
        (fun d => Z_to_double (std_frexp d).2)
  | 22 =>
      validateBuiltinArgs loc builtin args [T_DOUBLE; T_DOUBLE];;
      match args with
      | [DOUBLE a; DOUBLE b] =>
          if PrimFloat.eqb b PrimFloat.zero
          then throw loc "Division by zero."
          else
            do v <- makeDoubleCheck loc (std_fmod a b);
            setScratch v;;
            ret PopFrame
      | _ => undefined
      end
  | 23 => builtin_extVar loc builtin args
  | 24 => builtin_primitiveEquals loc args
  | _ => abort "INTERNAL ERROR: Unrecognized builtin"
  end.
End Builtins.

(** ** The driver: the switch over the AST *)

Section Driver.
Context `{Externals}.

(** [elements.push_back(el_th)] on the array the scratch register
    points to. *)
Definition scratch_push_back (th : nat) : M unit :=
  do scr <- getScratch;
  match scr with
  | ARRAY elements => setScratch (ARRAY (elements ++ [th]))
  | _ => undefined
  end.

(** The first [switch] of [evaluate]: [Goto e] is
    [ast_ = e; goto recurse], [Fall] is [break]. *)
Definition eval_ast (ast_ : AST) : M Next :=
  match ast_ with
  | AST_APPLY _ target _ _ =>
      newFrame (Frame.of_ast FRAME_APPLY_TARGET ast_);;
      ret (Goto target)

  | AST_ARRAY _ elements =>
      do (self, offset) <- getSelfBinding;
      setScratch (makeArray []);;
      foldM (fun (_ : unit) (el : AST) =>
               do el_th <- makeThunk idArrayElement self offset (Some el);
               do up <- capture (ast_freeVariables el);
               modifyThunk el_th (Thunk.set_upValues up);;
               scratch_push_back el_th)
        tt elements;;
      ret Fall

  | AST_BINARY _ left_ _ _ =>
      newFrame (Frame.of_ast FRAME_BINARY_LEFT ast_);;
      ret (Goto left_)

  | AST_BUILTIN_FUNCTION _ id params =>
      do v <- makeBuiltin id params;
      setScratch v;;
      ret Fall

  | AST_CONDITIONAL _ cond _ _ =>
      newFrame (Frame.of_ast FRAME_IF ast_);;
      ret (Goto cond)

  | AST_ERROR _ expr =>
      newFrame (Frame.of_ast FRAME_ERROR ast_);;
      ret (Goto expr)

  | AST_FUNCTION a params body =>
      do env <- capture (freeVariables a);
      do (self, offset) <- getSelfBinding;
      do v <- makeClosure env self offset params body;
      setScratch v;;
      ret Fall

  | AST_IMPORT a path =>
      do expr <- import (location a) path;
      newCall (location a) None None 0 ∅;;
      ret (Goto expr)

  | AST_IMPORTSTR a path =>
      do value <- importString (location a) path;
      setScratch (makeString (decode_utf8 (content value)));;
      ret Fall

  | AST_INDEX _ target _ =>
      newFrame (Frame.of_ast FRAME_INDEX_TARGET ast_);;
      ret (Goto target)

  | AST_LOCAL _ binds body =>
      newFrame (Frame.of_ast FRAME_LOCAL ast_);;
      (* First build all the thunks and bind them. *)
      do (self, offset) <- getSelfBinding;
      foldM (fun (_ : unit) (bind : list N * AST) =>
               do th <- makeThunk bind.1 self offset (Some bind.2);
               modifyTop (fun f =>
                 Frame.set_bindings (<[bind.1 := th]> (Frame.bindings f)) f))
        tt binds;;
      (* Now capture the environment (including the new thunks). *)
      foldM (fun (_ : unit) (bind : list N * AST) =>
               do f <- top;
               match Frame.bindings f !! bind.1 with
               | Some thunk =>
                   do up <- capture (ast_freeVariables bind.2);
                   modifyThunk thunk (Thunk.set_upValues up)
               | None => undefined
               end)
        tt binds;;
      ret (Goto body)

  | AST_LITERAL_BOOLEAN _ value =>
      setScratch (makeBoolean value);;
      ret Fall

  | AST_LITERAL_NUMBER _ value =>
      do v <- makeDoubleCheck (ast_location ast_) value;
      setScratch v;;
      ret Fall

  | AST_LITERAL_STRING _ value =>
      setScratch (makeString value);;
      ret Fall

  | AST_LITERAL_NULL _ =>
      setScratch makeNull;;
      ret Fall

  | AST_DESUGARED_OBJECT a asserts fields =>
      match fields with
      | [] =>
          do env <- capture (freeVariables a);
          do v <- makeSimpleObject env ∅ asserts;
          setScratch v;;
          ret Fall
      | fit :: _ =>
          do env <- capture (freeVariables a);
          newFrame (Frame.of_ast FRAME_OBJECT ast_);;
          modifyTop (Frame.set_fit 0);;
          ret (Goto fit.1.2)
      end

  | AST_OBJECT_COMPREHENSION_SIMPLE _ _ _ _ array =>
      newFrame (Frame.of_ast FRAME_OBJECT_COMP_ARRAY ast_);;
      ret (Goto array)

  | AST_SELF _ =>
      do (self, offset) <- getSelfBinding;
      setScratch (OBJECT self);;
      ret Fall

  | AST_SUPER_INDEX _ index =>
      newFrame (Frame.of_ast FRAME_SUPER_INDEX ast_);;
      ret (Goto index)

  | AST_UNARY _ _ expr =>
      newFrame (Frame.of_ast FRAME_UNARY ast_);;
      ret (Goto expr)

  | AST_VAR a id =>
      do thunk <- lookUpVar id;
      match thunk with
      | None => abort "INTERNAL ERROR: Could not bind variable"
      | Some r =>
          do thunk <- getThunk r;
          if Thunk.filled thunk then
            setScratch (Thunk.content thunk);;
            ret Fall
          else
            newCall (location a) (Some (EThunk r)) (Thunk.self thunk)
              (Thunk.offset thunk) (Thunk.upValues thunk);;
            match Thunk.body thunk with
            | Some body => ret (Goto body)
            | None => undefined
            end
      end

  | AST_OTHER _ _ => abort "INTERNAL ERROR: Unknown AST"
  end.
End Driver.

(** ** The driver: the switch over the kind of the top frame

    Each case of the [while] loop of [evaluate] is a definition of its
    own.  [Recurse e] is [ast_ = e; goto recurse], [PopFrame] is [break]
    or [goto popframe], [ReplaceFrame] is [goto replaceframe].  A case
    whose frame does not hold the AST node its [static_cast] expects is
    [undefined]. *)

Section Frames.
Context `{Externals}.

Definition push_thunk (th : nat) : M unit :=
  modifyTop (fun f => Frame.set_thunks (Frame.thunks f ++ [th]) f).

(** [bindings[params[i]] = args[i]] for every [i]. *)
Definition bind_params (up : BindingFrame) (params : list Identifier)
    (args : list nat) : BindingFrame :=
  foldl (fun (b : BindingFrame) (pa : list N * nat) => <[pa.1 := pa.2]> b)
    up (zip params args).

(** Forcing a thunk that is not filled: the call frame, then its
    body. *)
Definition force_thunk (loc : LocationRange) (r : nat) (th : HeapThunk)
    : M Jump :=
  newCall loc (Some (EThunk r)) (Thunk.self th) (Thunk.offset th)
    (Thunk.upValues th);;
  match Thunk.body th with
  | Some body => ret (Recurse body)
  | None => undefined
  end.

Definition frame_apply_target (f : Frame) : M Jump :=
  match Frame.ast f with
  | Some (AST_APPLY a _ args tailstrict as apply) =>
      do scr <- getScratch;
      match scr with
      | FUNCTION func =>
          if bool_decide (length args ≠ length (Closure.params func)) then
            throw (location a)
              ("Expected " +:+ pretty (length (Closure.params func))
               +:+ " arguments, got " +:+ pretty (length args) +:+ ".")
          else
            (* Create thunks for arguments. *)
            foldM (fun (_ : unit) (ap : AST * list N) =>
                     do (self, offset) <- getSelfBinding;
                     do thunk <- makeThunk ap.2 self offset (Some ap.1);
                     do up <- capture (ast_freeVariables ap.1);
                     modifyThunk thunk (Thunk.set_upValues up);;
                     push_thunk thunk)
              tt (zip args (Closure.params func));;
            do f <- top;
            let args := Frame.thunks f in
            pop;;
            match Closure.body func with
            | None =>
                (* Built-in function. *)
                newFrame (Frame.of_ast FRAME_BUILTIN_FORCE_THUNKS apply);;
                modifyTop (Frame.set_thunks args);;
                modifyTop (Frame.set_val scr);;
                ret ReplaceFrame
            | Some body =>
                (* User defined function. *)
                let bindings :=
                  bind_params (Closure.upValues func) (Closure.params func)
                    args in
                newCall (location a) (Some (EClosure func))
                  (Closure.self func) (Closure.offset func) bindings;;
                if tailstrict then
                  modifyTop (Frame.set_tailCall true);;
                  match args with
                  | [] => ret (Recurse body)
                  | _ =>
                      modifyTop (Frame.set_thunks args);;
                      modifyTop (Frame.set_val scr);;
                      ret ReplaceFrame
                  end
                else ret (Recurse body)
            end
      | _ =>
          throw (location a)
            ("Only functions can be called, got " +:+ type_str_value scr)
      end
  | _ => undefined
  end.

Definition frame_binary_left (f : Frame) : M Jump :=
  match Frame.ast f with
  | Some (AST_BINARY a _ op right_) =>
      do lhs <- getScratch;
      let continue_ :=
        modifyTop (Frame.set_kind FRAME_BINARY_RIGHT);;
        modifyTop (Frame.set_val lhs);;
        ret (Recurse right_) in
      match lhs, op with
      | BOOLEAN false, BOP_AND =>
          setScratch (makeBoolean false);; ret PopFrame
      | BOOLEAN true, BOP_OR =>
          setScratch (makeBoolean true);; ret PopFrame
      | _, _ => continue_
      end
  | _ => undefined
  end.

Definition is_string (v : Value) : bool :=
  match v with STRING _ => true | _ => false end.

Definition frame_binary_right (f : Frame) : M Jump :=
  match Frame.ast f with
  | Some (AST_BINARY a _ op _) =>
      let lhs := Frame.val f in
      do rhs <- getScratch;
      if (is_string lhs || is_string rhs)
         && bool_decide (op = BOP_PLUS) then
        (* Handle co-ercions for string processing. *)
        modifyTop (Frame.set_kind FRAME_STRING_CONCAT);;
        modifyTop (Frame.set_val2 rhs);;
        ret ReplaceFrame
      else
        match op with
        | BOP_MANIFEST_EQUAL => abort "INTERNAL ERROR: Equals not desugared"
        | BOP_MANIFEST_UNEQUAL =>
            abort "INTERNAL ERROR: Notequals not desugared"
        | _ =>
            if bool_decide (Value_t lhs ≠ Value_t rhs) then
              throw (location a)
                ("Binary operator " +:+ bop_string op +:+ " requires "
                 +:+ "matching types, got " +:+ type_str_value lhs
                 +:+ " and " +:+ type_str_value rhs +:+ ".")
            else
              do v <- binary_same_type (location a) op lhs rhs;
              setScratch v;;
              ret PopFrame
        end
  | _ => undefined
  end.

Definition frame_builtin_filter (f : Frame) : M Jump :=
  match Frame.ast f, Frame.val f, Frame.val2 f with
  | Some (AST_APPLY a _ _ _), FUNCTION func, ARRAY arr =>
      do scr <- getScratch;
      match scr with
      | BOOLEAN b =>
          (if b then
             match arr !! Z.to_nat (Frame.elementId f) with
             | Some el => push_thunk el
             | None => undefined
             end
           else ret tt);;
          let elementId := wrap32 (Frame.elementId f + 1) in
          modifyTop (Frame.set_elementId elementId);;
          (* Iterate through arr, calling the function on each. *)
          if bool_decide (elementId = Z.of_nat (length arr)) then
            do f <- top;
            setScratch (makeArray (Frame.thunks f));;
            ret PopFrame
          else
            match arr !! Z.to_nat elementId, Closure.params func with
            | Some thunk, param :: _ =>
                let bindings :=
                  <[param := thunk]> (Closure.upValues func) in
                newCall (location a) (Some (EClosure func))
                  (Closure.self func) (Closure.offset func) bindings;;
                match Closure.body func with
                | Some body => ret (Recurse body)
                | None => undefined
                end
            | _, _ => undefined
            end
      | _ =>
          throw (location a)
            ("filter function must return boolean, got: "
             +:+ type_str_value scr)
      end
  | _, _, _ => undefined
  end.

(** [args.push_back(th->content)] for every thunk of the frame. *)
Definition thunk_contents (thunks : list nat) : M (list Value) :=
  foldM (fun (args : list Value) (r : nat) =>
           do th <- getThunk r;
           ret (args ++ [Thunk.content th])) [] thunks.

Definition frame_builtin_force_thunks (f : Frame) : M Jump :=
  match Frame.ast f, Frame.val f with
  | Some (AST_APPLY a _ _ _), FUNCTION func =>
      if bool_decide (Frame.elementId f = Z.of_nat (length (Frame.thunks f)))
      then
        (* All thunks forced, now the builtin implementations. *)
        do args <- thunk_contents (Frame.thunks f);
        builtin_call (location a) (Closure.builtin func) args
      else
        match Frame.thunks f !! Z.to_nat (Frame.elementId f) with
        | Some r =>
            modifyTop (Frame.set_elementId (wrap32 (Frame.elementId f + 1)));;
            do th <- getThunk r;
            if negb (Thunk.filled th) then force_thunk (location a) r th
            else ret PopFrame
        | None => undefined
        end
  | _, _ => undefined
  end.

Definition frame_call (f : Frame) : M Jump :=
  match Frame.context f with
  | Some (EThunk thunk) =>
      (* If we called a thunk, cache result. *)
      do scr <- getScratch;
      modifyThunk thunk (Thunk.fill scr);;
      ret PopFrame
  | Some (EClosure closure) =>
      if bool_decide (Frame.elementId f < Z.of_nat (length (Frame.thunks f)))
      then
        (* If tailstrict, force thunks *)
        match Frame.thunks f !! Z.to_nat (Frame.elementId f) with
        | Some r =>
            modifyTop (Frame.set_elementId (wrap32 (Frame.elementId f + 1)));;
            do th <- getThunk r;
            if negb (Thunk.filled th) then force_thunk (Frame.location f) r th
            else ret PopFrame
        | None => undefined
        end
      else if bool_decide (length (Frame.thunks f) = 0%nat) then
        (* Body has now been executed *)
        ret PopFrame
      else
        (* Execute the body *)
        modifyTop (Frame.set_thunks []);;
        modifyTop (Frame.set_elementId 0);;
        match Closure.body closure with
        | Some body => ret (Recurse body)
        | None => undefined
        end
  | _ =>
      (* Result of call is in scratch, just pop. *)
      ret PopFrame
  end.

Definition frame_error (f : Frame) : M Jump :=
  match Frame.ast f with
  | Some (AST_ERROR a _) =>
      do scr <- getScratch;
      match scr with
      | STRING s => throw (location a) (encode_utf8 s)
      | _ =>
          throw (location a)
            ("Error message must be string, got " +:+ type_str_value scr
             +:+ ".")
      end
  | _ => undefined
  end.

Definition frame_if (f : Frame) : M Jump :=
  match Frame.ast f with
  | Some (AST_CONDITIONAL a _ branchTrue branchFalse) =>
      do scr <- getScratch;
      match scr with
      | BOOLEAN b =>
          pop;;
          ret (Recurse (if b then branchTrue else branchFalse))
      | _ =>
          throw (location a)
            ("Condition must be boolean, got " +:+ type_str_value scr
             +:+ ".")
      end
  | _ => undefined
  end.

Definition frame_super_index (f : Frame) : M Jump :=
  match Frame.ast f with
  | Some (AST_SUPER_INDEX a _) =>
      do (self, offset) <- getSelfBinding;
      let offset := wrap32 (offset + 1) in
      if bool_decide (countLeaves_ptr self ≤ offset) then
        throw (location a)
          "Attempt to use super when there is no super class."
      else
        do scr <- getScratch;
        match scr with
        | STRING index_name =>
            let fid := index_name in
            pop;;
            do ast_ <- objectIndex (location a) self fid offset;
            ret (Recurse ast_)
        | _ =>
            throw (location a)
              ("Super index must be string, got " +:+ type_str_value scr
               +:+ ".")
        end
  | _ => undefined
  end.

Definition frame_index_index (f : Frame) : M Jump :=
  match Frame.ast f with
  | Some (AST_INDEX a _ _) =>
      let target := Frame.val f in
      do scr <- getScratch;
      match target with
      | ARRAY array =>
          match scr with
          | DOUBLE d =>
              do i <- lift (double_to_long d);
              let sz := Z.of_nat (length array) in
              if bool_decide (i < 0) || bool_decide (sz ≤ i) then
                throw (location a)
                  ("Array bounds error: " +:+ pretty i
                   +:+ " not within [0, " +:+ pretty sz +:+ ")")
              else
                match array !! Z.to_nat i with
                | Some r =>
                    do thunk <- getThunk r;
                    if Thunk.filled thunk then
                      setScratch (Thunk.content thunk);;
                      ret PopFrame
                    else
                      pop;;
                      force_thunk (location a) r thunk
                | None => undefined
                end
          | _ =>
              throw (location a)
                ("Array index must be number, got " +:+ type_str_value scr
                 +:+ ".")
          end
      | OBJECT obj =>
          match obj with
          | None => abort "assert(obj != nullptr)"
          | Some _ =>
              match scr with
              | STRING index_name =>
                  let fid := index_name in
                  pop;;
                  do ast_ <- objectIndex (location a) obj fid 0;
                  ret (Recurse ast_)
              | _ =>
                  throw (location a)
                    ("Object index must be string, got "
                     +:+ type_str_value scr +:+ ".")
              end
          end
      | STRING value =>
          match scr with
          | DOUBLE d =>
              let sz := Z.of_nat (length value) in
              do i <- lift (double_to_long d);
              if bool_decide (i < 0) || bool_decide (sz ≤ i) then
                throw (location a)
                  ("String bounds error: " +:+ pretty i
                   +:+ " not within [0, " +:+ pretty sz +:+ ")")
              else
                match value !! Z.to_nat i with
                | Some c =>
                    (* [char32_t ch[] = {c, 0}]: a zero code point ends
                       the string at once. *)
                    setScratch
                      (makeString (if bool_decide (c = 0%N) then []
                                   else [c]));;
                    ret PopFrame
                | None => undefined
                end
          | _ =>
              throw (location a)
                ("String index must be a number, got "
                 +:+ type_str_value scr +:+ ".")
          end
      | _ => abort "INTERNAL ERROR: Not object / array / string."
      end
  | _ => undefined
  end.

Definition frame_index_target (f : Frame) : M Jump :=
  match Frame.ast f with
  | Some (AST_INDEX a _ index) =>
      do scr <- getScratch;
      match scr with
      | ARRAY _ | OBJECT _ | STRING _ =>
          modifyTop (Frame.set_val scr);;
          modifyTop (Frame.set_kind FRAME_INDEX_INDEX);;
          let otherwise := ret (Recurse index) in
          match scr with
          | OBJECT self =>
              do executing <-
                gets (fun vm =>
                        Stack.alreadyExecutingInvariants (stack vm) self);
              if negb executing then
                newFrame (Frame.of_loc FRAME_INVARIANTS (location a));;
                modifyTop (Frame.set_self self);;
                objectInvariants_ptr self self 0;;
                do f2 <- top;
                match Frame.thunks f2 with
                | r :: _ =>
                    modifyTop (Frame.set_elementId 1);;
                    do thunk <- getThunk r;
                    force_thunk (location a) r thunk
                | [] => otherwise
                end
              else otherwise
          | _ => otherwise
          end
      | _ =>
          throw (location a)
            ("Can only index objects, strings, and arrays, got "
             +:+ type_str_value scr +:+ ".")
      end
  | _ => undefined
  end.

Definition frame_invariants (initial_stack_size : nat) (f : Frame)
    : M Jump :=
  if bool_decide (Z.of_nat (length (Frame.thunks f)) ≤ Frame.elementId f)
  then
    do sz <- stackSize;
    if bool_decide (sz = S initial_stack_size) then
      (* Just pop, evaluate was invoked by runInvariants. *)
      ret PopFrame
    else
      pop;;
      do f2 <- top;
      match Frame.ast f2 with
      | Some (AST_INDEX _ _ index) => ret (Recurse index)
      | _ => undefined
      end
  else
    match Frame.thunks f !! Z.to_nat (Frame.elementId f) with
    | Some r =>
        modifyTop (Frame.set_elementId (wrap32 (Frame.elementId f + 1)));;
        do thunk <- getThunk r;
        force_thunk (Frame.location f) r thunk
    | None => undefined
    end.

Definition frame_local (f : Frame) : M Jump :=
  (* Result of execution is in scratch already. *)
  ret PopFrame.

Definition frame_object (f : Frame) : M Jump :=
  match Frame.ast f with
  | Some (AST_DESUGARED_OBJECT a asserts fields) =>
      do scr <- getScratch;
      match scr with
      | NULL_TYPE => ret tt
      | STRING fname =>
          let fid := fname in
          if bool_decide (is_Some (Frame.objectFields f !! fid)) then
            throw (location a)
              ("Duplicate field name: " +:+ dquote +:+ encode_utf8 fname
               +:+ dquote)
          else
            match fields !! Frame.fit f with
            | Some fit =>
                modifyTop (fun f =>
                  Frame.set_objectFields
                    (<[fid := {| hide := fit.1.1; body := fit.2 |}]>
                       (Frame.objectFields f)) f)
            | None => undefined
            end
      | _ => throw (location a) "Field name was not a string."
      end;;
      let fit := S (Frame.fit f) in
      modifyTop (Frame.set_fit fit);;
      if bool_decide (fit ≠ length fields) then
        match fields !! fit with
        | Some next => ret (Recurse next.1.2)
        | None => undefined
        end
      else
        do env <- capture (freeVariables a);
        do f <- top;
        do v <- makeSimpleObject env (Frame.objectFields f) asserts;
        setScratch v;;
        ret PopFrame
  | _ => undefined
  end.

Definition frame_object_comp_array (f : Frame) : M Jump :=
  match Frame.ast f with
  | Some (AST_OBJECT_COMPREHENSION_SIMPLE a field value id _) =>
      do scr <- getScratch;
      match scr with
      | ARRAY arr =>
          match arr with
          | [] =>
              (* Degenerate case.  Just create the object now. *)
              do v <- makeComprehensionObject ∅ value id ∅;
              setScratch v;;
              ret PopFrame
          | el :: _ =>
              modifyTop (Frame.set_kind FRAME_OBJECT_COMP_ELEMENT);;
              modifyTop (Frame.set_val scr);;
              modifyTop (fun f =>
                Frame.set_bindings (<[id := el]> (Frame.bindings f)) f);;
              modifyTop (Frame.set_elementId 0);;
              ret (Recurse field)
          end
      | _ =>
          throw (location a)
            ("Object comprehension needs array, got "
             +:+ type_str_value scr)
      end
  | _ => undefined
  end.

Definition frame_object_comp_element (f : Frame) : M Jump :=
  match Frame.ast f, Frame.val f with
  | Some (AST_OBJECT_COMPREHENSION_SIMPLE a field value id _), ARRAY arr =>
      do scr <- getScratch;
      match scr with
      | STRING fname =>
          let fid := fname in
          if bool_decide (is_Some (Frame.elements f !! fid)) then
            throw (location a)
              ("Duplicate field name: " +:+ dquote +:+ encode_utf8 fname
               +:+ dquote)
          else
            match arr !! Z.to_nat (Frame.elementId f) with
            | Some el =>
                modifyTop (fun f =>
                  Frame.set_elements (<[fid := el]> (Frame.elements f)) f);;
                let elementId := wrap32 (Frame.elementId f + 1) in
                modifyTop (Frame.set_elementId elementId);;
                if bool_decide (elementId = Z.of_nat (length arr)) then
                  do env <- capture (freeVariables a);
                  do f <- top;
                  do v <- makeComprehensionObject env value id
                            (Frame.elements f);
                  setScratch v;;
                  ret PopFrame
                else
                  match arr !! Z.to_nat elementId with
                  | Some next =>
                      modifyTop (fun f =>
                        Frame.set_bindings
                          (<[id := next]> (Frame.bindings f)) f);;
                      ret (Recurse field)
                  | None => undefined
                  end
            | None => undefined
            end
      | _ =>
          throw (location a)
            ("field must be string, got: " +:+ type_str_value scr)
      end
  | _, _ => undefined
  end.

(** [toString] is [manifestJson(loc, false, U"")], which re-enters
    the driver; the case takes it as an argument. *)
Definition frame_string_concat (toString : LocationRange → M UString)
    (f : Frame) : M Jump :=
  match Frame.ast f with
  | Some (AST_BINARY a left_ _ right_) =>
      let lhs := Frame.val f in
      let rhs := Frame.val2 f in
      do out_l <-
        match lhs with
        | STRING s => ret s
        | _ => setScratch lhs;; toString (ast_location left_)
        end;
      do out_r <-
        match rhs with
        | STRING s => ret s
        | _ => setScratch rhs;; toString (ast_location right_)
        end;
      setScratch (makeString (out_l ++ out_r));;
      ret PopFrame
  | _ => undefined
  end.

Definition frame_unary (f : Frame) : M Jump :=
  match Frame.ast f with
  | Some (AST_UNARY a op _) =>
      do scr <- getScratch;
      match scr with
      | BOOLEAN b =>
          match op with
          | UOP_NOT => setScratch (makeBoolean (negb b));; ret PopFrame
          | _ =>
              throw (location a)
                ("Unary operator " +:+ uop_string op
                 +:+ " does not operate on booleans.")
          end
      | DOUBLE d =>
          match op with
          | UOP_PLUS => ret PopFrame
          | UOP_MINUS =>
              setScratch (makeDouble (PrimFloat.opp d));; ret PopFrame
          | UOP_BITWISE_NOT =>
              do l <- lift (double_to_long d);
              setScratch (makeDouble (Z_to_double (Z.lnot l)));;
              ret PopFrame
          | _ =>
              throw (location a)
                ("Unary operator " +:+ uop_string op
                 +:+ " does not operate on numbers.")
          end
      | _ =>
          throw (location a)
            ("Unary operator " +:+ uop_string op
             +:+ " does not operate on type " +:+ type_str_value scr)
      end
  | _ => undefined
  end.

(** The second [switch] of [evaluate], on the kind of the top frame. *)
Definition unwind_frame (toString : LocationRange → M UString)
    (initial_stack_size : nat) : M Jump :=
  do f <- top;
  match Frame.kind f with
  | FRAME_APPLY_TARGET => frame_apply_target f
  | FRAME_BINARY_LEFT => frame_binary_left f
  | FRAME_BINARY_RIGHT => frame_binary_right f
  | FRAME_BUILTIN_FILTER => frame_builtin_filter f
  | FRAME_BUILTIN_FORCE_THUNKS => frame_builtin_force_thunks f
  | FRAME_CALL => frame_call f
  | FRAME_ERROR => frame_error f
  | FRAME_IF => frame_if f
  | FRAME_SUPER_INDEX => frame_super_index f
  | FRAME_INDEX_INDEX => frame_index_index f
  | FRAME_INDEX_TARGET => frame_index_target f
  | FRAME_INVARIANTS => frame_invariants initial_stack_size f
  | FRAME_LOCAL => frame_local f
  | FRAME_OBJECT => frame_object f
  | FRAME_OBJECT_COMP_ARRAY => frame_object_comp_array f
  | FRAME_OBJECT_COMP_ELEMENT => frame_object_comp_element f
  | FRAME_STRING_CONCAT => frame_string_concat toString f
  | FRAME_UNARY => frame_unary f
  end.
End Frames.

(** ** The driver and the manifester *)

Section Evaluate.
Context `{Externals}.

Definition newline : UString := [10%N].
Definition uquote : UString := [34%N].

(** The names of the fields to manifest, in the order of
    [std::map<String, const Identifier *>]. *)
Definition sorted_fields (obj : option HeapObject) : list UString :=
  merge_sort (fun a b => Is_true (ustring_leb a b))
    (elements (objectFields_ptr obj true)).

(** The head of the loops over [arr->elements] in [manifestJson] and
    [manifestStream], which the source writes out twice: a call frame
    for the element [thunk] (at address [r]) that keeps the array in
    [val], then either the cached content or the evaluation of the
    body up to that frame. *)
Definition manifest_force (evaluate_ : AST → nat → M unit)
    (loc : LocationRange) (r : nat) (thunk : HeapThunk) : M unit :=
  do scr <- getScratch;
  if Thunk.filled thunk then
    newCall loc (Some (EThunk r)) None 0 ∅;;
    (* Keep arr alive when scratch is overwritten *)
    modifyTop (Frame.set_val scr);;
    setScratch (Thunk.content thunk)
  else
    newCall loc (Some (EThunk r)) (Thunk.self thunk) (Thunk.offset thunk)
      (Thunk.upValues thunk);;
    (* Keep arr alive when scratch is overwritten *)
    modifyTop (Frame.set_val scr);;
    match Thunk.body thunk with
    | Some body =>
        do sz <- stackSize;
        evaluate_ body sz
    | None => undefined
    end.

(** [evaluate(ast_, initial_stack_size)] is [evaluate]; its [while]
    loop is [unwind].  [manifestJson] and [runInvariants] call back into
    [evaluate], natively in the source; all four share the fuel. *)
Fixpoint evaluate (fuel : nat) (ast_ : AST) (initial_stack_size : nat)
    {struct fuel} : M unit :=
  match fuel with
  | O => out_of_fuel
  | S fuel =>
      do next <- eval_ast ast_;
      match next with
      | Goto e => evaluate fuel e initial_stack_size
      | Fall => unwind fuel initial_stack_size
      end
  end

with unwind (fuel : nat) (initial_stack_size : nat) {struct fuel}
    : M unit :=
  match fuel with
  | O => out_of_fuel
  | S fuel =>
      do sz <- stackSize;
      if bool_decide (initial_stack_size < sz)%nat then
        do jump <-
          unwind_frame (fun loc => manifestJson fuel loc false [])
            initial_stack_size;
        match jump with
        | Recurse e => evaluate fuel e initial_stack_size
        | PopFrame => pop;; unwind fuel initial_stack_size
        | ReplaceFrame => unwind fuel initial_stack_size
        end
      else ret tt
  end

with manifestJson (fuel : nat) (loc : LocationRange) (multiline : bool)
    (indent : UString) {struct fuel} : M UString :=
  match fuel with
  | O => out_of_fuel
  | S fuel =>
      do scr <- getScratch;
      match scr with
      | ARRAY arr =>
          match arr with
          | [] => ret (U "[ ]")
          | _ =>
              let prefix := if multiline then U "[" ++ newline else U "[" in
              let indent2 :=
                if multiline then indent ++ U "   " else indent in
              do (ss, _) <-
                foldM (fun (acc : UString * UString) (r : nat) =>
                         let '(ss, prefix) := acc in
                         do thunk <- getThunk r;
                         let tloc :=
                           match Thunk.body thunk with
                           | None => loc
                           | Some body => ast_location body
                           end in
                         manifest_force (evaluate fuel) loc r thunk;;
                         do element <- manifestJson fuel tloc multiline indent2;
                         (* Restore scratch *)
                         do f <- top;
                         setScratch (Frame.val f);;
                         pop;;
                         ret (ss ++ prefix ++ indent2 ++ element,
                              if multiline then U "," ++ newline
                              else U ", "))
                  ([], prefix) arr;
              ret (ss ++ (if multiline then newline else []) ++ indent
                   ++ U "]")
          end
      | BOOLEAN b => ret (if b then U "true" else U "false")
      | DOUBLE d => ret (decode_utf8 (jsonnet_unparse_number d))
      | FUNCTION _ =>
          throw loc "Couldn't manifest function in JSON output."
      | NULL_TYPE => ret (U "null")
      | OBJECT obj =>
          runInvariants fuel loc obj;;
          match sorted_fields obj with
          | [] => ret (U "{ }")
          | fields =>
              let indent2 :=
                if multiline then indent ++ U "   " else indent in
              let prefix := if multiline then U "{" ++ newline else U "{" in
              do (ss, _) <-
                foldM (fun (acc : UString * UString) (f : UString) =>
                         let '(ss, prefix) := acc in
                         (* pushes FRAME_CALL *)
                         do body <- objectIndex loc obj f 0;
                         do scr <- getScratch;
                         modifyTop (Frame.set_val scr);;
                         do sz <- stackSize;
                         evaluate fuel body sz;;
                         do vstr <- manifestJson fuel (ast_location body)
                                      multiline indent2;
                         do top_ <- top;
                         setScratch (Frame.val top_);;
                         pop;;
                         ret (ss ++ prefix ++ indent2 ++ uquote ++ f
                              ++ uquote ++ U ": " ++ vstr,
                              if multiline then U "," ++ newline
                              else U ", "))
                  ([], prefix) fields;
              ret (ss ++ (if multiline then newline else []) ++ indent
                   ++ U "}")
          end
      | STRING str => ret (jsonnet_string_unparse str false)
      end
  end

with runInvariants (fuel : nat) (loc : LocationRange)
    (self : option HeapObject) {struct fuel} : M unit :=
  match fuel with
  | O => out_of_fuel
  | S fuel =>
      do executing <-
        gets (fun vm => Stack.alreadyExecutingInvariants (stack vm) self);
      if executing then ret tt
      else
        newFrame (Frame.of_loc FRAME_INVARIANTS loc);;
        objectInvariants_ptr self self 0;;
        do f <- top;
        match Frame.thunks f with
        | [] => pop
        | r :: _ =>
            do thunk <- getThunk r;
            do initial_stack_size <- stackSize;
            modifyTop (Frame.set_elementId 1);;
            modifyTop (Frame.set_self self);;
            newCall loc (Some (EThunk r)) (Thunk.self thunk)
              (Thunk.offset thunk) (Thunk.upValues thunk);;
            match Thunk.body thunk with
            | Some body => evaluate fuel body initial_stack_size
            | None => undefined
            end
        end
  end.
End Evaluate.

(** ** Entry points *)

Section Execute.
Context `{Externals}.

(** [manifestString(loc)]. *)
Definition manifestString (loc : LocationRange) : M UString :=
  do scr <- getScratch;
  match scr with
  | STRING s => ret s
  | _ =>
      throw loc ("Expected string result, got: " +:+ type_str_value scr)
  end.

(** [manifestMulti(string)]: the map from file names to documents, as
    the list of its entries in key order. *)
Definition manifestMulti (fuel : nat) (string_ : bool)
    : M (list (string * string)) :=
  let loc := LocationRange_msg "During manifestation" in
  do scr <- getScratch;
  match scr with
  | OBJECT obj =>
      runInvariants fuel loc obj;;
      foldM (fun (r : list (string * string)) (f : UString) =>
               (* pushes FRAME_CALL *)
               do body <- objectIndex loc obj f 0;
               do scr <- getScratch;
               modifyTop (Frame.set_val scr);;
               do sz <- stackSize;
               evaluate fuel body sz;;
               do vstr <-
                 (if string_ then manifestString (ast_location body)
                  else manifestJson fuel (ast_location body) true []);
               do top_ <- top;
               setScratch (Frame.val top_);;
               pop;;
               ret (r ++ [(encode_utf8 f, encode_utf8 vstr)]))
        [] (sorted_fields obj)
  | _ =>
      throw loc
        ("Multi mode: Top-level object was a " +:+ type_str_value scr
         +:+ ", " +:+ "should be an object whose keys are filenames and "
         +:+ "values hold " +:+ "the JSON for that file.")
  end.

(** [manifestStream()]. *)
Definition manifestStream (fuel : nat) : M (list string) :=
  let loc := LocationRange_msg "During manifestation" in
  do scr <- getScratch;
  match scr with
  | ARRAY arr =>
      foldM (fun (r : list string) (th : nat) =>
               do thunk <- getThunk th;
               let tloc :=
                 match Thunk.body thunk with
                 | None => loc
                 | Some body => ast_location body
                 end in
               manifest_force (evaluate fuel) loc th thunk;;
               do element <- manifestJson fuel tloc true [];
               do f <- top;
               setScratch (Frame.val f);;
               pop;;
               ret (r ++ [encode_utf8 element]))
        [] arr
  | _ =>
      throw loc
        ("Stream mode: Top-level object was a " +:+ type_str_value scr
         +:+ ", " +:+ "should be an array whose elements hold "
         +:+ "the JSON for each document in the stream.")
  end.


End Execute.

(** ** A concrete instance of the collaborators, for running examples *)

Module Demo.
(** Code points below 256 as bytes, and back. *)
Definition enc (s : UString) : string :=
  String.string_of_list_ascii
    ((fun c => Ascii.ascii_of_nat (N.to_nat c)) <$> s).
Definition dec (s : string) : UString := U s.

Definition type_name (t : ValueType) : string :=
  match t with
  | T_NULL_TYPE => "null"
  | T_BOOLEAN => "boolean"
  | T_DOUBLE => "number"
  | T_STRING => "string"
  | T_ARRAY => "array"
  | T_OBJECT => "object"
  | T_FUNCTION => "function"
  end.

(** Numbers are printed as the truncated integer. *)
Definition unparse_number (d : float) : string :=
  match trunc_double d with
  | Some z => pretty z
  | None => "?"
  end.

#[export] Instance ext : Externals := {|
  encode_utf8 := enc;
  decode_utf8 := dec;
  type_str := type_name;
  bop_string := fun _ => "op";
  uop_string := fun _ => "op";
  jsonnet_builtin_decl_name := fun _ => U "builtin";
  jsonnet_unparse_number := unparse_number;
  jsonnet_string_unparse := fun s _ => uquote ++ s ++ uquote;
  JSONNET_CODEPOINT_MAX := 1114112;
  jsonnet_frontend := fun _ _ => inr "no parser";
  importCallback := fun _ _ => (false, "no such file", "");
  std_pow := fun a _ => a;
  std_floor := fun a => a;
  std_ceil := fun a => a;
  std_sin := fun a => a;
  std_cos := fun a => a;
  std_tan := fun a => a;
  std_asin := fun a => a;
  std_acos := fun a => a;
  std_atan := fun a => a;
  std_log := fun a => a;
  std_exp := fun a => a;
  std_frexp := fun a => (a, 0);
  std_fmod := fun a _ => a;
  Identifier_address := fun id => Z.of_nat (length id)
|}.

Definition loc0 : LocationRange := LocationRange_msg "demo".
Definition at0 (fv : list UString) : Attr :=
  {| location := loc0; freeVariables := fv |}.
Definition num (z : Z) : AST := AST_LITERAL_NUMBER (at0 []) (Z_to_double z).
Definition str (s : string) : AST := AST_LITERAL_STRING (at0 []) (U s).
End Demo.

(** * Notions the properties are stated with *)

(** ** The stack *)

(** The number of call frames in a vector of frames. *)
Fixpoint count_calls (l : list Frame) : nat :=
  match l with
  | [] => 0
  | f :: l => ((if Frame.isCall f then 1 else 0) + count_calls l)%nat
  end.

(** The consistency of [calls] with the frames, and the depth limit. *)
Definition Stack_wf (s : Stack) : Prop :=
  Stack.calls s = Z.of_nat (count_calls (Stack.stack s))
  ∧ Stack.calls s ≤ Stack.limit s
  ∧ Stack.limit s < 2 ^ 32.

(** A call frame that [tailCallTrimStack] removes. *)
Definition trimmable (f : Frame) : bool :=
  Frame.isCall f && Frame.tailCall f
  && bool_decide (Frame.thunks f = []).

(** The frame [newCall] pushes. *)
Definition call_frame (loc : LocationRange) (context : option HeapEntity)
    (self : option HeapObject) (offset : Z) (up_values : BindingFrame)
    : Frame :=
  Frame.set_tailCall false
    (Frame.set_bindings up_values
       (Frame.set_offset offset
          (Frame.set_self self
             (Frame.set_context context (Frame.of_loc FRAME_CALL loc))))).

Section Reachable.
Context `{Externals}.

(** The stack states the VM goes through: it starts from [Stack(limit)]
    and only ever pushes frames of another kind than [CALL] with
    [newFrame], pops, opens calls with [newCall], and assigns to members
    of the top frame without turning a frame into or out of a call
    frame. *)
Inductive reachable : Stack → Prop :=
| reach_make limit :
    0 ≤ limit < 2 ^ 32 → reachable (Stack.make limit)
| reach_newFrame f s :
    Frame.kind f ≠ FRAME_CALL → reachable s → reachable (Stack.newFrame f s)
| reach_pop s s' :
    Stack.pop s = Some s' → reachable s → reachable s'
| reach_newCall heap loc context self offset up s s' :
    Stack_newCall heap loc context self offset up s = OK s' →
    reachable s → reachable s'
| reach_assign g f below s :
    Stack.stack s = f :: below →
    Frame.isCall (g f) = Frame.isCall f →
    reachable s → reachable (Stack.set_stack (g f :: below) s).
End Reachable.

(** ** Objects *)

(** The leaves of the prototype tree in the order the traversals visit
    them: the right subtree before the left one. *)
Fixpoint leaves (obj : HeapObject) : list HeapObject :=
  match obj with
  | HeapExtendedObject _ left_ right_ => leaves right_ ++ leaves left_
  | _ => [obj]
  end.


(** The leaf has an entry for [f] in its field map. *)
Definition has_field (f : Identifier) (leaf : HeapObject) : bool :=
  match leaf with
  | HeapSimpleObject _ _ fields _ => bool_decide (is_Some (fields !! f))
  | HeapComprehensionObject _ _ _ _ compValues =>
      bool_decide (is_Some (compValues !! f))
  | HeapExtendedObject _ _ _ => false
  end.

(** [leaf], at position [i] of [ls], is the first leaf at or after
    position [k] that has the field [f]. *)
Definition selected (f : Identifier) (k : Z) (ls : list HeapObject)
    (leaf : HeapObject) (i : nat) : Prop :=
  ls !! i = Some leaf
  ∧ k ≤ Z.of_nat i
  ∧ has_field f leaf = true
  ∧ ∀ (j : nat) leaf', (j < i)%nat → k ≤ Z.of_nat j → ls !! j = Some leaf' →
      has_field f leaf' = false.

(** No leaf at or after position [k] has the field [f]. *)
Definition not_found (f : Identifier) (k : Z) (ls : list HeapObject) : Prop :=
  ∀ (j : nat) leaf', k ≤ Z.of_nat j → ls !! j = Some leaf' →
    has_field f leaf' = false.

(** The search of [findObject], on the list of leaves. *)
Fixpoint scan (f : Identifier) (k : Z) (ls : list HeapObject) (c : Z)
    : option (HeapObject * Z) :=
  match ls with
  | [] => None
  | leaf :: ls =>
      if bool_decide (k ≤ c) && has_field f leaf then Some (leaf, c)
      else scan f k ls (c + 1)
  end.

(** The bindings of the call frame of a field of [leaf]. *)
Definition leaf_bindings (f : Identifier) (leaf : HeapObject) : BindingFrame :=
  match leaf with
  | HeapSimpleObject _ upValues _ _ => upValues
  | HeapComprehensionObject _ upValues _ id compValues =>
      match compValues !! f with
      | Some th => <[id := th]> upValues
      | None => upValues
      end
  | HeapExtendedObject _ _ _ => ∅
  end.

(** The expression [objectIndex] returns for the field [f] of [leaf]. *)
Definition leaf_body (f : Identifier) (leaf : HeapObject) : option AST :=
  match leaf with
  | HeapSimpleObject _ _ fields _ => body <$> fields !! f
  | HeapComprehensionObject _ _ value _ compValues =>
      (fun _ => value) <$> compValues !! f
  | HeapExtendedObject _ _ _ => None
  end.

(** The stack once a call frame is pushed on it. *)
Definition open_call (fr : Frame) (s : Stack) : Stack :=
  Stack.set_calls (wrap32 (Stack.calls s + 1)) (Stack.newFrame fr s).

(** The rule of the merge: the hide of the right side, unless it is
    [INHERIT] and the left side has the field. *)
Definition merge_hide (right_ left_ : option Hide) : option Hide :=
  match right_, left_ with
  | None, l => l
  | Some INHERIT, Some h => Some h
  | Some h, _ => Some h
  end.

(** The hide kinds [objectFields] collects from [obj] when manifesting. *)
Definition hides (obj : HeapObject) : IdHideMap :=
  (objectFields_rec obj 0 0 true).1.

(** The text [manifestJson] builds for an object out of the names of
    its entries and the texts of their values. *)
Definition object_text (multiline : bool) (indent : UString)
    (entries : list (UString * UString)) : UString :=
  match entries with
  | [] => U "{ }"
  | _ =>
      let indent2 := if multiline then indent ++ U "   " else indent in
      let prefix := if multiline then U "{" ++ newline else U "{" in
      (foldl (fun (acc : UString * UString) (entry : UString * UString) =>
                (acc.1 ++ acc.2 ++ indent2 ++ uquote ++ entry.1 ++ uquote
                 ++ U ": " ++ entry.2,
                 if multiline then U "," ++ newline else U ", "))
         ([], prefix) entries).1
      ++ (if multiline then newline else []) ++ indent ++ U "}"
  end.

Section AsStated.
Context `{Externals}.

(** C1 as the claim words it: whenever a leaf is selected, a call
    frame is pushed whose bindings are the up-values of that leaf. *)
Definition C1_as_stated : Prop :=
  ∀ loc (obj : HeapObject) (f : Identifier) (k : Z) (vm : Interpreter)
    leaf (i : nat),
    Z.of_nat (length (leaves obj)) < 2 ^ 32 →
    selected f k (leaves obj) leaf i →
    ∃ body vm' fr,
      objectIndex loc (Some obj) f k vm = OK (body, vm')
      ∧ head (frames vm') = Some fr
      ∧ Frame.kind fr = FRAME_CALL
      ∧ Frame.self fr = Some obj
      ∧ Frame.offset fr = Z.of_nat i
      ∧ Frame.bindings fr = leaf_upValues leaf.

End AsStated.

(** ** The monad *)

(** Partial correctness: when [m] runs from a state satisfying [P] and
    ends normally, the result and the state satisfy [Q]. *)
Definition hoare {A} (P : Interpreter → Prop) (m : M A)
    (Q : A → Interpreter → Prop) : Prop :=
  ∀ vm, P vm → match m vm with OK (a, vm') => Q a vm' | _ => True end.

(** ** Numbers *)



Section RawNumbers.
Context `{Externals}.

End RawNumbers.

(** ** Concrete inputs *)

Module StackExample.
Import Demo.

Definition local_frame : Frame := Frame.of_loc FRAME_LOCAL loc0.
Definition tail_frame : Frame :=
  Frame.set_tailCall true (Frame.of_loc FRAME_CALL loc0).
Definition s0 : Stack :=
  {| Stack.calls := 1; Stack.limit := 10;
     Stack.stack := [local_frame; tail_frame]; Stack.low_water := 0 |}.

(** A stack of limit 2 on which two calls are open: it is full. *)
Definition call_on (s : Stack) : Stack :=
  match Stack_newCall [] loc0 None None 0 ∅ s with
  | OK s' => s'
  | _ => s
  end.
Definition deep : Stack := call_on (call_on (Stack.make 2)).
End StackExample.

Module ObjectExample.
Import Demo.

(** [{ [x]: x for x in ["f"] }], whose loop variable is [x] and whose
    one field [f] is bound to the thunk at address 0. *)
Definition comp : HeapObject :=
  HeapComprehensionObject 0 ∅ (AST_VAR (at0 [U "x"]) (U "x")) (U "x")
    {[ U "f" := 0%nat ]}.

(** [{ a: 1 } + { a: 2, b: 3 }]. *)
Definition base : HeapObject :=
  HeapSimpleObject 0 ∅ {[ U "a" := {| hide := INHERIT; body := num 1 |} ]} [].
Definition derived : HeapObject :=
  HeapSimpleObject 1 ∅
    {[ U "a" := {| hide := HIDDEN; body := num 2 |};
       U "b" := {| hide := INHERIT; body := num 3 |} ]} [].
Definition both : HeapObject := HeapExtendedObject 2 base derived.

Definition vm0 : Interpreter := Interpreter_make ∅ 10.

(** [both] in the scratch register, to be manifested. *)
Definition vm_both : Interpreter := set_scratch (OBJECT (Some both)) vm0.
End ObjectExample.

Module SuperExample.
Import Demo ObjectExample.

(** [super["a"]] evaluated in a field of [both] reached at offset 0. *)
Definition super_frame : Frame :=
  Frame.of_ast FRAME_SUPER_INDEX (AST_SUPER_INDEX (at0 []) (str "a")).
Definition vm1 : Interpreter :=
  set_scratch (STRING (U "a"))
    (set_stack
       {| Stack.calls := 1; Stack.limit := 10;
          Stack.stack := [super_frame;
                          call_frame loc0 None (Some both) 0 ∅];
          Stack.low_water := 0 |} vm0).

End SuperExample.

(** * The driver, the thunks and the fuel: what the theorems speak of *)

(** ** The stack discipline of the driver *)

(** [m] leaves one member of the interpreter alone. *)
Definition preserves {X A} (proj : Interpreter → X) (m : M A) : Prop :=
  ∀ vm, match m vm with OK (_, vm') => proj vm' = proj vm | _ => True end.

(** The stack, or the thunks of the heap. *)
Abbreviation neutral := (preserves stack).
Abbreviation heap_neutral := (preserves heap_thunks).

(** A member that no write to the scratch register, to the counter of
    addresses or to the import cache reaches. *)
Class Untouched {X} (proj : Interpreter → X) : Prop := {
  untouched_scratch v vm : proj (set_scratch v vm) = proj vm;
  untouched_heap_next n vm : proj (set_heap_next n vm) = proj vm;
  untouched_cachedImports c vm : proj (set_cachedImports c vm) = proj vm
}.

(** A frame at which [tailCallTrimStack] stops without removing
    anything. *)
Definition blocking (f : Frame) : Prop :=
  Frame.kind f ≠ FRAME_LOCAL ∧ trimmable f = false.

(** A frame that stays [blocking] whatever is assigned to its members
    other than [kind] and [tailCall]. *)
Definition solid (f : Frame) : Prop :=
  Frame.kind f ≠ FRAME_LOCAL
  ∧ (Frame.kind f = FRAME_CALL → Frame.tailCall f = false).

Definition top_blocks (l : list Frame) : Prop :=
  match l with [] => True | f :: _ => blocking f end.

Definition top_solid (l : list Frame) : Prop :=
  match l with [] => True | f :: _ => solid f end.

(** What is asked of the frames above the base: nothing while the driver
    runs, [solid] between the steps of the manifester. *)
Definition upper_ok (strict : bool) (f : Frame) : Prop :=
  if strict then solid f else True.

(** The frames [below] are at the bottom of the stack, untouched, with at
    least [k] frames above them, and the stack never held fewer than [b]
    frames. *)
Definition GInv (strict : bool) (below : list Frame) (b k : nat)
    (vm : Interpreter) : Prop :=
  ∃ upper, frames vm = upper ++ below
    ∧ (k ≤ length upper)%nat
    ∧ Forall (upper_ok strict) upper
    ∧ (b ≤ Stack.low_water (stack vm))%nat.

Abbreviation SInv := (GInv false).
Abbreviation MInv := (GInv true).

(** What a case of the second switch leaves for the driver: a frame to
    pop when it says [PopFrame]. *)
Definition after_case (below : list Frame) (b : nat) (j : Jump)
    (vm : Interpreter) : Prop :=
  match j with
  | PopFrame => SInv below b 1 vm
  | _ => SInv below b 0 vm
  end.

(** The stack is exactly [l], and never held fewer than [b] frames. *)
Definition stack_is (l : list Frame) (b : nat) (vm : Interpreter) : Prop :=
  frames vm = l ∧ (b ≤ Stack.low_water (stack vm))%nat.

Section DriverSpec.
Context `{Externals}.

(** What the induction on the fuel carries for the four functions. *)
Definition evaluate_ok (fuel : nat) : Prop :=
  ∀ below b e, top_blocks below → (b ≤ length below)%nat →
    hoare (SInv below b 0) (evaluate fuel e (length below))
      (fun _ => stack_is below b).

Definition unwind_ok (fuel : nat) : Prop :=
  ∀ below b, top_blocks below → (b ≤ length below)%nat →
    hoare (SInv below b 0) (unwind fuel (length below))
      (fun _ => stack_is below b).

Definition manifestJson_ok (fuel : nat) : Prop :=
  ∀ S0 b loc multiline indent, top_solid S0 → (b ≤ length S0)%nat →
    hoare (MInv S0 b 0) (manifestJson fuel loc multiline indent)
      (fun _ => MInv S0 b 0).

Definition runInvariants_ok (fuel : nat) : Prop :=
  ∀ S0 b loc self, top_solid S0 → (b ≤ length S0)%nat →
    hoare (MInv S0 b 0) (runInvariants fuel loc self)
      (fun _ => MInv S0 b 0).
End DriverSpec.

(** ** The stack across a call of [evaluate] *)

(** Ghost: observe the low-water mark of the stack from now on. *)
Definition watch (vm : Interpreter) : Interpreter :=
  set_stack (Stack.reset_low (stack vm)) vm.


Module DriverExample.
Import Demo.

Definition base_frame : Frame := call_frame loc0 None None 0 ∅.
Definition vm2 : Interpreter :=
  set_stack
    {| Stack.calls := 1; Stack.limit := 10; Stack.stack := [base_frame];
       Stack.low_water := 0 |} (Interpreter_make ∅ 10).
End DriverExample.

(** ** Thunks *)

(** Every thunk of [vm] is still there in [vm'], filled or not as it
    was, with the content it had. *)
Definition thunks_kept (vm vm' : Interpreter) : Prop :=
  ∀ r th, heap_thunks vm !! r = Some th →
    ∃ th', heap_thunks vm' !! r = Some th'
      ∧ Thunk.filled th' = Thunk.filled th
      ∧ Thunk.content th' = Thunk.content th.

(** [m] neither fills nor overwrites a thunk that exists when it
    starts. *)
Definition keeps_thunks {A} (m : M A) : Prop :=
  ∀ vm, match m vm with OK (_, vm') => thunks_kept vm vm' | _ => True end.

Section ThunksAsStated.
Context `{Externals}.


(** "Exactly once" as the claim words it, for a thunk the driver
    forces: while the force runs, from the push of the call frame whose
    context is the thunk to the pop that fills it, nothing else fills
    the thunk. *)
Definition C7_once_as_stated : Prop :=
  ∀ fuel body vm vm' r f th,
    Stack.top (stack vm) = Some f →
    Frame.kind f = FRAME_CALL →
    Frame.context f = Some (EThunk r) →
    heap_thunks vm !! r = Some th →
    Thunk.filled th = false →
    Thunk.body th = Some body →
    evaluate fuel body (Stack.size (stack vm)) vm = OK (tt, vm') →
    ∃ th', heap_thunks vm' !! r = Some th' ∧ Thunk.filled th' = false.
End ThunksAsStated.

Module ThunkExample.
Import Demo.

(** The array [[1]] in the scratch register, its element not yet
    forced. *)
Definition element : HeapThunk := Thunk.make idArrayElement None 0 (Some (num 1)).
Definition vm3 : Interpreter :=
  set_scratch (ARRAY [0%nat])
    (set_heap_thunks [element] (Interpreter_make ∅ 10)).

(** The frame of a call that forced the thunk at address 0, about to
    be popped with the result in the scratch register. *)
Definition thunk_frame : Frame := call_frame loc0 (Some (EThunk 0)) None 0 ∅.
Definition vm4 : Interpreter :=
  set_scratch (DOUBLE (Z_to_double 1))
    (set_stack (open_call thunk_frame (Stack.make 10))
       (set_heap_thunks [element] (Interpreter_make ∅ 10))).

(** [local obj = { assert x, f: 1 }, x = obj.f; x]: the invariant of
    [obj] reads [x] while [x] is being forced. *)
Definition obj_lit : AST :=
  AST_DESUGARED_OBJECT (at0 [U "x"]) [AST_VAR (at0 [U "x"]) (U "x")]
    [((INHERIT, str "f"), num 1)].
Definition body_x : AST :=
  AST_INDEX (at0 [U "obj"]) (AST_VAR (at0 [U "obj"]) (U "obj")) (str "f").
Definition var_x : AST := AST_VAR (at0 [U "x"]) (U "x").
Definition twice : AST :=
  AST_LOCAL (at0 []) [(U "obj", obj_lit); (U "x", body_x)] var_x.

(** The state of the run of [twice] once [x] is forced: after the first
    switch on [twice] and on its body [x], the call frame of the thunk
    of [x] (at address 1) is on top and the driver goes on with
    [obj.f]. *)
Definition forcing : Interpreter :=
  match (eval_ast twice;; eval_ast var_x) (Interpreter_make ∅ 10) with
  | OK (_, vm) => vm
  | _ => Interpreter_make ∅ 10
  end.
End ThunkExample.

(** ** Two runs *)


(** * Further definitions

    What the theorems on the rest of the interpreter are stated with:
    the rounds of the loops of the builtins, the thunks they build, the
    two other entry points, and the examples the theorems are applied
    to. *)

(** ** Paths and scopes *)

(** The slash of a path. *)
Definition slash : Ascii.ascii := Ascii.ascii_of_nat 47.

(** The string holds no slash. *)
Fixpoint slash_free (s : string) : Prop :=
  match s with
  | EmptyString => True
  | String c rest => c ≠ slash ∧ slash_free rest
  end.

(** The frame neither binds [id] nor is the frame of a call. *)
Definition transparent (id : Identifier) (f : Frame) : Prop :=
  Frame.bindings f !! id = None ∧ Frame.isCall f = false.

(** The call frames of a stack, top first. *)
Definition call_frames (l : list Frame) : list Frame :=
  filter (fun f => Frame.isCall f = true) l.

(** ** Fields *)

(** The order of [std::u32string], as propositions. *)
Definition ustring_lt (a b : UString) : Prop := Is_true (ustring_ltb a b).
Definition ustring_le (a b : UString) : Prop := Is_true (ustring_leb a b).

(** The names [objectFields] collects from [obj], with their hide kinds
    or all taken as visible. *)
Definition hides_when (manifesting : bool) (obj : HeapObject) : IdHideMap :=
  (objectFields_rec obj 0 0 manifesting).1.

(** The thunk [objectFieldsEx] makes for a name: an array element that
    is filled with the name. *)
Definition name_thunk (f : UString) : HeapThunk :=
  Thunk.fill (STRING f) (Thunk.make idArrayElement None 0 None).

(** The names [objectFieldsEx] returns. *)
Definition field_names (obj : option HeapObject) (include_hidden : bool)
    : list UString :=
  merge_sort (fun a b => Is_true (ustring_leb a b))
    (elements (objectFields_ptr obj (negb include_hidden))).

Section FieldNamesRound.
Context `{Externals}.

(** One round of the loop of [objectFieldsEx]. *)
Definition push_name (field : UString) : M unit :=
  do th <- makeThunk idArrayElement None 0 None;
  do scr <- getScratch;
  match scr with
  | ARRAY elements => setScratch (ARRAY (elements ++ [th]))
  | _ => undefined
  end;;
  modifyThunk th (Thunk.fill (makeString field)).
End FieldNamesRound.

(** ** Arrays *)

(** The thunk [makeArray] builds for an element: the body of the
    function, with the function's environment extended by its parameter,
    bound to the thunk [el]. *)
Definition element_thunk (func : HeapClosure) (param : Identifier)
    (el : nat) : HeapThunk :=
  Thunk.set_upValues (<[param := el]> (Closure.upValues func))
    (Thunk.make idArrayElement (Closure.self func) (Closure.offset func)
       (Closure.body func)).

(** The thunk [makeArray] builds for an index: filled with the number. *)
Definition index_thunk (param : Identifier) (i : nat) : HeapThunk :=
  Thunk.fill (DOUBLE (Z_to_double (Z.of_nat i))) (Thunk.make param None 0 None).

(** The thunks [makeArray] adds to a heap of [base] thunks for the
    indices [l], and the addresses of the elements among them. *)
Fixpoint array_thunks (func : HeapClosure) (param : Identifier)
    (base : nat) (l : list nat) : list HeapThunk :=
  match l with
  | [] => []
  | i :: l =>
      element_thunk func param (S base) :: index_thunk param i
      :: array_thunks func param (S (S base)) l
  end.
Fixpoint array_elements (base : nat) (l : list nat) : list nat :=
  match l with
  | [] => []
  | _ :: l => base :: array_elements (S (S base)) l
  end.

Section MakeArrayRound.
Context `{Externals}.

(** One round of the loop of [makeArray]. *)
Definition makeArray_round (func : HeapClosure) (param : Identifier)
    (elements : list nat) (i : nat) : M (list nat) :=
  do th <- makeThunk idArrayElement (Closure.self func)
             (Closure.offset func) (Closure.body func);
  modifyTop (fun f => Frame.set_thunks (Frame.thunks f ++ [th]) f);;
  modifyThunk th (Thunk.set_upValues (Closure.upValues func));;
  do el <- makeThunk param None 0 None;
  modifyThunk el (Thunk.fill (makeDouble (Z_to_double (Z.of_nat i))));;
  modifyThunk th (fun t =>
    Thunk.set_upValues (<[param := el]> (Thunk.upValues t)) t);;
  ret (elements ++ [th]).
End MakeArrayRound.

(** The environment [capture] builds on the stack [s] for the free
    variables [fvs]. *)
Definition captured (s : Stack) (fvs : list Identifier) : BindingFrame :=
  foldl (fun (env : BindingFrame) fv =>
           match Stack.lookUpVar s fv with
           | Some th => <[fv := th]> env
           | None => env
           end) ∅ fvs.

(** The thunk an array literal makes for its element [el]. *)
Definition literal_element (s : Stack) (el : AST) : HeapThunk :=
  Thunk.set_upValues (captured s (ast_freeVariables el))
    (Thunk.make idArrayElement (Stack.getSelfBinding s).1
       (Stack.getSelfBinding s).2 (Some el)).

Section ArrayRound.
Context `{Externals}.

(** One round of the loop of [case AST_ARRAY]. *)
Definition push_element (self : option HeapObject) (offset : Z)
    (el : AST) : M unit :=
  do el_th <- makeThunk idArrayElement self offset (Some el);
  do up <- capture (ast_freeVariables el);
  modifyThunk el_th (Thunk.set_upValues up);;
  scratch_push_back el_th.
End ArrayRound.

(** ** Local variables *)

(** The bindings the first loop of [case AST_LOCAL] adds to [env] for
    the variables of [binds], the first of which gets the thunk at
    address [base]. *)
Fixpoint bind_thunks (base : nat) (binds : list (Identifier * AST))
    (env : BindingFrame) : BindingFrame :=
  match binds with
  | [] => env
  | b :: binds => bind_thunks (S base) binds (<[b.1 := base]> env)
  end.

(** The thunk of a local variable as the first loop makes it, and as the
    second loop leaves it on the stack [s]. *)
Definition raw_thunk (self : option HeapObject) (offset : Z)
    (b : Identifier * AST) : HeapThunk :=
  Thunk.make b.1 self offset (Some b.2).
Definition bound_thunk (s : Stack) (self : option HeapObject) (offset : Z)
    (b : Identifier * AST) : HeapThunk :=
  Thunk.set_upValues (captured s (ast_freeVariables b.2))
    (raw_thunk self offset b).

Section LocalRounds.
Context `{Externals}.

(** One round of each of the two loops of [case AST_LOCAL]. *)
Definition bind_round (self : option HeapObject) (offset : Z)
    (bind : Identifier * AST) : M unit :=
  do th <- makeThunk bind.1 self offset (Some bind.2);
  modifyTop (fun f =>
    Frame.set_bindings (<[bind.1 := th]> (Frame.bindings f)) f).
Definition capture_round (bind : Identifier * AST) : M unit :=
  do f <- top;
  match Frame.bindings f !! bind.1 with
  | Some thunk =>
      do up <- capture (ast_freeVariables bind.2);
      modifyThunk thunk (Thunk.set_upValues up)
  | None => undefined
  end.
End LocalRounds.

(** ** Invariants *)

(** The assertions of a leaf. *)
Definition leaf_asserts (leaf : HeapObject) : list AST :=
  match leaf with
  | HeapSimpleObject _ _ _ asserts => asserts
  | _ => []
  end.

(** The thunk [objectInvariants] makes for an assertion of a leaf with
    the environment [up], found at position [offset]. *)
Definition invariant_thunk (self : option HeapObject) (up : BindingFrame)
    (offset : Z) (assert : AST) : HeapThunk :=
  Thunk.set_upValues up (Thunk.make idInvariant self offset (Some assert)).

(** The thunks of the assertions of the leaves [ls], the first of which
    is at position [counter]. *)
Fixpoint invariant_thunks (self : option HeapObject) (counter : Z)
    (ls : list HeapObject) : list HeapThunk :=
  match ls with
  | [] => []
  | leaf :: ls =>
      (invariant_thunk self (leaf_upValues leaf) counter <$> leaf_asserts leaf)
      ++ invariant_thunks self (counter + 1) ls
  end.

Section InvariantRound.
Context `{Externals}.

(** One round of the loop of [objectInvariants]. *)
Definition push_invariant (self : option HeapObject) (up : BindingFrame)
    (counter : Z) (assert : AST) : M unit :=
  do el_th <- makeThunk idInvariant self counter (Some assert);
  modifyThunk el_th (Thunk.set_upValues up);;
  modifyTop (fun f => Frame.set_thunks (Frame.thunks f ++ [el_th]) f).
End InvariantRound.

(** A frame of the stack marks the invariants of [self] as running. *)
Definition runs_invariants (self : option HeapObject) (f : Frame) : Prop :=
  Frame.kind f = FRAME_INVARIANTS
  ∧ Stack.same_object (Frame.self f) self = true.

(** Two states of the interpreter that differ at most in the top frame's
    list of thunks. *)
Definition same_but_thunks (vm vm' : Interpreter) : Prop :=
  scratch vm' = scratch vm
  ∧ heap_next vm' = heap_next vm
  ∧ cachedImports vm' = cachedImports vm
  ∧ externalVars vm' = externalVars vm
  ∧ Stack.calls (stack vm') = Stack.calls (stack vm)
  ∧ Stack.limit (stack vm') = Stack.limit (stack vm)
  ∧ tail (frames vm') = tail (frames vm)
  ∧ ∃ f f', head (frames vm) = Some f ∧ head (frames vm') = Some f'
      ∧ Frame.set_thunks [] f' = Frame.set_thunks [] f.

(** ** Builtins *)

(** The parameter types a builtin passes to [validateBuiltinArgs];
    [type] (11), [length] (14) and [primitiveEquals] (24) check their
    arguments themselves. *)
Definition builtin_signature (builtin : Z) : option (list ValueType) :=
  match builtin with
  | 0 => Some [T_DOUBLE; T_FUNCTION]
  | 1 | 22 => Some [T_DOUBLE; T_DOUBLE]
  | 2 | 3 | 4 | 5 | 6 | 7 | 8 | 9 | 10 | 17 | 18 | 19 | 20 | 21 =>
      Some [T_DOUBLE]
  | 12 => Some [T_FUNCTION; T_ARRAY]
  | 13 => Some [T_OBJECT; T_STRING; T_BOOLEAN]
  | 15 => Some [T_OBJECT; T_BOOLEAN]
  | 16 | 23 => Some [T_STRING]
  | _ => None
  end.

(** ** The entry points for several documents *)

Section ExecuteMore.
Context `{Externals}.

(** What an entry point returns of a run on a fresh interpreter: the
    result, or the exception that left it. *)
Definition run_fresh {A} (m : M A) (ext_vars : gmap string VmExt)
    (max_stack : Z) : Result A :=
  match m (Interpreter_make ext_vars max_stack) with
  | OK (a, _) => OK a
  | Throw e => Throw e
  | ThrowStatic w => ThrowStatic w
  | Abort w => Abort w
  | Undefined => Undefined
  | OutOfFuel => OutOfFuel
  end.

(** [jsonnet_vm_execute_multi(alloc, ast, ext_vars, max_stack,
    gc_min_objects, gc_growth_trigger, import_callback, ctx,
    string_output)]. *)
Definition jsonnet_vm_execute_multi (fuel : nat) (ast_ : AST)
    (ext_vars : gmap string VmExt) (max_stack : Z) (string_output : bool)
    : Result (list (string * string)) :=
  run_fresh (evaluate fuel ast_ 0;; manifestMulti fuel string_output)
    ext_vars max_stack.

(** [jsonnet_vm_execute_stream(alloc, ast, ext_vars, max_stack,
    gc_min_objects, gc_growth_trigger, import_callback, ctx)]. *)
Definition jsonnet_vm_execute_stream (fuel : nat) (ast_ : AST)
    (ext_vars : gmap string VmExt) (max_stack : Z)
    : Result (list string) :=
  run_fresh (evaluate fuel ast_ 0;; manifestStream fuel)
    ext_vars max_stack.
End ExecuteMore.

Module StreamExample.
Import Demo.

(** [[1, 2]] and [{ "b.json": 2, h:: 0, "a.json": 1 }]. *)
Definition docs : AST := AST_ARRAY (at0 []) [num 1; num 2].
Definition files : AST :=
  AST_DESUGARED_OBJECT (at0 []) []
    [(VISIBLE, str "b.json", num 2); (HIDDEN, str "h", num 0);
     (VISIBLE, str "a.json", num 1)].
Definition after (ast_ : AST) : Interpreter :=
  match evaluate 50 ast_ 0 (Interpreter_make ∅ 10) with
  | OK (_, vm') => vm'
  | _ => Interpreter_make ∅ 10
  end.
End StreamExample.

(** ** Indexing *)

(** The string [makeString(ch)] builds from [ch[] = {c, 0}]. *)
Definition one_char (c : N) : UString :=
  if bool_decide (c = 0%N) then [] else [c].

Module IndexExample.
Import Demo.

(** The frame of ["ab"[1]], its index evaluated. *)
Definition string_frame : Frame :=
  Frame.set_val (STRING (U "ab"))
    (Frame.of_ast FRAME_INDEX_INDEX (AST_INDEX (at0 []) (str "ab") (num 1))).
Definition vm5 : Interpreter :=
  set_scratch (DOUBLE (Z_to_double 1)) (Interpreter_make ∅ 10).
End IndexExample.

(** ** Examples *)

Module FieldsExample.
Import Demo.

(** [{ b: 1, a: 2 }] in the scratch register, to be manifested. *)
Definition two : HeapObject :=
  HeapSimpleObject 0 ∅
    {[ U "b" := {| hide := INHERIT; body := num 1 |};
       U "a" := {| hide := INHERIT; body := num 2 |} ]} [].
Definition vm_two : Interpreter :=
  set_scratch (OBJECT (Some two)) (Interpreter_make ∅ 10).
End FieldsExample.

Module LocalExample.
Import Demo.

(** [local x = y, y = 1; x]. *)
Definition mutual : AST :=
  AST_LOCAL (at0 [])
    [(U "x", AST_VAR (at0 [U "y"]) (U "y")); (U "y", num 1)]
    (AST_VAR (at0 [U "x"]) (U "x")).
End LocalExample.

Module ImportExample.
Import Demo.

(** Collaborators whose import callback finds every file. *)
Definition found : Externals := {|
  encode_utf8 := enc;
  decode_utf8 := dec;
  type_str := type_name;
  bop_string := fun _ => "op";
  uop_string := fun _ => "op";
  jsonnet_builtin_decl_name := fun _ => U "builtin";
  jsonnet_unparse_number := unparse_number;
  jsonnet_string_unparse := fun s _ => uquote ++ s ++ uquote;
  JSONNET_CODEPOINT_MAX := 1114112;
  jsonnet_frontend := fun _ _ => inr "no parser";
  importCallback := fun dir path => (true, "{ }", dir +:+ path);
  std_pow := fun a _ => a;
  std_floor := fun a => a;
  std_ceil := fun a => a;
  std_sin := fun a => a;
  std_cos := fun a => a;
  std_tan := fun a => a;
  std_asin := fun a => a;
  std_acos := fun a => a;
  std_atan := fun a => a;
  std_log := fun a => a;
  std_exp := fun a => a;
  std_frexp := fun a => (a, 0);
  std_fmod := fun a _ => a;
  Identifier_address := fun id => Z.of_nat (length id)
|}.

Definition here : LocationRange := LocationRange_msg "lib/main.jsonnet".
Definition there : LocationRange := LocationRange_msg "lib/other.jsonnet".
Definition vm0 : Interpreter := Interpreter_make ∅ 10.
End ImportExample.

Module ExtraExample.
Import Demo.

(** A [LOCAL] frame that binds [y] above a call frame that binds [x]. *)
Definition inner : Frame :=
  Frame.set_bindings {[ U "y" := 1%nat ]} (Frame.of_loc FRAME_LOCAL loc0).
Definition outer : Frame := call_frame loc0 None None 0 {[ U "x" := 0%nat ]}.

(** [function(i) i]. *)
Definition identity : HeapClosure :=
  {| Closure.addr := 0; Closure.upValues := ∅; Closure.self := None;
     Closure.offset := 0; Closure.params := [U "i"];
     Closure.body := Some (AST_VAR (at0 [U "i"]) (U "i"));
     Closure.builtin := 0 |}.

(** [{ assert true }]. *)
Definition guarded : HeapObject :=
  HeapSimpleObject 0 ∅ ∅ [AST_LITERAL_BOOLEAN (at0 []) true].

(** The interpreter after [runInvariants] on [guarded]. *)
Definition checked : Interpreter :=
  match runInvariants 10 loc0 (Some guarded) (Interpreter_make ∅ 10) with
  | OK (_, vm') => vm'
  | _ => Interpreter_make ∅ 10
  end.

(** The array [[guarded]] in the scratch register, its element
    evaluated, in the middle of a call: the stack holds the frame of
    the call.  And the result of manifesting the array. *)
Definition holding : Interpreter :=
  set_scratch (ARRAY [0%nat])
    (set_heap_thunks
       [Thunk.fill (OBJECT (Some guarded))
          (Thunk.make idArrayElement None 0 None)]
       DriverExample.vm2).
Definition manifested : UString * Interpreter :=
  match manifestJson 20 loc0 true [] (watch holding) with
  | OK r => r
  | _ => ([], holding)
  end.

(** The stack after a call is pushed on an empty one. *)
Definition called : Stack :=
  match Stack_newCall [] loc0 None None 0 ∅ (Stack.make 10) with
  | OK s => s
  | _ => Stack.make 10
  end.
End ExtraExample.

Module ImportExampleMore.
Import Demo ImportExample.
(** The first import of [x.libsonnet] from [lib/main.jsonnet]. *)
Definition imported : ImportCacheValue * Interpreter :=
  match @importString found here (U "x.libsonnet") vm0 with
  | OK r => r
  | _ => ({| foundHere := EmptyString; content := EmptyString |}, vm0)
  end.
End ImportExampleMore.

(** * Reasoning about the monad *)

Lemma bind_OK {A B} (m : M A) (k : A → M B) vm b vm'' :
  bind m k vm = OK (b, vm'') →
  ∃ a vm', m vm = OK (a, vm') ∧ k a vm' = OK (b, vm'').
Proof.
  unfold bind. destruct (m vm) as [[a vm']| | | | |]; try done. eauto.
Qed.

Lemma hoare_bind {A B} P (m : M A) R (k : A → M B) Q :
  hoare P m R → (∀ a, hoare (R a) (k a) Q) → hoare P (bind m k) Q.
Proof.
  intros Hm Hk vm HP. specialize (Hm vm HP). unfold bind.
  destruct (m vm) as [[a vm']| | | | |]; try done. by apply Hk.
Qed.

Lemma hoare_ret {A} (P : Interpreter → Prop) (a : A)
    (Q : A → Interpreter → Prop) :
  (∀ vm, P vm → Q a vm) → hoare P (ret a) Q.
Proof. intros HQ vm HP. by apply HQ. Qed.

Lemma hoare_weaken {A} (P P' : Interpreter → Prop) (m : M A)
    (Q Q' : A → Interpreter → Prop) :
  hoare P' m Q' → (∀ vm, P vm → P' vm) → (∀ a vm, Q' a vm → Q a vm) →
  hoare P m Q.
Proof.
  intros Hm HP HQ vm Hvm. specialize (Hm vm (HP vm Hvm)).
  destruct (m vm) as [[a vm']| | | | |]; try done. by apply HQ.
Qed.

Lemma hoare_pre {A} (P P' : Interpreter → Prop) (m : M A) Q :
  hoare P' m Q → (∀ vm, P vm → P' vm) → hoare P m Q.
Proof. intros Hm HP. eapply hoare_weaken; eauto. Qed.

Lemma hoare_post {A} (P : Interpreter → Prop) (m : M A)
    (Q Q' : A → Interpreter → Prop) :
  hoare P m Q' → (∀ a vm, Q' a vm → Q a vm) → hoare P m Q.
Proof. intros Hm HQ. eapply hoare_weaken; eauto. Qed.

Lemma hoare_gets {A} (P : Interpreter → Prop) (f : Interpreter → A) Q :
  (∀ vm, P vm → Q (f vm) vm) → hoare P (gets f) Q.
Proof. intros HQ vm HP. by apply HQ. Qed.

Lemma hoare_modify (P : Interpreter → Prop) g
    (Q : unit → Interpreter → Prop) :
  (∀ vm, P vm → Q tt (g vm)) → hoare P (modify g) Q.
Proof. intros HQ vm HP. by apply HQ. Qed.

Lemma hoare_abort {A} P w (Q : A → Interpreter → Prop) :
  hoare P (abort w) Q.
Proof. by intros vm HP. Qed.

Lemma hoare_undefined {A} P (Q : A → Interpreter → Prop) :
  hoare P undefined Q.
Proof. by intros vm HP. Qed.

Lemma hoare_out_of_fuel {A} P (Q : A → Interpreter → Prop) :
  hoare P out_of_fuel Q.
Proof. by intros vm HP. Qed.

Lemma hoare_throw_static {A} P w (Q : A → Interpreter → Prop) :
  hoare P (throw_static w) Q.
Proof. by intros vm HP. Qed.

Lemma hoare_throw `{Externals} {A} P loc m (Q : A → Interpreter → Prop) :
  hoare P (throw loc m) Q.
Proof. by intros vm HP. Qed.

Lemma hoare_lift {A} (P : Interpreter → Prop) (r : Result A)
    (Q : A → Interpreter → Prop) :
  (∀ a vm, r = OK a → P vm → Q a vm) → hoare P (lift r) Q.
Proof. intros HQ vm HP. unfold lift. destruct r; try done. by apply HQ. Qed.

(** A loop keeps what each of its rounds keeps. *)
Lemma hoare_foldM {A B} (I : B → Interpreter → Prop) (f : B → A → M B)
    (b : B) (l : list A) :
  (∀ b x, x ∈ l → hoare (I b) (f b x) I) → hoare (I b) (foldM f b l) I.
Proof.
  revert b. induction l as [|x l IH]; intros b Hf; simpl.
  - by apply hoare_ret.
  - eapply hoare_bind; [apply Hf; left|].
    intros b'. apply IH. intros b'' y Hy. apply Hf. by right.
Qed.

(** The same for an invariant that does not mention the accumulator. *)
Lemma hoare_foldM_inv {A B} (I : Interpreter → Prop) (f : B → A → M B)
    (b : B) (l : list A) :
  (∀ b x, hoare I (f b x) (fun _ => I)) →
  hoare I (foldM f b l) (fun _ => I).
Proof. intros Hf. apply (hoare_foldM (fun _ => I)). auto. Qed.

(** A loop that extends its accumulator by one entry for each element
    has, when it ends, extended it by an entry for each of them in
    order. *)
Lemma foldM_entries {A B V} (f : B → A → M B) (g : B → A * V → B)
    (l : list A) :
  (∀ acc x vm acc' vm', f acc x vm = OK (acc', vm') →
     ∃ v, acc' = g acc (x, v)) →
  ∀ acc vm acc' vm', foldM f acc l vm = OK (acc', vm') →
    ∃ values, length values = length l ∧ acc' = foldl g acc (zip l values).
Proof.
  intros Hround. induction l as [|x l IH]; intros acc vm acc' vm' Hrun.
  - injection Hrun as <- <-. by exists [].
  - cbn [foldM] in Hrun.
    apply bind_OK in Hrun as (acc1 & vm1 & Hx & Hrest).
    destruct (Hround _ _ _ _ _ Hx) as [v ->].
    destruct (IH _ _ _ _ Hrest) as (values & Hlen & ->).
    exists (v :: values). split; [simpl; by rewrite Hlen|done].
Qed.

(** * Properties of the evaluation stack *)

Lemma wrap32_small z : 0 ≤ z < 2 ^ 32 → wrap32 z = z.
Proof. intros. unfold wrap32. by apply Z.mod_small. Qed.

Lemma wrap32_range z : 0 ≤ wrap32 z < 2 ^ 32.
Proof. unfold wrap32. apply Z.mod_pos_bound. done. Qed.

Lemma isCall_true f : Frame.isCall f = true ↔ Frame.kind f = FRAME_CALL.
Proof. unfold Frame.isCall. apply bool_decide_eq_true. Qed.

Lemma isCall_false f : Frame.isCall f = false ↔ Frame.kind f ≠ FRAME_CALL.
Proof. unfold Frame.isCall. apply bool_decide_eq_false. Qed.

Lemma count_calls_app l1 l2 :
  count_calls (l1 ++ l2) = (count_calls l1 + count_calls l2)%nat.
Proof. induction l1 as [|f l1 IH]; simpl; [done|]. rewrite IH. lia. Qed.

Lemma count_calls_locals l :
  Forall (fun f => Frame.kind f = FRAME_LOCAL) l → count_calls l = 0%nat.
Proof.
  induction 1 as [|f l Hf _ IH]; simpl; [done|].
  rewrite IH. unfold Frame.isCall. rewrite Hf. done.
Qed.

(** What the loop of [tailCallTrimStack] finds: above the first frame
    that is not a [LOCAL] there are only [LOCAL] frames, and that frame
    decides. *)
Lemma trim_split locals c rest :
  Forall (fun f => Frame.kind f = FRAME_LOCAL) locals →
  Frame.kind c ≠ FRAME_LOCAL →
  Stack.trim (locals ++ c :: rest) = if trimmable c then Some rest else None.
Proof.
  intros Hl Hc. induction Hl as [|f l Hf _ IH]; simpl.
  - unfold trimmable, Frame.isCall.
    destruct (Frame.kind c) eqn:Hk; try done; simpl.
    destruct (Frame.tailCall c); simpl; [|done].
    destruct (Frame.thunks c); simpl; done.
  - by rewrite Hf.
Qed.

Lemma trim_all_locals l :
  Forall (fun f => Frame.kind f = FRAME_LOCAL) l → Stack.trim l = None.
Proof. induction 1 as [|f l Hf _ IH]; simpl; [done|]. by rewrite Hf. Qed.

(** Whenever the loop removes frames, they are [LOCAL] frames and one
    trimmable call frame. *)
Lemma trim_Some l below :
  Stack.trim l = Some below →
  ∃ locals c, l = locals ++ c :: below
    ∧ Forall (fun f => Frame.kind f = FRAME_LOCAL) locals
    ∧ trimmable c = true.
Proof.
  induction l as [|f l IH]; simpl; [done|].
  destruct (Frame.kind f) eqn:Hk; try done.
  - destruct (Frame.tailCall f) eqn:Ht; simpl; [|done].
    case_bool_decide as Hth; [done|]. intros [= <-].
    exists [], f. split_and!; [done|constructor|].
    unfold trimmable, Frame.isCall. rewrite Hk, Ht. simpl.
    apply bool_decide_eq_true. destruct (Frame.thunks f); [done|simpl in Hth; lia].
  - intros (locals & c & -> & Hl & Hc)%IH.
    exists (f :: locals), c. split_and!; [done|by constructor|done].
Qed.

Lemma trimmable_isCall c : trimmable c = true → Frame.isCall c = true.
Proof. unfold trimmable. by intros [[? _]%andb_prop _]%andb_prop. Qed.

Lemma tailCallTrimStack_wf s : Stack_wf s → Stack_wf (Stack.tailCallTrimStack s).
Proof.
  intros (Hc & Hl & Hlim). unfold Stack.tailCallTrimStack.
  destruct (Stack.trim (Stack.stack s)) as [below|] eqn:Ht; [|done].
  apply trim_Some in Ht as (locals & c & Hs & Hloc & Hc').
  unfold Stack_wf; simpl. rewrite Hs, count_calls_app in Hc. simpl in Hc.
  rewrite (count_calls_locals _ Hloc), (trimmable_isCall _ Hc') in Hc.
  rewrite wrap32_small by lia. lia.
Qed.

Lemma newFrame_wf f s :
  Frame.kind f ≠ FRAME_CALL → Stack_wf s → Stack_wf (Stack.newFrame f s).
Proof.
  intros Hk%isCall_false (Hc & Hl & Hlim). unfold Stack_wf; simpl.
  rewrite Hk. done.
Qed.

Lemma pop_wf s s' : Stack.pop s = Some s' → Stack_wf s → Stack_wf s'.
Proof.
  unfold Stack.pop. destruct (Stack.stack s) as [|f below] eqn:Hs; [done|].
  intros [= <-] (Hc & Hl & Hlim). rewrite Hs in Hc. simpl in Hc.
  unfold Stack_wf. destruct (Frame.isCall f); simpl.
  - rewrite wrap32_small by lia. lia.
  - lia.
Qed.

Section NewCall.
Context `{Externals}.

(** [newCall] in one equation: trim, compare with the limit, push. *)
Lemma Stack_newCall_eq heap loc context self offset up s :
  Stack_newCall heap loc context self offset up s =
    let s' := Stack.tailCallTrimStack s in
    if bool_decide (Stack.limit s' ≤ Stack.calls s') then
      Throw (makeError heap s' loc "Max stack frames exceeded.")
    else
      OK (Stack.set_calls (wrap32 (Stack.calls s' + 1))
            (Stack.newFrame (call_frame loc context self offset up) s')).
Proof. reflexivity. Qed.

Lemma Stack_newCall_wf heap loc context self offset up s s' :
  Stack_newCall heap loc context self offset up s = OK s' →
  Stack_wf s → Stack_wf s'.
Proof.
  rewrite Stack_newCall_eq. simpl. intros Hnew Hwf%tailCallTrimStack_wf.
  case_bool_decide as Hlim; [done|]. injection Hnew as <-.
  destruct Hwf as (Hc & Hl & Hmax). unfold Stack_wf; simpl.
  rewrite wrap32_small by lia. lia.
Qed.

Lemma reachable_wf s : reachable s → Stack_wf s.
Proof.
  induction 1 as [limit Hl|f s Hk _ IH|s s' Hp _ IH
                 |heap loc ctx self off up s s' Hn _ IH
                 |g f below s Hs Hg _ IH].
  - unfold Stack_wf; simpl. rewrite wrap32_small by done. lia.
  - by apply newFrame_wf.
  - by eapply pop_wf.
  - by eapply Stack_newCall_wf.
  - destruct IH as (Hc & Hl & Hlim). unfold Stack_wf; simpl.
    rewrite Hs in Hc; simpl in Hc. rewrite Hg. done.
Qed.
End NewCall.

Section StackClaims.
Context `{Externals}.

Lemma set_last_name_head trace n :
  tf_location <$> head (set_last_name trace n) = tf_location <$> head trace.
Proof.
  unfold set_last_name.
  destruct trace as [|t trace _] using rev_ind; [done|].
  rewrite reverse_snoc, reverse_cons, reverse_involutive.
  by destruct trace.
Qed.

Lemma makeError_scan_head heap l trace :
  trace ≠ [] →
  tf_location <$> head (makeError_scan heap l trace)
  = tf_location <$> head trace.
Proof.
  revert trace. induction l as [|f l IH]; intros trace Hne; simpl; [done|].
  destruct (Frame.isCall f); [|by apply IH].
  rewrite IH.
  - destruct (Frame.context f).
    + destruct (set_last_name trace _) eqn:Hs.
      * pose proof (set_last_name_head trace (getName heap l h)) as Hh.
        rewrite Hs in Hh. destruct trace; done.
      * rewrite <- (set_last_name_head trace (getName heap l h)), Hs. done.
    + by destruct trace.
  - by intros [_ ?]%app_eq_nil.
Qed.

(** The error of [makeError] is located at [loc]. *)
Lemma makeError_location heap s loc m :
  tf_location <$> head (stack_trace (makeError heap s loc m)) = Some loc.
Proof. unfold makeError; simpl. by rewrite makeError_scan_head. Qed.

(** C4.  Before [newCall] pushes its frame, [tailCallTrimStack] looks
    at the first frame from the top that is not a [LOCAL] frame.  If it
    is a [CALL] frame flagged [tailCall] with no pending thunks, that
    frame and the [LOCAL] frames above it are removed and [calls]
    decreases by one; if it is of another kind, or is a [CALL] frame
    not flagged [tailCall] or with pending thunks, nothing is removed.
    The new frame goes on top of what the trim left. *)
Theorem C4_tail_call_trim heap loc context self offset up
    (s : Stack) (locals : list Frame) (c : Frame) (rest : list Frame) :
  Stack_wf s →
  Stack.stack s = locals ++ c :: rest →
  Forall (fun f => Frame.kind f = FRAME_LOCAL) locals →
  Frame.kind c ≠ FRAME_LOCAL →
  let s' := Stack.tailCallTrimStack s in
  (Frame.kind c = FRAME_CALL → Frame.tailCall c = true →
   Frame.thunks c = [] →
   Stack.stack s' = rest ∧ Stack.calls s' = Stack.calls s - 1)
  ∧ (Frame.kind c ≠ FRAME_CALL ∨ Frame.tailCall c = false
     ∨ Frame.thunks c ≠ [] → s' = s)
  ∧ (∀ s'', Stack_newCall heap loc context self offset up s = OK s'' →
       Stack.stack s''
       = call_frame loc context self offset up :: Stack.stack s').
Proof.
  intros (Hc & Hl & Hlim) Hs Hloc Hk s'. subst s'.
  unfold Stack.tailCallTrimStack.
  rewrite Hs, (trim_split _ _ _ Hloc Hk). split_and!.
  - intros Hcall Htail Hth.
    assert (trimmable c = true) as ->.
    { unfold trimmable, Frame.isCall. rewrite Hcall, Htail, Hth. done. }
    simpl. split; [done|].
    rewrite Hs, count_calls_app in Hc. simpl in Hc.
    unfold Frame.isCall in Hc. rewrite Hcall in Hc. simpl in Hc.
    apply wrap32_small. lia.
  - intros Hno.
    assert (trimmable c = false) as ->; [|done].
    unfold trimmable, Frame.isCall.
    destruct Hno as [Hno|[Hno|Hno]].
    + by rewrite bool_decide_eq_false_2.
    + rewrite Hno. by rewrite andb_false_r.
    + rewrite (bool_decide_eq_false_2 (Frame.thunks c = [])) by done.
      by rewrite andb_false_r.
  - intros s''. rewrite Stack_newCall_eq. simpl.
    unfold Stack.tailCallTrimStack.
    rewrite Hs, (trim_split _ _ _ Hloc Hk).
    case_bool_decide; [done|]. by intros [= <-].
Qed.

(** C5.  Only [newCall] compares with the limit: when [calls], after
    the trim, has reached [limit] it throws "Max stack frames exceeded."
    located at the call site, and otherwise it succeeds; [newFrame]
    never fails and leaves [calls] alone; in every state of the stack
    [calls] is the number of [CALL] frames and is at most [limit]. *)
Theorem C5_call_depth_limit :
  (∀ heap loc context self offset up s,
     let s' := Stack.tailCallTrimStack s in
     (Stack.limit s' ≤ Stack.calls s' →
      ∃ e, Stack_newCall heap loc context self offset up s = Throw e
           ∧ msg e = "Max stack frames exceeded."
           ∧ tf_location <$> head (stack_trace e) = Some loc)
     ∧ (Stack.calls s' < Stack.limit s' →
        ∃ s'', Stack_newCall heap loc context self offset up s = OK s''))
  ∧ (∀ f vm, ∃ vm',
       newFrame f vm = OK (tt, vm')
       ∧ Stack.calls (stack vm') = Stack.calls (stack vm)
       ∧ Stack.stack (stack vm') = f :: Stack.stack (stack vm))
  ∧ (∀ s, reachable s →
       Z.of_nat (count_calls (Stack.stack s)) = Stack.calls s
       ∧ Stack.calls s ≤ Stack.limit s).
Proof.
  split_and!.
  - intros heap loc context self offset up s s'. subst s'.
    rewrite Stack_newCall_eq. simpl. split; intros Hcmp.
    + rewrite bool_decide_eq_true_2 by done.
      eexists. split_and!; [done|done|apply makeError_location].
    + rewrite bool_decide_eq_false_2 by lia. by eexists.
  - intros f vm. by eexists.
  - intros s (Hc & Hl & _)%reachable_wf. split; [done|done].
Qed.
End StackClaims.

Module StackWitness.
Import Demo StackExample.

Lemma C4_witness :
  Stack.stack (Stack.tailCallTrimStack s0) = []
  ∧ Stack.calls (Stack.tailCallTrimStack s0) = Stack.calls s0 - 1.
Proof.
  refine (proj1 (C4_tail_call_trim [] loc0 None None 0 ∅ s0
                   [local_frame] tail_frame [] _ _ _ _) _ _ _).
  - unfold Stack_wf. vm_compute. split_and!; congruence.
  - reflexivity.
  - repeat constructor.
  - discriminate.
  - reflexivity.
  - reflexivity.
  - reflexivity.
Defined.

Lemma C5_witness :
  reachable deep
  ∧ Stack.calls deep = Stack.limit deep
  ∧ (∃ e, Stack_newCall [] loc0 None None 0 ∅ deep = Throw e
          ∧ msg e = "Max stack frames exceeded."
          ∧ tf_location <$> head (stack_trace e) = Some loc0)
  ∧ Z.of_nat (count_calls (Stack.stack deep)) = Stack.calls deep
  ∧ Stack.calls deep ≤ Stack.limit deep.
Proof.
  assert (reachable (Stack.make 2)) as Hr0
    by (apply reach_make; vm_compute; split; [discriminate|reflexivity]).
  assert (reachable (call_on (Stack.make 2))) as Hr1.
  { refine (reach_newCall [] loc0 None None 0 ∅ (Stack.make 2) _ _ Hr0).
    vm_compute. reflexivity. }
  assert (reachable deep) as Hr.
  { refine (reach_newCall [] loc0 None None 0 ∅
              (call_on (Stack.make 2)) _ _ Hr1).
    vm_compute. reflexivity. }
  split; [exact Hr|]. split; [reflexivity|]. split.
  - refine (proj1 (proj1 C5_call_depth_limit [] loc0 None None 0 ∅ deep) _).
    vm_compute. discriminate.
  - exact (proj2 (proj2 C5_call_depth_limit) deep Hr).
Defined.
End StackWitness.

(** * Properties of the object model *)

Lemma scan_app f k l1 l2 c :
  scan f k (l1 ++ l2) c =
    match scan f k l1 c with
    | Some x => Some x
    | None => scan f k l2 (c + Z.of_nat (length l1))
    end.
Proof.
  revert c. induction l1 as [|leaf l1 IH]; intros c; simpl.
  - by rewrite Z.add_0_r.
  - destruct (bool_decide (k ≤ c) && has_field f leaf); [done|].
    rewrite IH. replace (c + 1 + Z.of_nat (length l1)) with
      (c + Z.of_nat (S (length l1))) by lia. done.
Qed.

Lemma leaves_nonempty obj : (0 < length (leaves obj))%nat.
Proof.
  induction obj; simpl; try lia. rewrite length_app. lia.
Qed.

(** [findObject] is the search on the list of leaves, as long as the
    counter does not wrap around. *)
Lemma findObject_scan f root curr k c self :
  0 ≤ c → c + Z.of_nat (length (leaves curr)) < 2 ^ 32 →
  findObject f root curr k (c, self) =
    match scan f k (leaves curr) c with
    | Some (leaf, i) => (Some leaf, (i, Some root))
    | None => (None, (c + Z.of_nat (length (leaves curr)), self))
    end.
Proof.
  revert c self.
  induction curr as [a up fields asserts|a up value id cv|a l IHl r IHr];
    intros c self Hc Hlt; cbn [leaves length] in Hlt; simpl.
  - destruct (bool_decide (k ≤ c) && _); [done|].
    rewrite wrap32_small by lia. done.
  - destruct (bool_decide (k ≤ c) && _); [done|].
    rewrite wrap32_small by lia. done.
  - rewrite length_app in Hlt. rewrite scan_app, IHr by lia.
    destruct (scan f k (leaves r) c) as [[leaf i]|]; [done|].
    rewrite IHl by lia.
    destruct (scan f k (leaves l) _) as [[leaf i]|]; [done|].
    rewrite length_app, Nat2Z.inj_add, Z.add_assoc. done.
Qed.

Lemma scan_spec f k ls c :
  match scan f k ls c with
  | Some (leaf, i) =>
      ∃ j : nat, i = c + Z.of_nat j ∧ ls !! j = Some leaf ∧ k ≤ i
        ∧ has_field f leaf = true
        ∧ ∀ (j' : nat) leaf', (j' < j)%nat → k ≤ c + Z.of_nat j' →
            ls !! j' = Some leaf' → has_field f leaf' = false
  | None =>
      ∀ (j : nat) leaf', k ≤ c + Z.of_nat j → ls !! j = Some leaf' →
        has_field f leaf' = false
  end.
Proof.
  revert c. induction ls as [|leaf ls IH]; intros c; simpl; [done|].
  destruct (bool_decide (k ≤ c) && has_field f leaf) eqn:Hhere.
  - apply andb_prop in Hhere as [Hk%bool_decide_eq_true Hf].
    exists 0%nat. split_and!; [lia|done|done|done|lia].
  - specialize (IH (c + 1)).
    assert (∀ leaf', k ≤ c → leaf = leaf' → has_field f leaf' = false) as H0.
    { intros leaf' Hk <-. apply andb_false_iff in Hhere as [Hn|Hn]; [|done].
      by apply bool_decide_eq_false in Hn. }
    destruct (scan f k ls (c + 1)) as [[leaf1 i]|].
    + destruct IH as (j & -> & Hj & Hk & Hf & Hmin).
      exists (S j). split_and!; [lia|done|done|done|].
      intros [|j'] leaf' Hlt Hk' Hl; simpl in Hl.
      * apply H0; [lia|congruence].
      * apply (Hmin j'); [lia|lia|done].
    + intros [|j] leaf' Hk' Hl; simpl in Hl.
      * apply H0; [lia|congruence].
      * apply (IH j); [lia|done].
Qed.

(** The search from the root, in terms of [selected] and [not_found]. *)
Lemma scan_selected f k ls leaf (i : nat) :
  selected f k ls leaf i → scan f k ls 0 = Some (leaf, Z.of_nat i).
Proof.
  intros (Hi & Hk & Hf & Hmin). pose proof (scan_spec f k ls 0) as Hs.
  destruct (scan f k ls 0) as [[leaf0 i0]|].
  - destruct Hs as (j & -> & Hj & Hk0 & Hf0 & Hmin0).
    destruct (lt_eq_lt_dec i j) as [[Hlt|Heq]|Hgt].
    + rewrite (Hmin0 i leaf) in Hf by (done || lia). done.
    + subst j. rewrite Hi in Hj. injection Hj as <-. do 2 f_equal.
    + rewrite (Hmin j leaf0) in Hf0 by (done || lia). done.
  - rewrite (Hs i leaf) in Hf by (done || lia). done.
Qed.

Lemma scan_not_found f k ls : not_found f k ls → scan f k ls 0 = None.
Proof.
  intros Hn. pose proof (scan_spec f k ls 0) as Hs.
  destruct (scan f k ls 0) as [[leaf0 i0]|]; [|done].
  destruct Hs as (j & -> & Hj & Hk0 & Hf0 & _).
  rewrite (Hn j leaf0) in Hf0 by (done || lia). done.
Qed.

(** Either a leaf is selected or none has the field. *)
Lemma selected_or_not_found f k ls :
  (∃ leaf i, selected f k ls leaf i) ∨ not_found f k ls.
Proof.
  pose proof (scan_spec f k ls 0) as Hs.
  destruct (scan f k ls 0) as [[leaf0 i0]|].
  - left. destruct Hs as (j & -> & Hj & Hk0 & Hf0 & Hmin).
    exists leaf0, j. split_and!; [done|lia|done|].
    intros j' leaf' ? ? ?. apply (Hmin j'); [done|lia|done].
  - right. intros j leaf' ? ?. apply (Hs j); [lia|done].
Qed.

Lemma leaves_are_leaves obj leaf :
  leaf ∈ leaves obj →
  match leaf with HeapExtendedObject _ _ _ => False | _ => True end.
Proof.
  induction obj as [| |a l IHl r IHr]; simpl.
  - intros ->%list_elem_of_singleton. done.
  - intros ->%list_elem_of_singleton. done.
  - intros [?|?]%elem_of_app; [by apply IHr|by apply IHl].
Qed.

Section ObjectIndex.
Context `{Externals}.

(** [newCall] in the monad, in one equation. *)
Lemma newCall_eq loc context self offset up vm :
  newCall loc context self offset up vm =
    let s' := Stack.tailCallTrimStack (stack vm) in
    if bool_decide (Stack.limit s' ≤ Stack.calls s') then
      Throw (makeError (heap_thunks vm) s' loc "Max stack frames exceeded.")
    else
      OK (tt, set_stack
                (open_call (call_frame loc context self offset up) s') vm).
Proof.
  unfold newCall, Stack_newCall. simpl.
  by case_bool_decide.
Qed.

Lemma has_field_body f leaf :
  has_field f leaf = true → is_Some (leaf_body f leaf).
Proof.
  destruct leaf; simpl; [| |done].
  - intros [x Hx]%bool_decide_eq_true. rewrite Hx. by eexists.
  - intros [x Hx]%bool_decide_eq_true. rewrite Hx. by eexists.
Qed.

(** [objectIndex] once the search has selected a leaf. *)
Lemma objectIndex_found loc obj f k vm leaf (i : nat) :
  Z.of_nat (length (leaves obj)) < 2 ^ 32 →
  selected f k (leaves obj) leaf i →
  ∃ body, leaf_body f leaf = Some body ∧
    objectIndex loc (Some obj) f k vm =
      (newCall loc (Some (EObject leaf)) (Some obj) (Z.of_nat i)
         (leaf_bindings f leaf);;
       ret body) vm.
Proof.
  intros Hlen Hsel. pose proof Hsel as (Hi & _ & Hf & _).
  destruct (has_field_body f leaf Hf) as [b Hb]. exists b. split; [done|].
  unfold objectIndex, findObject_ptr.
  rewrite findObject_scan, (scan_selected _ _ _ _ _ Hsel) by lia.
  destruct leaf as [a up fields asserts|a up value id cv|]; simpl in *.
  - destruct (fields !! f) as [it|]; simpl in *; [|done]. by injection Hb as <-.
  - destruct (cv !! f) as [th|]; simpl in *; [|done]. by injection Hb as <-.
  - done.
Qed.

(** C1 (amended).  On an object with fewer than [2^32] leaves,
    [objectIndex] from super-offset [k] walks the leaves right subtree
    first, skips the first [k] of them and selects the first later leaf
    that has the field.  When the depth limit is not reached after the
    tail-call trim, it pushes a call frame whose [self] is the root,
    whose offset is the position of the selected leaf, whose context is
    the leaf and whose bindings are the up-values of the leaf, extended
    with the loop variable bound to the thunk of the field when the
    leaf is a comprehension object; at the limit it throws "Max stack
    frames exceeded.".  When no leaf at or after position [k] has the
    field it throws "Field does not exist: " followed by the name. *)
Theorem C1_object_index loc (obj : HeapObject) (f : Identifier) (k : Z)
    (vm : Interpreter) :
  Z.of_nat (length (leaves obj)) < 2 ^ 32 →
  let s' := Stack.tailCallTrimStack (stack vm) in
  (∀ leaf (i : nat), selected f k (leaves obj) leaf i →
     (Stack.calls s' < Stack.limit s' →
      ∃ body, leaf_body f leaf = Some body ∧
        objectIndex loc (Some obj) f k vm =
          OK (body,
              set_stack
                (open_call
                   (call_frame loc (Some (EObject leaf)) (Some obj)
                      (Z.of_nat i) (leaf_bindings f leaf)) s') vm))
     ∧ (Stack.limit s' ≤ Stack.calls s' →
        ∃ e, objectIndex loc (Some obj) f k vm = Throw e
             ∧ msg e = "Max stack frames exceeded."))
  ∧ (not_found f k (leaves obj) →
     ∃ e, objectIndex loc (Some obj) f k vm = Throw e
          ∧ msg e = "Field does not exist: " +:+ encode_utf8 f).
Proof.
  intros Hlen s'. split.
  - intros leaf i Hsel.
    destruct (objectIndex_found loc obj f k vm leaf i Hlen Hsel)
      as (b & Hb & ->).
    unfold bind. rewrite newCall_eq. fold s'. simpl. split; intros Hcmp.
    + exists b. split; [done|]. by rewrite bool_decide_eq_false_2 by lia.
    + rewrite bool_decide_eq_true_2 by done. by eexists.
  - intros Hnf. unfold objectIndex, findObject_ptr.
    rewrite findObject_scan, (scan_not_found _ _ _ Hnf) by lia.
    by eexists.
Qed.

End ObjectIndex.

Module ObjectWitness.
Import Demo ObjectExample.

Lemma C1_counterexample : ¬ C1_as_stated.
Proof.
  intros Hc.
  destruct (Hc loc0 comp (U "f") 0 vm0 comp 0%nat)
    as (b & vm' & fr & Hrun & Htop & _ & _ & _ & Hbind).
  - vm_compute. done.
  - split_and!; [done|done|done|lia].
  - vm_compute in Hrun. injection Hrun as _ <-.
    vm_compute in Htop. injection Htop as <-.
    apply (f_equal (fun m : BindingFrame => m !! U "x")) in Hbind.
    vm_compute in Hbind. done.
Qed.

Lemma C1_witness :
  Z.of_nat (length (leaves both)) < 2 ^ 32
  ∧ ∃ body, leaf_body (U "a") base = Some body ∧
      objectIndex loc0 (Some both) (U "a") 1 vm0 =
        OK (body,
            set_stack
              (open_call
                 (call_frame loc0 (Some (EObject base)) (Some both) 1
                    (leaf_bindings (U "a") base))
                 (Stack.tailCallTrimStack (stack vm0))) vm0).
Proof.
  assert (Z.of_nat (length (leaves both)) < 2 ^ 32) as Hlen
    by (vm_compute; done).
  split; [exact Hlen|].
  refine (proj1 (proj1 (C1_object_index loc0 both (U "a") 1 vm0 Hlen)
                   base 1%nat _) _).
  - split_and!; [done|done|done|].
    intros [|[|j]] leaf' Hj Hk Hl; simpl in *; lia.
  - vm_compute. done.
Defined.
End ObjectWitness.

(** ** Field visibility *)

Lemma merge_left_lookup (r l : IdHideMap) k :
  merge_left r l !! k = merge_hide (r !! k) (l !! k).
Proof.
  unfold merge_left. revert k.
  apply (map_fold_weak_ind
           (fun (res : IdHideMap) (m : IdHideMap) =>
              ∀ k, res !! k = merge_hide (r !! k) (m !! k))).
  - intros k. rewrite lookup_empty. by destruct (r !! k) as [[]|].
  - intros i x m res Hi IH k.
    pose proof (IH i) as IHi. rewrite Hi in IHi.
    destruct (decide (i = k)) as [->|Hne].
    + rewrite lookup_insert_eq.
      destruct (r !! k) as [[]|] eqn:Hr; simpl in IHi; rewrite IHi;
        rewrite ?lookup_insert_eq; simpl; done.
    + rewrite lookup_insert_ne by done. rewrite <- IH.
      destruct (res !! i) as [[]|]; rewrite ?lookup_insert_ne by done; done.
Qed.

Lemma map_fold_insert_fmap {A} (g : A → Hide) (m : gmap (list N) A) :
  map_fold (fun (k : list N) (x : A) (r : IdHideMap) => <[k := g x]> r) ∅ m
  = g <$> m.
Proof.
  apply (map_fold_weak_ind
           (fun (res : IdHideMap) (m : gmap (list N) A) => res = g <$> m)).
  - by rewrite fmap_empty.
  - intros i x m' res Hi ->. by rewrite fmap_insert.
Qed.

(** As long as the counter does not wrap around, no leaf is skipped and
    the map does not depend on the counter. *)
Lemma objectFields_rec_nowrap obj counter :
  0 ≤ counter → counter + Z.of_nat (length (leaves obj)) < 2 ^ 32 →
  objectFields_rec obj counter 0 true
  = (hides obj, counter + Z.of_nat (length (leaves obj))).
Proof.
  unfold hides. revert counter.
  induction obj as [a up fields asserts|a up value id cv|a l IHl r IHr];
    intros counter Hc Hlt; cbn [leaves length] in Hlt; simpl.
  - rewrite !wrap32_small by lia.
    rewrite !bool_decide_eq_false_2 by lia. done.
  - rewrite !wrap32_small by lia.
    rewrite !bool_decide_eq_false_2 by lia. done.
  - rewrite length_app in Hlt. pose proof (leaves_nonempty l).
    rewrite (IHr counter), (IHr 0) by lia. simpl.
    rewrite (IHl (counter + _)), (IHl (0 + _)) by lia. simpl.
    rewrite length_app, Nat2Z.inj_add, Z.add_assoc. done.
Qed.

Lemma hides_extended a l r :
  Z.of_nat (length (leaves (HeapExtendedObject a l r))) < 2 ^ 32 →
  hides (HeapExtendedObject a l r) = merge_left (hides r) (hides l).
Proof.
  intros Hlt. simpl in Hlt. rewrite length_app in Hlt.
  unfold hides at 1. simpl.
  rewrite (objectFields_rec_nowrap r 0) by lia. simpl.
  rewrite (objectFields_rec_nowrap l) by lia. done.
Qed.

Lemma hides_simple a up fields asserts :
  hides (HeapSimpleObject a up fields asserts) = hide <$> fields.
Proof. unfold hides. simpl. apply (map_fold_insert_fmap hide). Qed.

Lemma hides_comprehension a up value id cv :
  hides (HeapComprehensionObject a up value id cv) = (fun _ => VISIBLE) <$> cv.
Proof.
  unfold hides. simpl. apply (map_fold_insert_fmap (fun _ : nat => VISIBLE)).
Qed.

(** A field is collected exactly when some leaf has it. *)
Lemma hides_is_Some obj f :
  Z.of_nat (length (leaves obj)) < 2 ^ 32 →
  is_Some (hides obj !! f) ↔ ∃ leaf, leaf ∈ leaves obj ∧ has_field f leaf = true.
Proof.
  induction obj as [a up fields asserts|a up value id cv|a l IHl r IHr];
    intros Hlt.
  - rewrite hides_simple, lookup_fmap, fmap_is_Some. simpl. split.
    + intros Hs. eexists. split; [apply list_elem_of_singleton; done|].
      by apply bool_decide_eq_true.
    + intros (leaf & ->%list_elem_of_singleton & Hf).
      by apply bool_decide_eq_true in Hf.
  - rewrite hides_comprehension, lookup_fmap, fmap_is_Some. simpl. split.
    + intros Hs. eexists. split; [apply list_elem_of_singleton; done|].
      by apply bool_decide_eq_true.
    + intros (leaf & ->%list_elem_of_singleton & Hf).
      by apply bool_decide_eq_true in Hf.
  - rewrite hides_extended, merge_left_lookup by done.
    simpl in Hlt. rewrite length_app in Hlt. simpl.
    specialize (IHl ltac:(lia)). specialize (IHr ltac:(lia)).
    split.
    + intros Hs.
      assert (is_Some (hides r !! f) ∨ is_Some (hides l !! f)) as [Hr|Hl].
      { destruct (hides r !! f) as [[]|], (hides l !! f); simpl in Hs;
          eauto; by destruct Hs. }
      * apply IHr in Hr as (leaf & ? & ?). exists leaf.
        split; [apply elem_of_app; by left|done].
      * apply IHl in Hl as (leaf & ? & ?). exists leaf.
        split; [apply elem_of_app; by right|done].
    + intros (leaf & [Hin|Hin]%elem_of_app & Hf).
      * destruct (proj2 IHr) as [h Hh]; [eauto|]. rewrite Hh.
        destruct h, (hides l !! f); simpl; eauto.
      * destruct (proj2 IHl) as [h Hh]; [eauto|]. rewrite Hh.
        destruct (hides r !! f) as [[]|]; simpl; eauto.
Qed.

Lemma objectFields_elem obj f :
  f ∈ objectFields obj true ↔ ∃ h, hides obj !! f = Some h ∧ h ≠ HIDDEN.
Proof.
  unfold objectFields. fold (hides obj).
  apply (map_fold_weak_ind
           (fun (res : gset (list N)) (m : IdHideMap) =>
              f ∈ res ↔ ∃ h, m !! f = Some h ∧ h ≠ HIDDEN)).
  - split; [set_solver|]. intros (h & Hh & _). by rewrite lookup_empty in Hh.
  - intros i x m res Hi IH. case_bool_decide as Hx.
    + rewrite elem_of_union, elem_of_singleton, IH. split.
      * intros [->|(h & Hh & Hne)].
        -- exists x. by rewrite lookup_insert_eq.
        -- exists h. rewrite lookup_insert_ne; [done|]. intros ->. congruence.
      * intros (h & Hh & Hne). destruct (decide (i = f)) as [->|Hif]; [by left|].
        right. exists h. by rewrite lookup_insert_ne in Hh.
    + rewrite IH. split.
      * intros (h & Hh & Hne). exists h.
        rewrite lookup_insert_ne; [done|]. intros ->. congruence.
      * intros (h & Hh & Hne). destruct (decide (i = f)) as [->|Hif].
        -- rewrite lookup_insert_eq in Hh. injection Hh as ->.
           by destruct Hx.
        -- exists h. by rewrite lookup_insert_ne in Hh.
Qed.

Lemma sorted_fields_elem obj f :
  f ∈ sorted_fields (Some obj) ↔ f ∈ objectFields obj true.
Proof.
  unfold sorted_fields. simpl.
  rewrite merge_sort_Permutation. apply elem_of_elements.
Qed.

Section Visibility.
Context `{Externals}.

(** The object case of [manifestJson]: the text has one entry for each
    of [sorted_fields], in that order. *)
Lemma manifestJson_object_text fuel loc multiline indent vm obj s vm' :
  scratch vm = OBJECT obj →
  manifestJson fuel loc multiline indent vm = OK (s, vm') →
  ∃ entries,
    entries.*1 = sorted_fields obj
    ∧ s = object_text multiline indent entries.
Proof.
  intros Hscr Hrun. destruct fuel as [|fuel]; [done|].
  with_strategy opaque [foldM] (simpl in Hrun).
  apply bind_OK in Hrun as (scr & vm1 & Hget & Hrun).
  unfold getScratch, gets in Hget. injection Hget as <- <-.
  rewrite Hscr in Hrun.
  apply bind_OK in Hrun as ([] & vm1 & _ & Hrun).
  destruct (sorted_fields obj) as [|f0 fields] eqn:Hfields.
  - injection Hrun as <- <-. by exists [].
  - rewrite <- Hfields in *.
    apply bind_OK in Hrun as ([ss p] & vm2 & Hloop & Hrun).
    injection Hrun as <- <-.
    apply (foldM_entries _
             (fun (acc : UString * UString) (entry : UString * UString) =>
                (acc.1 ++ acc.2
                 ++ (if multiline then indent ++ U "   " else indent)
                 ++ uquote ++ entry.1 ++ uquote ++ U ": " ++ entry.2,
                 if multiline then U "," ++ newline else U ", ")))
      in Hloop as (values & Hlen & Hacc).
    + exists (zip (sorted_fields obj) values). split.
      * apply fst_zip. lia.
      * apply (f_equal fst) in Hacc. cbn [fst] in Hacc. rewrite Hacc.
        unfold object_text.
        destruct (zip (sorted_fields obj) values) as [|e es] eqn:Hzip;
          [|done].
        rewrite Hfields in Hzip, Hlen. by destruct values.
    + clear. intros [ss p] f vm [ss' p'] vm' Hround.
      apply bind_OK in Hround as (body & vm1 & _ & Hround).
      apply bind_OK in Hround as (scr & vm2 & _ & Hround).
      apply bind_OK in Hround as ([] & vm3 & _ & Hround).
      apply bind_OK in Hround as (sz & vm4 & _ & Hround).
      apply bind_OK in Hround as ([] & vm5 & _ & Hround).
      apply bind_OK in Hround as (vstr & vm6 & _ & Hround).
      apply bind_OK in Hround as (top_ & vm7 & _ & Hround).
      apply bind_OK in Hround as ([] & vm8 & _ & Hround).
      apply bind_OK in Hround as ([] & vm9 & _ & Hround).
      injection Hround as <- <- <-. by exists vstr.
Qed.

(** C2.  When the fields of an object are collected for manifestation,
    an extended object merges the map of its right operand with the map
    of its left operand: the hide kind of the right side is kept unless
    it is [INHERIT] and the left side has the field, in which case the
    left side's hide kind replaces it.  A simple leaf contributes the
    hide kinds of its fields, a comprehension leaf [VISIBLE].  The
    fields collected are those whose merged hide kind is not [HIDDEN],
    and the text [manifestJson] returns for the object has an entry
    for a field exactly when it is one of them; every field with a
    hide kind, hidden or not, is found by the search of [objectIndex]
    from offset 0. *)
Theorem C2_field_visibility (obj : HeapObject) (f : Identifier) :
  Z.of_nat (length (leaves obj)) < 2 ^ 32 →
  (∀ a l r, obj = HeapExtendedObject a l r →
     hides obj !! f = merge_hide (hides r !! f) (hides l !! f))
  ∧ (∀ a up fields asserts, obj = HeapSimpleObject a up fields asserts →
       hides obj !! f = hide <$> fields !! f)
  ∧ (∀ a up value id cv, obj = HeapComprehensionObject a up value id cv →
       hides obj !! f = (fun _ => VISIBLE) <$> cv !! f)
  ∧ (f ∈ objectFields obj true ↔ ∃ h, hides obj !! f = Some h ∧ h ≠ HIDDEN)
  ∧ (f ∈ sorted_fields (Some obj) ↔ f ∈ objectFields obj true)
  ∧ (is_Some (hides obj !! f) →
     ∃ leaf (i : nat), selected f 0 (leaves obj) leaf i
       ∧ (findObject f obj obj 0 (0, None)).1 = Some leaf)
  ∧ (∀ fuel loc multiline indent (vm : Interpreter) s vm',
       scratch vm = OBJECT (Some obj) →
       manifestJson fuel loc multiline indent vm = OK (s, vm') →
       ∃ entries,
         s = object_text multiline indent entries
         ∧ entries.*1 = sorted_fields (Some obj)
         ∧ (f ∈ entries.*1
            ↔ ∃ h, hides obj !! f = Some h ∧ h ≠ HIDDEN)).
Proof.
  intros Hlt. split_and!.
  - intros a l r ->. by rewrite hides_extended, merge_left_lookup.
  - intros a up fields asserts ->. by rewrite hides_simple, lookup_fmap.
  - intros a up value id cv ->. by rewrite hides_comprehension, lookup_fmap.
  - apply objectFields_elem.
  - apply sorted_fields_elem.
  - intros (leaf & Hin & Hf)%hides_is_Some; [|done].
    destruct (selected_or_not_found f 0 (leaves obj))
      as [(leaf0 & i & Hsel)|Hnf].
    + exists leaf0, i. split; [done|].
      rewrite findObject_scan, (scan_selected _ _ _ _ _ Hsel) by lia. done.
    + apply list_elem_of_lookup in Hin as [j Hj].
      rewrite (Hnf j leaf) in Hf by (done || lia). done.
  - intros fuel loc multiline indent vm s vm' Hscr Hrun.
    destruct (manifestJson_object_text _ _ _ _ _ _ _ _ Hscr Hrun)
      as (entries & Hnames & Htext).
    exists entries. split; [done|]. split; [done|].
    by rewrite Hnames, sorted_fields_elem, objectFields_elem.
Qed.
End Visibility.

Module VisibilityWitness.
Import Demo ObjectExample.

(** In [{ a: 1 } + { a:: 2, b: 3 }] the field [a] is hidden by the
    right operand: the text of the object has the one entry [b], but
    the search finds [a]. *)
Lemma C2_witness :
  Z.of_nat (length (leaves both)) < 2 ^ 32
  ∧ hides both !! (U "a") = merge_hide (hides derived !! (U "a"))
                            (hides base !! (U "a"))
  ∧ hides both !! (U "a") = Some HIDDEN
  ∧ (U "a" ∉ objectFields both true)
  ∧ (∃ leaf (i : nat), selected (U "a") 0 (leaves both) leaf i
       ∧ (findObject (U "a") both both 0 (0, None)).1 = Some leaf)
  ∧ ∃ s vm' entries,
      manifestJson 10 loc0 false [] vm_both = OK (s, vm')
      ∧ s = object_text false [] entries
      ∧ entries.*1 = [U "b"]
      ∧ U "a" ∉ entries.*1.
Proof.
  assert (Z.of_nat (length (leaves both)) < 2 ^ 32) as Hlen
    by (vm_compute; done).
  destruct (C2_field_visibility both (U "a") Hlen)
    as (Hmerge & _ & _ & Hset & _ & Hfind & Hout).
  assert (hides both !! (U "a") = Some HIDDEN) as Hh by (vm_compute; done).
  split_and!; [exact Hlen|exact (Hmerge _ _ _ eq_refl)|exact Hh| | |].
  - intros Hin. apply Hset in Hin as (h & Hh' & Hne). congruence.
  - apply Hfind. rewrite Hh. by eexists.
  - destruct (manifestJson 10 loc0 false [] vm_both)
      as [[s vm']| | | | |] eqn:Hrun; try (vm_compute in Hrun; discriminate).
    destruct (Hout 10%nat loc0 false [] vm_both s vm' eq_refl Hrun)
      as (entries & Htext & Hnames & Hin).
    exists s, vm', entries. split_and!; [done|done|exact Hnames|].
    intros (h & Hh' & Hne)%Hin. congruence.
Defined.
End VisibilityWitness.

(** ** Super *)

(** Without wrap-around [countLeaves] is the number of leaves. *)
Lemma countLeaves_length obj :
  Z.of_nat (length (leaves obj)) < 2 ^ 32 →
  countLeaves obj = Z.of_nat (length (leaves obj)).
Proof.
  induction obj as [| |a l IHl r IHr]; simpl; [done|done|].
  rewrite length_app. intros Hlt.
  rewrite IHl, IHr by lia. rewrite wrap32_small by lia. lia.
Qed.

(** The offset of the frame [objectIndex] pushes is below the leaf count
    of its [self]. *)
Lemma selected_lt_countLeaves f k obj leaf (i : nat) :
  Z.of_nat (length (leaves obj)) < 2 ^ 32 →
  selected f k (leaves obj) leaf i →
  0 ≤ Z.of_nat i < countLeaves_ptr (Some obj).
Proof.
  intros Hlt (Hi%lookup_lt_Some & _). simpl.
  rewrite countLeaves_length by done. lia.
Qed.


Section Super.
Context `{Externals}.

End Super.

Module SuperWitness.
Import Demo ObjectExample SuperExample.


End SuperWitness.

(** * Numbers and equality *)

(** [makeDoubleCheck] either fails or returns its argument, which is
    then finite. *)
Section Numbers.
Context `{Externals}.






End Numbers.

Section NumbersClaim.
Context `{Externals}.


End NumbersClaim.

Module NumbersWitness.
Import Demo ObjectExample.

End NumbersWitness.

Section PrimitiveEquals.
Context `{Externals}.

(** C10.  [primitiveEquals] (builtin 24) on two values of different
    types leaves [false] in the scratch register and raises nothing,
    also when one of the two is a function; it throws "Cannot test
    equality of functions" exactly when both are functions; on two
    nulls it leaves [true]. *)
Theorem C10_primitive_equals loc (a b : Value) (vm : Interpreter) :
  (Value_t a ≠ Value_t b →
   builtin_call loc 24 [a; b] vm
   = OK (PopFrame, set_scratch (BOOLEAN false) vm))
  ∧ ((∃ e, builtin_call loc 24 [a; b] vm = Throw e
           ∧ msg e = "Cannot test equality of functions")
     ↔ Value_t a = T_FUNCTION ∧ Value_t b = T_FUNCTION)
  ∧ (a = NULL_TYPE → b = NULL_TYPE →
     builtin_call loc 24 [a; b] vm
     = OK (PopFrame, set_scratch (BOOLEAN true) vm)).
Proof.
  simpl. unfold builtin_primitiveEquals. split_and!.
  - intros Hne. by rewrite bool_decide_eq_true_2.
  - split.
    + intros (e & Hrun & Hmsg). case_bool_decide as Ht.
      * destruct a, b; simpl in *; try done.
      * destruct a, b; simpl in *; try done;
          injection Hrun as <-; simpl in Hmsg; done.
    + intros [Ha Hb]. destruct a, b; try done. simpl.
      by eexists.
  - intros -> ->. done.
Qed.
End PrimitiveEquals.

Module PrimitiveEqualsWitness.
Import Demo ObjectExample.

(** A function against a number: [false], no error. *)
Lemma C10_witness :
  Value_t (FUNCTION {| Closure.addr := 0; Closure.upValues := ∅;
                       Closure.self := None; Closure.offset := 0;
                       Closure.params := []; Closure.body := None;
                       Closure.builtin := 0 |})
    ≠ Value_t (DOUBLE (Z_to_double 1))
  ∧ builtin_call loc0 24
      [FUNCTION {| Closure.addr := 0; Closure.upValues := ∅;
                   Closure.self := None; Closure.offset := 0;
                   Closure.params := []; Closure.body := None;
                   Closure.builtin := 0 |};
       DOUBLE (Z_to_double 1)] vm0
    = OK (PopFrame, set_scratch (BOOLEAN false) vm0).
Proof.
  split; [discriminate|].
  apply (proj1 (C10_primitive_equals loc0 _ _ vm0)). discriminate.
Defined.
End PrimitiveEqualsWitness.

(** * The stack across the driver *)

(** ** Operations that leave a member of the state alone *)

#[export] Instance stack_untouched : Untouched stack.
Proof. by split. Qed.

#[export] Instance heap_thunks_untouched : Untouched heap_thunks.
Proof. by split. Qed.

Section Preserves.
Context {X : Type} (proj : Interpreter → X).

Lemma preserves_ret {A} (a : A) : preserves proj (ret a).
Proof. by intros vm. Qed.

Lemma preserves_bind {A B} (m : M A) (k : A → M B) :
  preserves proj m → (∀ a, preserves proj (k a)) →
  preserves proj (bind m k).
Proof.
  intros Hm Hk vm. specialize (Hm vm). unfold bind.
  destruct (m vm) as [[a vm']| | | | |]; try done.
  specialize (Hk a vm').
  destruct (k a vm') as [[b vm'']| | | | |]; try done. congruence.
Qed.

Lemma preserves_gets {A} (f : Interpreter → A) : preserves proj (gets f).
Proof. by intros vm. Qed.

Lemma preserves_modify g :
  (∀ vm, proj (g vm) = proj vm) → preserves proj (modify g).
Proof. intros Hg vm. apply Hg. Qed.

Lemma preserves_abort {A} w : preserves proj (@abort A w).
Proof. by intros vm. Qed.

Lemma preserves_undefined {A} : preserves proj (@undefined A).
Proof. by intros vm. Qed.

Lemma preserves_throw_static {A} w : preserves proj (@throw_static A w).
Proof. by intros vm. Qed.

Lemma preserves_lift {A} (r : Result A) : preserves proj (lift r).
Proof. intros vm. unfold lift. by destruct r. Qed.

Lemma preserves_foldM {A B} (f : B → A → M B) b l :
  (∀ b x, preserves proj (f b x)) → preserves proj (foldM f b l).
Proof.
  intros Hf. revert b. induction l as [|x l IH]; intros b; simpl.
  - apply preserves_ret.
  - apply preserves_bind; [apply Hf|apply IH].
Qed.

Context `{Externals}.

Lemma preserves_throw {A} loc m : preserves proj (@throw _ A loc m).
Proof. by intros vm. Qed.

Lemma preserves_getScratch : preserves proj getScratch.
Proof. apply preserves_gets. Qed.

Lemma preserves_stackSize : preserves proj stackSize.
Proof. apply preserves_gets. Qed.

Lemma preserves_getSelfBinding : preserves proj getSelfBinding.
Proof. apply preserves_gets. Qed.

Lemma preserves_lookUpVar id : preserves proj (lookUpVar id).
Proof. apply preserves_gets. Qed.

Lemma preserves_getThunk r : preserves proj (getThunk r).
Proof. intros vm. unfold getThunk. by destruct (_ !! _). Qed.

Lemma preserves_top : preserves proj top.
Proof. intros vm. unfold top. by destruct (Stack.top _). Qed.

Context `{!Untouched proj}.

Lemma preserves_setScratch v : preserves proj (setScratch v).
Proof. apply preserves_modify. intros vm. apply untouched_scratch. Qed.

Lemma preserves_freshAddr : preserves proj freshAddr.
Proof. intros vm. apply untouched_heap_next. Qed.
End Preserves.

Section Neutral.
Context `{Externals}.

Lemma neutral_makeThunk n s o b : neutral (makeThunk n s o b).
Proof. by intros vm. Qed.

Lemma neutral_modifyThunk r g : neutral (modifyThunk r g).
Proof. intros vm. unfold modifyThunk. by destruct (_ !! _). Qed.

Lemma heap_neutral_newFrame f : heap_neutral (newFrame f).
Proof. by intros vm. Qed.

Lemma heap_neutral_pop : heap_neutral pop.
Proof. intros vm. unfold pop. by destruct (Stack.pop _). Qed.

Lemma heap_neutral_modifyTop g : heap_neutral (modifyTop g).
Proof. intros vm. unfold modifyTop. by destruct (Stack.stack _). Qed.

Lemma heap_neutral_newCall loc context self offset up :
  heap_neutral (newCall loc context self offset up).
Proof. intros vm. unfold newCall. by destruct (Stack_newCall _ _ _ _ _ _ _). Qed.
End Neutral.

(** Composite operations that leave a member alone are recognised by
    going through their code. *)
Ltac preserves_step :=
  first
    [ apply preserves_bind; [|intros ?]
    | apply preserves_ret
    | apply preserves_gets
    | apply preserves_abort
    | apply preserves_undefined
    | apply preserves_throw_static
    | apply preserves_throw
    | apply preserves_lift
    | apply preserves_getScratch
    | apply preserves_setScratch
    | apply preserves_stackSize
    | apply preserves_getSelfBinding
    | apply preserves_lookUpVar
    | apply preserves_getThunk
    | apply preserves_top
    | apply preserves_freshAddr
    | apply neutral_makeThunk
    | apply neutral_modifyThunk
    | apply heap_neutral_newFrame
    | apply heap_neutral_pop
    | apply heap_neutral_modifyTop
    | apply heap_neutral_newCall
    | apply preserves_foldM; intros ? ?
    | apply preserves_modify; intros ?; first [reflexivity | apply untouched_cachedImports]
    | match goal with
      | |- preserves _ (match ?x with _ => _ end) => destruct x
      | |- preserves _ (if ?x then _ else _) => destruct x
      | |- preserves _ (let '(_, _) := ?x in _) => destruct x
      end
    | assumption ].

Ltac solve_preserves := repeat preserves_step.

Section PreservesOps.
Context `{Externals} {X : Type} (proj : Interpreter → X).
Context `{!Untouched proj}.

Lemma preserves_capture fv : preserves proj (capture fv).
Proof. unfold capture. solve_preserves. Qed.

Lemma preserves_makeDoubleCheck loc v :
  preserves proj (makeDoubleCheck loc v).
Proof. unfold makeDoubleCheck. solve_preserves. Qed.

Lemma preserves_makeClosure env self off ps body :
  preserves proj (makeClosure env self off ps body).
Proof. unfold makeClosure. solve_preserves. Qed.

Lemma preserves_makeBuiltin b ps : preserves proj (makeBuiltin b ps).
Proof. unfold makeBuiltin. solve_preserves. Qed.

Lemma preserves_makeSimpleObject env fs asserts :
  preserves proj (makeSimpleObject env fs asserts).
Proof. unfold makeSimpleObject. solve_preserves. Qed.

Lemma preserves_makeComprehensionObject env v id cv :
  preserves proj (makeComprehensionObject env v id cv).
Proof. unfold makeComprehensionObject. solve_preserves. Qed.

Lemma preserves_validateBuiltinArgs loc b args ps :
  preserves proj (validateBuiltinArgs loc b args ps).
Proof. unfold validateBuiltinArgs. solve_preserves. Qed.

Lemma preserves_binary_same_type loc op l r :
  preserves proj (binary_same_type loc op l r).
Proof.
  unfold binary_same_type, binary_double, binary_string, two_longs.
  destruct l, r; try apply preserves_undefined; destruct op;
    solve_preserves; apply preserves_makeDoubleCheck.
Qed.

Lemma preserves_importString loc path :
  preserves proj (importString loc path).
Proof. unfold importString. solve_preserves. Qed.

Lemma preserves_frontend fn src : preserves proj (frontend fn src).
Proof. unfold frontend. solve_preserves. Qed.

Lemma preserves_import loc path : preserves proj (import loc path).
Proof.
  unfold import. apply preserves_bind; [apply preserves_importString|].
  intros ?. apply preserves_frontend.
Qed.

Lemma preserves_thunk_contents ths : preserves proj (thunk_contents ths).
Proof. unfold thunk_contents. solve_preserves. Qed.

Lemma preserves_one_double loc b args :
  preserves proj (one_double loc b args).
Proof.
  unfold one_double. apply preserves_bind;
    [apply preserves_validateBuiltinArgs|]. intros ?. solve_preserves.
Qed.
End PreservesOps.

Lemma neutral_scratch_push_back `{Externals} th :
  neutral (scratch_push_back th).
Proof. unfold scratch_push_back. solve_preserves. Qed.

(** The operations the cases are made of, next to the primitives. *)
Ltac preserves_op :=
  solve [ solve_preserves
        | apply preserves_capture; tc_solve
        | apply preserves_makeDoubleCheck; tc_solve
        | apply preserves_makeClosure; tc_solve
        | apply preserves_makeBuiltin; tc_solve
        | apply preserves_makeSimpleObject; tc_solve
        | apply preserves_makeComprehensionObject; tc_solve
        | apply preserves_validateBuiltinArgs; tc_solve
        | apply preserves_binary_same_type; tc_solve
        | apply preserves_importString; tc_solve
        | apply preserves_import; tc_solve
        | apply preserves_frontend; tc_solve
        | apply neutral_scratch_push_back
        | apply preserves_thunk_contents; tc_solve
        | apply preserves_one_double; tc_solve ].

(** ** The stack invariant and the primitives *)

Lemma GInv_mono strict below b k k' vm :
  (k' ≤ k)%nat → GInv strict below b k vm → GInv strict below b k' vm.
Proof.
  intros Hk (upper & ? & ? & ? & ?). exists upper.
  split_and!; [done|lia|done|done].
Qed.

Lemma solid_blocking f : solid f → blocking f.
Proof.
  intros [Hk Ht]. split; [done|]. unfold trimmable, Frame.isCall.
  case_bool_decide as Hc; [|done]. by rewrite (Ht Hc).
Qed.

Lemma top_solid_blocks l : top_solid l → top_blocks l.
Proof. destruct l; [done|]. apply solid_blocking. Qed.

Lemma upper_ok_weaken strict f : solid f → upper_ok strict f.
Proof. by destruct strict. Qed.

Lemma MInv_SInv below b k vm : MInv below b k vm → SInv below b k vm.
Proof.
  intros (upper & ? & ? & _ & ?). exists upper.
  split_and!; try done. by apply Forall_true.
Qed.

(** The trim stops at a blocking frame at the latest. *)
Lemma trim_above upper below :
  top_blocks below →
  match Stack.trim (upper ++ below) with
  | Some l => ∃ upper', l = upper' ++ below ∧ upper' `suffix_of` upper
  | None => True
  end.
Proof.
  intros Hb. induction upper as [|f upper IH]; simpl.
  - destruct below as [|f below]; simpl; [done|].
    destruct Hb as [Hk Ht]. unfold trimmable, Frame.isCall in Ht.
    destruct (Frame.kind f); try done.
    rewrite bool_decide_eq_true_2 in Ht by done. simpl in Ht.
    destruct (Frame.tailCall f); simpl in *; [|done].
    apply bool_decide_eq_false in Ht.
    rewrite bool_decide_eq_true_2; [done|].
    destruct (Frame.thunks f); [done|simpl; lia].
  - destruct (Frame.kind f); try done.
    + destruct (negb _ || _); [done|]. exists upper.
      split; [done|]. by apply suffix_cons_r.
    + destruct (Stack.trim (upper ++ below)); [|done].
      destruct IH as (upper' & -> & Hs). exists upper'.
      split; [done|]. by apply suffix_cons_r.
Qed.

Lemma trim_blocked l : top_blocks l → Stack.trim l = None.
Proof.
  destruct l as [|f l]; [done|]. intros Hb.
  destruct Hb as [Hk Hb]. unfold trimmable, Frame.isCall in Hb. simpl.
  destruct (Frame.kind f); try done.
  rewrite bool_decide_eq_true_2 in Hb by done. simpl in Hb.
  destruct (Frame.tailCall f); simpl in *; [|done].
  apply bool_decide_eq_false in Hb.
  rewrite bool_decide_eq_true_2; [done|].
  destruct (Frame.thunks f); [done|simpl; lia].
Qed.

(** Discharges what a primitive asks of the frame it writes. *)
Ltac solve_ok :=
  first
    [ exact I
    | intros; exact I
    | match goal with
      | |- upper_ok ?s _ =>
          destruct s; [|exact I]; split; simpl; [done|done]
      | |- ∀ f, upper_ok ?s f → upper_ok ?s _ =>
          let f := fresh in
          let Hf := fresh in
          intros f Hf; destruct s; [|exact I];
          destruct Hf; destruct f; split; simpl in *; done
      end ].

Section Invariant.
Context `{Externals}.
Variable below : list Frame.
Variable b : nat.
Hypothesis below_blocks : top_blocks below.
Hypothesis b_le : (b ≤ length below)%nat.

(** An operation that leaves the stack alone keeps every property of
    the stack. *)
Lemma hoare_neutral {A} (m : M A) strict k :
  neutral m →
  hoare (GInv strict below b k) m (fun _ => GInv strict below b k).
Proof.
  intros Hm vm (upper & Hf & Hk & Hl). specialize (Hm vm).
  destruct (m vm) as [[a vm']| | | | |]; try done.
  exists upper. unfold frames in *. by rewrite Hm.
Qed.

Lemma hoare_newFrame strict f k :
  upper_ok strict f →
  hoare (GInv strict below b k) (newFrame f)
    (fun _ => GInv strict below b (S k)).
Proof.
  intros Hok vm (upper & Hf & Hk & Hu & Hl). simpl.
  exists (f :: upper). unfold frames in *. simpl. rewrite Hf. simpl.
  split_and!; [done|lia|by constructor|]. rewrite length_app. lia.
Qed.

Lemma hoare_pop strict k :
  hoare (GInv strict below b (S k)) pop (fun _ => GInv strict below b k).
Proof.
  intros vm (upper & Hf & Hk & Hu & Hl).
  unfold frames, pop, Stack.pop in *.
  rewrite Hf. destruct upper as [|f upper]; simpl in *; [lia|].
  exists upper. unfold frames. apply Forall_cons in Hu as [_ Hu].
  split_and!; [by destruct (Frame.isCall f)|lia|done|].
  destruct (Frame.isCall f); simpl; rewrite length_app; lia.
Qed.

Lemma hoare_top strict k :
  hoare (GInv strict below b k) top (fun _ => GInv strict below b k).
Proof.
  intros vm Hinv. unfold top. by destruct (Stack.top (stack vm)).
Qed.

Lemma hoare_modifyTop strict g k :
  (∀ f, upper_ok strict f → upper_ok strict (g f)) →
  hoare (GInv strict below b (S k)) (modifyTop g)
    (fun _ => GInv strict below b (S k)).
Proof.
  intros Hg vm (upper & Hf & Hk & Hu & Hl). unfold frames, modifyTop in *.
  rewrite Hf. destruct upper as [|f upper]; simpl in *; [lia|].
  apply Forall_cons in Hu as [Hu1 Hu].
  exists (g f :: upper). unfold frames. simpl.
  split_and!; [done|lia|constructor; auto|]. rewrite length_app. lia.
Qed.

Lemma call_frame_ok strict loc context self offset up :
  upper_ok strict (call_frame loc context self offset up).
Proof. apply upper_ok_weaken. split; simpl; done. Qed.

Lemma hoare_newCall strict loc context self offset up k :
  hoare (GInv strict below b k) (newCall loc context self offset up)
    (fun _ => GInv strict below b 1).
Proof.
  intros vm (upper & Hf & Hk & Hu & Hl). unfold frames in *.
  rewrite newCall_eq. simpl. case_bool_decide; [done|].
  unfold Stack.tailCallTrimStack.
  pose proof (trim_above upper below below_blocks) as Ht.
  rewrite <- Hf in Ht.
  destruct (Stack.trim (Stack.stack (stack vm))) as [l|].
  - destruct Ht as (upper' & -> & Hs).
    exists (call_frame loc context self offset up :: upper').
    unfold frames. simpl. split_and!; [done|lia| |].
    + constructor; [apply call_frame_ok|].
      destruct Hs as [pre ->]. by apply Forall_app in Hu as [_ Hu].
    + rewrite !length_app. lia.
  - exists (call_frame loc context self offset up :: upper).
    unfold frames. simpl. rewrite Hf. split_and!; [done|lia| |].
    + constructor; [apply call_frame_ok|done].
    + rewrite !length_app. lia.
Qed.

End Invariant.

(** Going through the code of a case, one operation at a time. *)
Ltac hoare_close :=
  simpl; try (eapply GInv_mono; [|eassumption]; lia);
  try (eapply GInv_mono; [|eassumption]; simpl; lia); eauto.

Ltac side_ok := first [assumption | solve_ok].

(** Extended as more operations get their rule. *)
Ltac hoare_extra := fail.

Ltac hoare_prim :=
  first
    [ apply hoare_newFrame; side_ok
    | apply hoare_pop; side_ok
    | apply hoare_top; side_ok
    | apply hoare_modifyTop; side_ok
    | apply hoare_newCall; side_ok
    | hoare_extra
    | apply hoare_neutral; preserves_op ].

(** Rules for whole phrases, tried before the phrase is taken apart. *)
Ltac hoare_whole := fail.

Ltac hoare_step :=
  cbv beta zeta;
  first [ hoare_whole | lazymatch goal with
  | |- hoare _ (ret _) _ => apply hoare_ret; intros ? ?; hoare_close
  | |- hoare _ (throw _ _) _ => apply hoare_throw
  | |- hoare _ (abort _) _ => apply hoare_abort
  | |- hoare _ undefined _ => apply hoare_undefined
  | |- hoare _ (throw_static _) _ => apply hoare_throw_static
  | |- hoare _ (match ?x with _ => _ end) _ => destruct x
  | |- hoare _ (if ?x then _ else _) _ => destruct x
  | |- hoare _ (let '(_, _) := ?x in _) _ => destruct x
  | |- hoare (GInv ?s ?bl ?bb ?k) (foldM _ _ _) _ =>
      eapply hoare_post;
      [apply (hoare_foldM_inv (GInv s bl bb k)); intros ? ?
      |intros ? ?; hoare_close]
  | |- hoare (GInv ?s ?bl ?bb ?k) (bind ?m _) _ =>
      first
        [ eapply hoare_bind; [hoare_prim|intros ?]
        | eapply (hoare_bind _ _ (fun _ => GInv s bl bb k)); [|intros ?] ]
  | |- hoare _ _ _ =>
      eapply hoare_post; [hoare_prim|intros ? ?; hoare_close]
  end ].

Ltac hoare_auto := repeat hoare_step.

Section Cases.
Context `{Externals}.
Variable below : list Frame.
Variable b : nat.
Hypothesis below_blocks : top_blocks below.
Hypothesis b_le : (b ≤ length below)%nat.

Lemma hoare_force_thunk loc r th k :
  hoare (SInv below b k) (force_thunk loc r th) (after_case below b).
Proof. unfold force_thunk. hoare_auto. Qed.

Lemma hoare_eval_ast e :
  hoare (SInv below b 0) (eval_ast e) (fun _ => SInv below b 0).
Proof. destruct e; simpl; hoare_auto. Qed.

Lemma hoare_objectInvariants strict curr self counter k :
  hoare (GInv strict below b (S k)) (objectInvariants curr self counter)
    (fun _ => GInv strict below b (S k)).
Proof.
  revert counter.
  induction curr as [a up fields asserts|a up value id cv|a l IHl r IHr];
    intros counter; simpl.
  - hoare_auto.
  - hoare_auto.
  - eapply hoare_bind; [apply IHr|]. intros ?. apply IHl.
Qed.

Lemma hoare_objectInvariants_ptr strict curr self counter k :
  hoare (GInv strict below b (S k))
    (objectInvariants_ptr curr self counter)
    (fun _ => GInv strict below b (S k)).
Proof.
  destruct curr; simpl; [apply hoare_objectInvariants|hoare_auto].
Qed.

Lemma hoare_objectIndex strict loc obj f offset k :
  hoare (GInv strict below b k) (objectIndex loc obj f offset)
    (fun _ => GInv strict below b 1).
Proof.
  unfold objectIndex.
  destruct (findObject_ptr f obj offset) as [[[| |]|] [found_at self]];
    hoare_auto.
Qed.

Lemma hoare_builtin_call loc builtin args :
  hoare (SInv below b 1) (builtin_call loc builtin args)
    (after_case below b).
Proof.
  unfold builtin_call.
  destruct builtin as [|p|p]; [| |hoare_auto];
    [unfold builtin_makeArray; hoare_auto|].
  repeat (destruct p as [p|p|]; try (hoare_auto; fail));
    unfold builtin_unary_math, builtin_type, builtin_filter,
      builtin_objectHasEx, builtin_length, builtin_objectFieldsEx,
      builtin_codepoint, builtin_char, builtin_extVar,
      builtin_primitiveEquals;
    hoare_auto.
Qed.

Ltac hoare_extra ::=
  first
    [ apply hoare_objectIndex; side_ok
    | apply hoare_objectInvariants_ptr; side_ok
    | apply hoare_builtin_call; side_ok
    | apply hoare_force_thunk; side_ok ].

Lemma hoare_frame_apply_target f :
  hoare (SInv below b 1) (frame_apply_target f) (after_case below b).
Proof. unfold frame_apply_target. hoare_auto. Qed.

Lemma hoare_frame_binary_left f :
  hoare (SInv below b 1) (frame_binary_left f) (after_case below b).
Proof. unfold frame_binary_left. hoare_auto. Qed.

Lemma hoare_frame_binary_right f :
  hoare (SInv below b 1) (frame_binary_right f) (after_case below b).
Proof. unfold frame_binary_right. hoare_auto. Qed.

Lemma hoare_frame_builtin_filter f :
  hoare (SInv below b 1) (frame_builtin_filter f) (after_case below b).
Proof. unfold frame_builtin_filter, push_thunk. hoare_auto. Qed.

Lemma hoare_frame_builtin_force_thunks f :
  hoare (SInv below b 1) (frame_builtin_force_thunks f)
    (after_case below b).
Proof. unfold frame_builtin_force_thunks. hoare_auto. Qed.

Lemma hoare_frame_call f :
  hoare (SInv below b 1) (frame_call f) (after_case below b).
Proof. unfold frame_call. hoare_auto. Qed.

Lemma hoare_frame_error f :
  hoare (SInv below b 1) (frame_error f) (after_case below b).
Proof. unfold frame_error. hoare_auto. Qed.

Lemma hoare_frame_if f :
  hoare (SInv below b 1) (frame_if f) (after_case below b).
Proof. unfold frame_if. hoare_auto. Qed.

Lemma hoare_frame_super_index f :
  hoare (SInv below b 1) (frame_super_index f) (after_case below b).
Proof. unfold frame_super_index. hoare_auto. Qed.

Lemma hoare_frame_index_index f :
  hoare (SInv below b 1) (frame_index_index f) (after_case below b).
Proof. unfold frame_index_index. hoare_auto. Qed.

Lemma hoare_frame_index_target f :
  hoare (SInv below b 1) (frame_index_target f) (after_case below b).
Proof. unfold frame_index_target. hoare_auto. Qed.

Lemma hoare_frame_invariants init f :
  hoare (SInv below b 1) (frame_invariants init f) (after_case below b).
Proof. unfold frame_invariants. hoare_auto. Qed.

Lemma hoare_frame_local f :
  hoare (SInv below b 1) (frame_local f) (after_case below b).
Proof. unfold frame_local. hoare_auto. Qed.

Lemma hoare_frame_object f :
  hoare (SInv below b 1) (frame_object f) (after_case below b).
Proof. unfold frame_object. hoare_auto. Qed.

Lemma hoare_frame_object_comp_array f :
  hoare (SInv below b 1) (frame_object_comp_array f) (after_case below b).
Proof. unfold frame_object_comp_array. hoare_auto. Qed.

Lemma hoare_frame_object_comp_element f :
  hoare (SInv below b 1) (frame_object_comp_element f)
    (after_case below b).
Proof. unfold frame_object_comp_element. hoare_auto. Qed.

Lemma hoare_frame_unary f :
  hoare (SInv below b 1) (frame_unary f) (after_case below b).
Proof. unfold frame_unary. hoare_auto. Qed.
End Cases.

(** ** The driver *)

Ltac hoare_extra ::=
  first
    [ apply hoare_objectIndex; side_ok
    | apply hoare_objectInvariants_ptr; side_ok
    | match goal with
      | H : context [hoare] |- _ => apply H; side_ok
      end ].

Lemma hoare_top_read `{Externals} P :
  hoare P top (fun f vm => P vm ∧ Stack.top (stack vm) = Some f).
Proof.
  intros vm HP. unfold top. by destruct (Stack.top (stack vm)) eqn:Ht.
Qed.

(** A property proved from any stack as the base holds above any base. *)
Lemma hoare_rebase `{Externals} {A} (m : M A) S0 b k :
  (∀ F, top_solid F → (b ≤ length F)%nat →
     hoare (MInv F b 0) m (fun _ => MInv F b 0)) →
  top_solid S0 → (b ≤ length S0)%nat →
  hoare (MInv S0 b k) m (fun _ => MInv S0 b k).
Proof.
  intros Hm HS Hb vm (upper & Hf & Hk & Hu & Hl).
  assert (top_solid (frames vm)) as Htop.
  { rewrite Hf. destruct upper as [|f upper]; [done|].
    by apply Forall_cons in Hu as [? _]. }
  assert (b ≤ length (frames vm))%nat as Hlen.
  { rewrite Hf, length_app. lia. }
  specialize (Hm (frames vm) Htop Hlen vm).
  destruct (m vm) as [[a vm']| | | | |]; try done.
  destruct Hm as (X & HX & _ & HXs & Hl').
  { exists []. split_and!; [done|simpl; lia|constructor|done]. }
  exists (X ++ upper). rewrite HX, Hf, app_assoc.
  split_and!; [done|rewrite length_app; lia|by apply Forall_app|done].
Qed.

Section Driver.
Context `{Externals}.

Lemma evaluate_S fuel e init :
  evaluate (S fuel) e init =
    (do next <- eval_ast e;
     match next with
     | Goto e => evaluate fuel e init
     | Fall => unwind fuel init
     end).
Proof. done. Qed.

Lemma unwind_S fuel init :
  unwind (S fuel) init =
    (do sz <- stackSize;
     if bool_decide (init < sz)%nat then
       do jump <-
         unwind_frame (fun loc => manifestJson fuel loc false []) init;
       match jump with
       | Recurse e => evaluate fuel e init
       | PopFrame => pop;; unwind fuel init
       | ReplaceFrame => unwind fuel init
       end
     else ret tt).
Proof. done. Qed.

(** [evaluate] from the current size, above a base of solid frames. *)
Lemma hoare_evaluate_here fuel S0 b k body :
  evaluate_ok fuel → top_solid S0 → (b ≤ length S0)%nat →
  hoare (MInv S0 b (S k)) (do sz <- stackSize; evaluate fuel body sz)
    (fun _ => MInv S0 b (S k)).
Proof.
  intros HE HS Hb vm (upper & Hf & Hk & Hu & Hl).
  unfold bind, stackSize, gets. simpl.
  assert (top_blocks (frames vm)) as Htop.
  { rewrite Hf. destruct upper as [|f upper]; [simpl in Hk; lia|].
    apply solid_blocking. by apply Forall_cons in Hu as [? _]. }
  assert (b ≤ length (frames vm))%nat as Hlen.
  { rewrite Hf, length_app. lia. }
  specialize (HE (frames vm) b body Htop Hlen vm).
  unfold Stack.size. fold (frames vm).
  destruct (evaluate fuel body (length (frames vm)) vm)
    as [[a vm']| | | | |]; try done.
  destruct HE as [HF Hl'].
  { exists []. split_and!; [done|simpl; lia|constructor|done]. }
  exists upper. by rewrite HF.
Qed.

Lemma hoare_evaluate_then {B} fuel S0 b k body (K : unit → M B) Q :
  evaluate_ok fuel → top_solid S0 → (b ≤ length S0)%nat →
  hoare (MInv S0 b (S k)) (K tt) Q →
  hoare (MInv S0 b (S k))
    (do sz <- stackSize; do x <- evaluate fuel body sz; K x) Q.
Proof.
  intros HE HS Hb HK vm Hpre.
  pose proof (hoare_evaluate_here fuel S0 b k body HE HS Hb vm Hpre)
    as Hev.
  unfold bind, stackSize, gets in *. simpl in *.
  destruct (evaluate fuel body (Stack.size (stack vm)) vm)
    as [[[] vm']| | | | |]; try done.
  by apply HK.
Qed.

Ltac hoare_whole ::=
  match goal with
  | |- hoare _ (bind stackSize (fun sz => evaluate _ _ sz)) _ =>
      eapply hoare_post;
      [apply hoare_evaluate_here; side_ok|intros ? ?; hoare_close]
  | |- hoare _ (bind stackSize (fun sz => bind (evaluate _ _ sz) _)) _ =>
      eapply hoare_evaluate_then; [side_ok|side_ok|side_ok|]
  end.

Lemma hoare_manifest_force fuel S0 b k loc r thunk :
  evaluate_ok fuel → top_solid S0 → (b ≤ length S0)%nat →
  hoare (MInv S0 b k) (manifest_force (evaluate fuel) loc r thunk)
    (fun _ => MInv S0 b 1).
Proof.
  intros HE HS Hb. unfold manifest_force.
  pose proof (top_solid_blocks _ HS) as HSb.
  hoare_auto.
Qed.

Ltac hoare_extra ::=
  first
    [ apply hoare_objectIndex; side_ok
    | apply hoare_objectInvariants_ptr; side_ok
    | apply hoare_manifest_force; side_ok
    | match goal with
      | H : context [hoare] |- _ => apply H; side_ok
      end ].

Lemma hoare_frame_string_concat below b toString f :
  (b ≤ length below)%nat →
  (∀ F loc, top_solid F → (b ≤ length F)%nat →
     hoare (MInv F b 0) (toString loc) (fun _ => MInv F b 0)) →
  Frame.kind f = FRAME_STRING_CONCAT →
  hoare (fun vm => SInv below b 1 vm ∧ Stack.top (stack vm) = Some f)
    (frame_string_concat toString f) (after_case below b).
Proof.
  intros Hb Hts Hkind vm [(upper & Hf & Hk & _ & Hl) Htop].
  set (F := frames vm).
  assert (top_solid F) as HF.
  { unfold F, frames. unfold Stack.top in Htop.
    destruct (Stack.stack (stack vm)) as [|f' l]; [done|].
    simpl in Htop. injection Htop as ->. split; by rewrite Hkind. }
  assert (b ≤ length F)%nat as HbF.
  { unfold F. rewrite Hf, length_app. lia. }
  assert (hoare (MInv F b 0) (frame_string_concat toString f)
            (fun _ => MInv F b 0)) as Hc.
  { pose proof (fun loc => Hts F loc HF HbF) as Hts'.
    clear Hts. unfold frame_string_concat. hoare_auto. }
  specialize (Hc vm).
  destruct (frame_string_concat toString f vm) as [[j vm']| | | | |];
    try done.
  destruct Hc as (X & HX & _ & _ & Hl').
  { exists []. split_and!; [done|simpl; lia|constructor|done]. }
  assert (SInv below b 1 vm') as Hinv.
  { exists (X ++ upper). unfold F in HX. rewrite HX, Hf, app_assoc.
    split_and!; [done|rewrite length_app; lia|by apply Forall_true|done]. }
  destruct j; simpl; try done; (apply (GInv_mono _ _ _ 1); [lia|done]).
Qed.

Lemma hoare_unwind_frame below b toString init :
  top_blocks below → (b ≤ length below)%nat →
  (∀ F loc, top_solid F → (b ≤ length F)%nat →
     hoare (MInv F b 0) (toString loc) (fun _ => MInv F b 0)) →
  hoare (SInv below b 1) (unwind_frame toString init)
    (after_case below b).
Proof.
  intros Hbl Hb Hts. unfold unwind_frame.
  eapply hoare_bind; [apply hoare_top_read|]. intros f.
  destruct (Frame.kind f) eqn:Hkind;
    first
      [ by apply hoare_frame_string_concat
      | eapply hoare_pre; [|intros ? [Hp _]; exact Hp];
        first
          [ by apply hoare_frame_apply_target
          | by apply hoare_frame_binary_left
          | by apply hoare_frame_binary_right
          | by apply hoare_frame_builtin_filter
          | by apply hoare_frame_builtin_force_thunks
          | by apply hoare_frame_call
          | by apply hoare_frame_error
          | by apply hoare_frame_if
          | by apply hoare_frame_super_index
          | by apply hoare_frame_index_index
          | by apply hoare_frame_index_target
          | by apply hoare_frame_invariants
          | by apply hoare_frame_local
          | by apply hoare_frame_object
          | by apply hoare_frame_object_comp_array
          | by apply hoare_frame_object_comp_element
          | by apply hoare_frame_unary ] ].
Qed.

Lemma evaluate_step fuel :
  evaluate_ok fuel → unwind_ok fuel → evaluate_ok (S fuel).
Proof.
  intros HE HU below b e Hbl Hb. rewrite evaluate_S.
  eapply hoare_bind; [by apply hoare_eval_ast|].
  intros [e'|]; [by apply HE|by apply HU].
Qed.

Lemma unwind_step fuel :
  evaluate_ok fuel → unwind_ok fuel → manifestJson_ok fuel →
  unwind_ok (S fuel).
Proof.
  intros HE HU HM below b Hbl Hb. rewrite unwind_S.
  eapply (hoare_bind _ _
            (fun sz vm => SInv below b 0 vm ∧ sz = length (frames vm))).
  { intros vm Hp. by simpl. }
  intros sz. case_bool_decide as Hsz.
  - eapply (hoare_bind _ _ (after_case below b)).
    + eapply hoare_pre; [apply hoare_unwind_frame; try done|].
      * intros F loc HF HbF. by apply HM.
      * intros vm [(upper & Hf & _ & Hu & Hl) ->]. exists upper.
        split_and!; try done. rewrite Hf, length_app in Hsz. lia.
    + intros [e| |]; simpl.
      * by apply HE.
      * eapply hoare_bind; [by apply hoare_pop|]. intros ?. by apply HU.
      * by apply HU.
  - apply hoare_ret. intros vm [(upper & Hf & _ & _ & Hl) ->].
    split; [|done]. rewrite Hf, length_app in Hsz.
    destruct upper; [done|simpl in Hsz; lia].
Qed.

Lemma hoare_modifyTop_exact g f F b :
  (b ≤ S (length F))%nat →
  hoare (stack_is (f :: F) b) (modifyTop g)
    (fun _ => stack_is (g f :: F) b).
Proof.
  intros Hb vm [Hf Hl]. unfold modifyTop, frames in *. rewrite Hf.
  split; simpl; [done|]. lia.
Qed.

(** The end of [runInvariants]: the first assertion is evaluated down
    to the frame of the invariants, which stays. *)
Lemma hoare_runInvariants_tail fuel S0 b loc r self thunk :
  evaluate_ok fuel → (b ≤ length S0)%nat →
  hoare (MInv S0 b 1)
    (do initial_stack_size <- stackSize;
     modifyTop (Frame.set_elementId 1);;
     modifyTop (Frame.set_self self);;
     newCall loc (Some (EThunk r)) (Thunk.self thunk)
       (Thunk.offset thunk) (Thunk.upValues thunk);;
     match Thunk.body thunk with
     | Some body => evaluate fuel body initial_stack_size
     | None => undefined
     end)
    (fun _ => MInv S0 b 1).
Proof.
  intros HE Hb vm (upper & Hf & Hk & Hu & Hl).
  destruct upper as [|f0 upper]; [simpl in Hk; lia|].
  apply Forall_cons in Hu as [Hf0 Hu].
  set (F := Frame.set_self self (Frame.set_elementId 1 f0)
              :: upper ++ S0).
  assert (solid (Frame.set_self self (Frame.set_elementId 1 f0)))
    as Hsolid by (by destruct f0).
  assert (top_blocks F) as HF by (by apply solid_blocking).
  assert (b ≤ length (upper ++ S0))%nat as Hb'
    by (rewrite length_app; lia).
  assert (b ≤ length F)%nat as HbF by (simpl; lia).
  assert (hoare (stack_is (f0 :: upper ++ S0) b)
            (do initial_stack_size <- stackSize;
             modifyTop (Frame.set_elementId 1);;
             modifyTop (Frame.set_self self);;
             newCall loc (Some (EThunk r)) (Thunk.self thunk)
               (Thunk.offset thunk) (Thunk.upValues thunk);;
             match Thunk.body thunk with
             | Some body => evaluate fuel body initial_stack_size
             | None => undefined
             end)
            (fun _ => stack_is F b)) as Ht.
  { eapply (hoare_bind _ _
              (fun sz vm => stack_is (f0 :: upper ++ S0) b vm
                            ∧ sz = length F)).
    { intros vm1 [Hf1 Hl1]. simpl. split; [done|].
      unfold Stack.size. fold (frames vm1). by rewrite Hf1. }
    intros sz vm1 [Hpre ->]. revert vm1 Hpre.
    eapply hoare_bind; [apply hoare_modifyTop_exact; lia|]. intros ?.
    eapply hoare_bind; [apply hoare_modifyTop_exact; lia|]. intros ?.
    eapply hoare_bind.
    { eapply hoare_pre; [apply (hoare_newCall F b HF HbF false)|].
      intros vm1 [Hf1 Hl1]. exists [].
      split_and!; [done|apply le_n|constructor|done]. }
    intros ?. destruct (Thunk.body thunk) as [body|];
      [|apply hoare_undefined].
    eapply hoare_pre; [by apply HE|].
    intros vm1. apply GInv_mono. lia. }
  specialize (Ht vm (conj Hf Hl)).
  match goal with
  | |- match ?m vm with _ => _ end =>
      destruct (m vm) as [[a vm']| | | | |]; try done
  end.
  destruct Ht as [HF' Hl']. exists (Frame.set_self self
                                     (Frame.set_elementId 1 f0) :: upper).
  split_and!; [done|simpl; lia|by constructor|done].
Qed.

Lemma runInvariants_step fuel :
  evaluate_ok fuel → runInvariants_ok (S fuel).
Proof.
  intros HE S0 b loc self HS Hb.
  pose proof (top_solid_blocks _ HS) as HSb.
  pose proof (hoare_runInvariants_tail fuel S0 b loc) as Htail.
  simpl. hoare_step. hoare_step. hoare_step. hoare_step. hoare_step.
  hoare_step. hoare_step. hoare_step. hoare_step.
  eapply hoare_post; [by apply Htail|]. intros ? ?. apply GInv_mono. lia.
Qed.

Lemma manifestJson_step fuel :
  evaluate_ok fuel → manifestJson_ok fuel → runInvariants_ok fuel →
  manifestJson_ok (S fuel).
Proof.
  intros HE HM HR S0 b loc multiline indent HS Hb.
  pose proof (top_solid_blocks _ HS) as HSb.
  assert (∀ loc multiline indent k,
            hoare (MInv S0 b k) (manifestJson fuel loc multiline indent)
              (fun _ => MInv S0 b k)) as HM'.
  { intros. apply hoare_rebase; [|done|done]. intros. by apply HM. }
  assert (∀ loc self k,
            hoare (MInv S0 b k) (runInvariants fuel loc self)
              (fun _ => MInv S0 b k)) as HR'.
  { intros. apply hoare_rebase; [|done|done]. intros. by apply HR. }
  clear HM HR. simpl. hoare_auto.
Qed.

Theorem driver_ok fuel :
  evaluate_ok fuel ∧ unwind_ok fuel ∧ manifestJson_ok fuel
  ∧ runInvariants_ok fuel.
Proof.
  induction fuel as [|fuel (HE & HU & HM & HR)].
  - split_and!; repeat intro; exact I.
  - split_and!.
    + by apply evaluate_step.
    + by apply unwind_step.
    + by apply manifestJson_step.
    + by apply runInvariants_step.
Qed.
End Driver.

(** ** The stack across a call of [evaluate] *)

Section EvaluateStack.
Context `{Externals}.


(** The call of [jsonnet_vm_execute]: from the empty stack to the
    empty stack. *)
Lemma evaluate_top_level fuel ast_ ext_vars max_stack vm' :
  evaluate fuel ast_ 0 (Interpreter_make ext_vars max_stack)
  = OK (tt, vm') →
  frames vm' = [].
Proof.
  intros Hev. destruct (driver_ok fuel) as (HE & _).
  specialize (HE [] 0%nat ast_ I (le_n _)
                (Interpreter_make ext_vars max_stack)).
  simpl in HE. rewrite Hev in HE. apply HE.
  exists []. split_and!; [done|done|constructor|done].
Qed.

End EvaluateStack.

Module DriverWitness.
Import Demo DriverExample.

End DriverWitness.

(** * Thunks *)

Lemma thunks_kept_refl vm : thunks_kept vm vm.
Proof. intros r th Hr. by exists th. Qed.

Lemma thunks_kept_trans vm1 vm2 vm3 :
  thunks_kept vm1 vm2 → thunks_kept vm2 vm3 → thunks_kept vm1 vm3.
Proof.
  intros H12 H23 r th Hr.
  destruct (H12 r th Hr) as (th2 & Hr2 & Hf2 & Hc2).
  destruct (H23 r th2 Hr2) as (th3 & Hr3 & Hf3 & Hc3).
  exists th3. split_and!; [done|congruence|congruence].
Qed.

Lemma keeps_thunks_hoare {A} (m : M A) :
  keeps_thunks m ↔
  ∀ vm0, hoare (thunks_kept vm0) m (fun _ => thunks_kept vm0).
Proof.
  split.
  - intros Hm vm0 vm Hpre. specialize (Hm vm).
    destruct (m vm) as [[a vm']| | | | |]; try done.
    by eapply thunks_kept_trans.
  - intros Hm vm. apply (Hm vm vm), thunks_kept_refl.
Qed.

Lemma hoare_pure {A} (P : Interpreter → Prop) (φ : Prop) (m : M A) Q :
  (φ → hoare P m Q) → hoare (fun vm => P vm ∧ φ) m Q.
Proof. intros Hm vm [HP Hφ]. by apply Hm. Qed.

Section Kept.
Context `{Externals}.
Variable vm0 : Interpreter.

Lemma hoare_kept_preserve {A} (m : M A) :
  heap_neutral m →
  hoare (thunks_kept vm0) m (fun _ => thunks_kept vm0).
Proof.
  intros Hm vm Hpre. specialize (Hm vm).
  destruct (m vm) as [[a vm']| | | | |]; try done.
  intros r th Hr. rewrite Hm. by apply Hpre.
Qed.

Lemma hoare_kept_makeThunk n s o b :
  hoare (thunks_kept vm0) (makeThunk n s o b)
    (fun r vm => thunks_kept vm0 vm
                 ∧ (length (heap_thunks vm0) ≤ r)%nat).
Proof.
  intros vm Hpre. simpl. split.
  - intros r th Hr. destruct (Hpre r th Hr) as (th' & Hr' & ?).
    exists th'. split; [|done]. by apply lookup_app_l_Some.
  - destruct (decide (length (heap_thunks vm0) ≤ length (heap_thunks vm))%nat)
      as [|Hlt]; [done|].
    destruct (lookup_lt_is_Some_2 (heap_thunks vm0) (length (heap_thunks vm)))
      as [th Hth]; [lia|].
    destruct (Hpre _ _ Hth) as (th' & Hr' & _).
    apply lookup_lt_Some in Hr'. lia.
Qed.

Lemma hoare_kept_modifyThunk_same r g :
  (∀ th, Thunk.filled (g th) = Thunk.filled th
         ∧ Thunk.content (g th) = Thunk.content th) →
  hoare (thunks_kept vm0) (modifyThunk r g) (fun _ => thunks_kept vm0).
Proof.
  intros Hg vm Hpre. unfold modifyThunk.
  destruct (heap_thunks vm !! r) as [th1|] eqn:Hr1; [|done].
  unfold thunks_kept. cbn [heap_thunks set_heap_thunks].
  intros r' th Hr. destruct (Hpre r' th Hr) as (th' & Hr' & Hf & Hc).
  destruct (decide (r' = r)) as [->|Hne].
  - assert (th' = th1) as -> by congruence.
    exists (g th1). rewrite list_lookup_insert_eq
      by (by eapply lookup_lt_Some).
    destruct (Hg th1) as [-> ->]. done.
  - exists th'. by rewrite list_lookup_insert_ne.
Qed.

Lemma hoare_kept_modifyThunk_fresh r g :
  (length (heap_thunks vm0) ≤ r)%nat →
  hoare (thunks_kept vm0) (modifyThunk r g) (fun _ => thunks_kept vm0).
Proof.
  intros Hfresh vm Hpre. unfold modifyThunk.
  destruct (heap_thunks vm !! r) as [th1|] eqn:Hr1; [|done].
  unfold thunks_kept. cbn [heap_thunks set_heap_thunks].
  intros r' th Hr. destruct (Hpre r' th Hr) as (th' & Hr' & Hf & Hc).
  exists th'. rewrite list_lookup_insert_ne; [done|].
  apply lookup_lt_Some in Hr. lia.
Qed.
End Kept.

Lemma heap_neutral_scratch_push_back `{Externals} th :
  heap_neutral (scratch_push_back th).
Proof. unfold scratch_push_back. solve_preserves. Qed.

Lemma heap_neutral_objectIndex `{Externals} loc obj f offset :
  heap_neutral (objectIndex loc obj f offset).
Proof.
  unfold objectIndex.
  destruct (findObject_ptr f obj offset) as [[[| |]|] [found_at self]];
    solve_preserves.
Qed.

Lemma heap_neutral_force_thunk `{Externals} loc r th :
  heap_neutral (force_thunk loc r th).
Proof. unfold force_thunk. solve_preserves. Qed.

(** Rules for the operations that have one of their own. *)
Ltac kept_extra := fail.

Ltac kept_prim :=
  first
    [ apply hoare_kept_modifyThunk_same; intros ?; split; reflexivity
    | apply hoare_kept_modifyThunk_fresh; assumption
    | kept_extra
    | apply hoare_kept_preserve;
      first [ preserves_op
            | apply heap_neutral_scratch_push_back
            | apply heap_neutral_objectIndex
            | apply heap_neutral_force_thunk ] ].

Ltac kept_step :=
  cbv beta zeta;
  lazymatch goal with
  | |- hoare _ (ret _) _ => apply hoare_ret; intros ? ?; assumption
  | |- hoare _ (throw _ _) _ => apply hoare_throw
  | |- hoare _ (abort _) _ => apply hoare_abort
  | |- hoare _ undefined _ => apply hoare_undefined
  | |- hoare _ (throw_static _) _ => apply hoare_throw_static
  | |- hoare _ (match ?x with _ => _ end) _ => destruct x
  | |- hoare _ (if ?x then _ else _) _ => destruct x
  | |- hoare _ (let '(_, _) := ?x in _) _ => destruct x
  | |- hoare (thunks_kept ?v) (foldM _ _ _) _ =>
      apply (hoare_foldM_inv (thunks_kept v)); intros ? ?
  | |- hoare _ (bind (makeThunk _ _ _ _) _) _ =>
      eapply hoare_bind;
      [apply hoare_kept_makeThunk
      |intros ?; cbv beta; apply hoare_pure; intros ?]
  | |- hoare (thunks_kept ?v) (bind ?m _) _ =>
      first
        [ eapply hoare_bind; [kept_prim|intros ?]
        | eapply (hoare_bind _ _ (fun _ => thunks_kept v)); [|intros ?] ]
  | |- hoare _ (makeThunk _ _ _ _) _ =>
      eapply hoare_post;
      [apply hoare_kept_makeThunk|intros ? ? [? _]; assumption]
  | |- hoare _ _ _ => kept_prim
  end.

Ltac kept_auto := repeat kept_step.

Section KeptCases.
Context `{Externals}.
Variable vm0 : Interpreter.


Lemma kept_objectInvariants curr self counter :
  hoare (thunks_kept vm0) (objectInvariants curr self counter)
    (fun _ => thunks_kept vm0).
Proof.
  revert counter.
  induction curr as [a up fields asserts|a up value id cv|a l IHl r IHr];
    intros counter; simpl.
  - kept_auto.
  - kept_auto.
  - eapply hoare_bind; [apply IHr|]. intros ?. apply IHl.
Qed.

Lemma kept_objectInvariants_ptr curr self counter :
  hoare (thunks_kept vm0) (objectInvariants_ptr curr self counter)
    (fun _ => thunks_kept vm0).
Proof.
  destruct curr; simpl; [apply kept_objectInvariants|kept_auto].
Qed.

Lemma kept_builtin_call loc builtin args :
  hoare (thunks_kept vm0) (builtin_call loc builtin args)
    (fun _ => thunks_kept vm0).
Proof.
  unfold builtin_call.
  destruct builtin as [|p|p]; [| |kept_auto];
    [unfold builtin_makeArray; kept_auto|].
  repeat (destruct p as [p|p|]; try (kept_auto; fail));
    unfold builtin_unary_math, builtin_type, builtin_filter,
      builtin_objectHasEx, builtin_length, builtin_objectFieldsEx,
      builtin_codepoint, builtin_char, builtin_extVar,
      builtin_primitiveEquals;
    kept_auto.
Qed.

Ltac kept_extra ::=
  first
    [ apply kept_objectInvariants_ptr
    | apply kept_builtin_call ].

















End KeptCases.

Section ThunkClaim.
Context `{Externals}.







Lemma keeps_pop : keeps_thunks pop.
Proof.
  apply keeps_thunks_hoare. intros vm0. apply hoare_kept_preserve.
  apply heap_neutral_pop.
Qed.


End ThunkClaim.

Module ThunkWitness.
Import Demo ThunkExample.


(** In the run of [twice] the thunk of [x] is filled while its force
    is still running: the invariant of [obj] forces it again, and both
    pops fill it. *)
Lemma C7_filled_twice : ¬ C7_once_as_stated.
Proof.
  intros Hc.
  destruct (evaluate 80 body_x (Stack.size (stack forcing)) forcing)
    as [[[] vm']| | | | |] eqn:Hrun;
    try (vm_compute in Hrun; discriminate).
  destruct (Hc 80%nat body_x forcing vm' 1%nat
              (call_frame loc0 (Some (EThunk 1)) None 0
                 {[ U "obj" := 0%nat ]})
              (Thunk.set_upValues {[ U "obj" := 0%nat ]}
                 (Thunk.make (U "x") None 0 (Some body_x))))
    as (th' & Hth & Hfilled);
    [vm_compute; reflexivity|reflexivity|reflexivity
    |vm_compute; reflexivity|reflexivity|reflexivity|exact Hrun|].
  vm_compute in Hrun. injection Hrun as <-.
  vm_compute in Hth. injection Hth as <-. discriminate Hfilled.
Qed.

End ThunkWitness.

(** * Two runs *)







Section Fuel.
Context `{Externals}.







End Fuel.

Module RunsWitness.
Import Demo DriverExample.

End RunsWitness.

(** * Paths, scopes and error traces *)

Lemma dir_name_opt_slash_free base :
  slash_free base → dir_name_opt base = None.
Proof.
  induction base as [|c rest IH]; [done|]. intros [Hc Hrest]. simpl.
  rewrite IH by done. unfold slash in Hc.
  destruct (Ascii.eqb_spec c (Ascii.ascii_of_nat 47)); done.
Qed.

Lemma dir_name_opt_app d base :
  slash_free base →
  dir_name_opt (d +:+ String slash base) = Some (d +:+ String slash "").
Proof.
  intros Hbase. induction d as [|c d IH]; simpl.
  - rewrite dir_name_opt_slash_free by done. done.
  - by rewrite IH.
Qed.

Lemma dir_name_opt_ends path x :
  dir_name_opt path = Some x → ∃ d, x = d +:+ String slash "".
Proof.
  revert x. induction path as [|c rest IH]; intros x Hx; [done|].
  simpl in Hx. destruct (dir_name_opt rest) as [d'|].
  - injection Hx as <-. destruct (IH d' eq_refl) as [d ->].
    by exists (String c d).
  - destruct (Ascii.eqb_spec c (Ascii.ascii_of_nat 47)) as [->|]; [|done].
    injection Hx as <-. by exists "".
Qed.

(** [dir_name]: a path without a slash has no directory; otherwise the
    directory is the path up to its last slash, that slash included,
    and it is its own directory. *)
Theorem dir_name_last_slash :
  (∀ base, slash_free base → dir_name base = "")
  ∧ (∀ d base, slash_free base →
       dir_name (d +:+ String slash base) = d +:+ String slash "")
  ∧ (∀ path, ∃ base, slash_free base ∧ path = dir_name path +:+ base)
  ∧ (∀ path, dir_name (dir_name path) = dir_name path).
Proof.
  assert (∀ path, ∃ base, slash_free base
                          ∧ path = dir_name path +:+ base) as Hsplit.
  { intros path. unfold dir_name.
    induction path as [|c rest (base & Hbase & Hrest)]; simpl.
    - by exists "".
    - destruct (dir_name_opt rest) as [d|] eqn:Hd; simpl in *.
      + exists base. split; [done|]. by rewrite Hrest at 1.
      + destruct (Ascii.eqb_spec c (Ascii.ascii_of_nat 47)) as [->|Hc]; simpl.
        * exists rest. split; [|done]. by rewrite Hrest.
        * exists (String c rest). split; [|done]. split; [done|].
          by rewrite Hrest. }
  split_and!.
  - intros base Hbase. unfold dir_name.
    by rewrite dir_name_opt_slash_free.
  - intros d base Hbase. unfold dir_name. by rewrite dir_name_opt_app.
  - done.
  - intros path. unfold dir_name at 2 3.
    destruct (dir_name_opt path) as [x|] eqn:Hx; simpl; [|done].
    destruct (dir_name_opt_ends _ _ Hx) as [d ->].
    unfold dir_name. by rewrite dir_name_opt_app.
Qed.

(** [lookUpVar]: the closest binding wins, and nothing is looked up
    past the closest call frame. *)
Theorem lookUpVar_scope (id : Identifier) (upper : list Frame) (f : Frame)
    (rest : list Frame) :
  Forall (transparent id) upper →
  (∀ th, Frame.bindings f !! id = Some th →
     Stack.lookUpVar_from (upper ++ f :: rest) id = Some th)
  ∧ (Frame.bindings f !! id = None → Frame.isCall f = true →
     Stack.lookUpVar_from (upper ++ f :: rest) id = None)
  ∧ Stack.lookUpVar_from upper id = None.
Proof.
  intros Hup. induction Hup as [|g upper [Hg Hc] _ IH]; simpl.
  - split_and!; [by intros th ->|by intros -> ->|done].
  - by rewrite Hg, Hc.
Qed.

Section Capture.
Context `{Externals}.

Lemma capture_from fvs env vm :
  ∃ env',
    foldM (fun (env : BindingFrame) (fv : list N) =>
             do th <- lookUpVar fv;
             match th with
             | Some th => ret (<[fv := th]> env)
             | None => ret env
             end) env fvs vm = OK (env', vm)
    ∧ ∀ x, (x ∈ fvs → is_Some (Stack.lookUpVar (stack vm) x) →
            env' !! x = Stack.lookUpVar (stack vm) x)
           ∧ (x ∉ fvs ∨ Stack.lookUpVar (stack vm) x = None →
              env' !! x = env !! x).
Proof.
  revert env. induction fvs as [|fv fvs IH]; intros env.
  - exists env. split; [done|]. intros x. split; [|done].
    by intros Hin%elem_of_nil.
  - destruct (Stack.lookUpVar (stack vm) fv) as [th|] eqn:Hfv.
    + destruct (IH (<[fv := th]> env)) as (env' & Hrun & Henv).
      exists env'. split.
      { cbn [foldM]. unfold bind at 1. unfold bind at 1.
        unfold lookUpVar at 1, gets.
        cbv beta. by rewrite Hfv. }
      intros x.
      destruct (Henv x) as [Hin Hout]. split.
      * intros Hx Hs. destruct (decide (x ∈ fvs)) as [?|Hnot]; [by auto|].
        apply elem_of_cons in Hx as [->|?]; [|done].
        rewrite Hout by (by left). by rewrite lookup_insert_eq.
      * intros [Hx|Hx].
        -- apply not_elem_of_cons in Hx as [Hne Hx].
           rewrite Hout by (by left). by rewrite lookup_insert_ne.
        -- rewrite Hout by (by right). rewrite lookup_insert_ne; [done|].
           intros <-. congruence.
    + destruct (IH env) as (env' & Hrun & Henv).
      exists env'. split.
      { cbn [foldM]. unfold bind at 1. unfold bind at 1.
        unfold lookUpVar at 1, gets.
        cbv beta. by rewrite Hfv. }
      intros x.
      destruct (Henv x) as [Hin Hout]. split.
      * intros Hx Hs. apply elem_of_cons in Hx as [->|?]; [|by auto].
        rewrite Hfv in Hs. by destruct Hs.
      * intros [Hx|Hx].
        -- apply not_elem_of_cons in Hx as [Hne Hx]. apply Hout. by left.
        -- apply Hout. by right.
Qed.

(** [capture]: the environment binds exactly the free variables that
    are in scope, each to the thunk [lookUpVar] finds for it, and the
    interpreter is left as it was. *)
Theorem capture_env (fvs : list Identifier) (vm : Interpreter) :
  ∃ env, capture fvs vm = OK (env, vm)
    ∧ ∀ x, (x ∈ fvs → env !! x = Stack.lookUpVar (stack vm) x)
           ∧ (x ∉ fvs → env !! x = None).
Proof.
  destruct (capture_from fvs ∅ vm) as (env & Hrun & Henv).
  exists env. split; [done|]. intros x.
  destruct (Henv x) as [Hin Hout]. split.
  - intros Hx. destruct (Stack.lookUpVar (stack vm) x) eqn:Hl.
    + apply Hin; [done|by eexists].
    + rewrite Hout by (by right). apply lookup_empty.
  - intros Hx. rewrite Hout by (by left). apply lookup_empty.
Qed.
End Capture.

Lemma call_frames_length l : length (call_frames l) = count_calls l.
Proof.
  unfold call_frames. induction l as [|f l IH]; [done|].
  rewrite filter_cons. cbn [count_calls]. case_decide as Hc.
  - rewrite Hc. simpl. by rewrite IH.
  - apply not_true_is_false in Hc. rewrite Hc. simpl. by rewrite IH.
Qed.

Section Trace.
Context `{Externals}.

Lemma set_last_name_locations trace n :
  tf_location <$> set_last_name trace n = tf_location <$> trace.
Proof.
  unfold set_last_name.
  destruct (reverse trace) as [|t before] eqn:Hrev.
  - apply (f_equal reverse) in Hrev. rewrite reverse_involutive in Hrev.
    by subst.
  - apply (f_equal reverse) in Hrev. rewrite reverse_involutive in Hrev.
    subst. by rewrite !reverse_cons, !fmap_app.
Qed.

Lemma makeError_scan_locations heap l trace :
  tf_location <$> makeError_scan heap l trace
  = (tf_location <$> trace) ++ (Frame.location <$> call_frames l).
Proof.
  revert trace. induction l as [|f l IH]; intros trace; simpl.
  - by rewrite app_nil_r.
  - unfold call_frames. rewrite filter_cons.
    destruct (Frame.isCall f) eqn:Hc.
    + rewrite decide_True by done. rewrite IH, fmap_app.
      rewrite <- app_assoc. simpl. f_equal.
      destruct (Frame.context f); [apply set_last_name_locations|done].
    + rewrite decide_False by (by intros ?). apply IH.
Qed.

(** [makeError]: the error carries the message, and its stack trace
    is the place of the failure followed by the places of the call
    frames of the stack, the innermost first: one entry per call in
    progress, none for a frame of another kind. *)
Theorem makeError_trace heap (s : Stack) loc m :
  msg (makeError heap s loc m) = m
  ∧ tf_location <$> stack_trace (makeError heap s loc m)
    = loc :: (Frame.location <$> call_frames (Stack.stack s))
  ∧ length (stack_trace (makeError heap s loc m))
    = S (count_calls (Stack.stack s)).
Proof.
  assert (tf_location <$> stack_trace (makeError heap s loc m)
          = loc :: (Frame.location <$> call_frames (Stack.stack s)))
    as Hloc.
  { unfold makeError. simpl. by rewrite makeError_scan_locations. }
  split_and!; [done|done|].
  apply (f_equal length) in Hloc.
  rewrite length_fmap in Hloc. rewrite Hloc. simpl. f_equal.
  rewrite length_fmap. apply call_frames_length.
Qed.
End Trace.

(** * The fields of an object *)

Lemma ustring_ltb_irrefl a : ustring_ltb a a = false.
Proof. induction a as [|x a IH]; [done|]. simpl. by rewrite N.ltb_irrefl. Qed.

Lemma ustring_ltb_asym a b : ustring_ltb a b = true → ustring_ltb b a = false.
Proof.
  revert b. induction a as [|x a IH]; intros [|y b]; simpl; try done.
  destruct (N.ltb_spec x y), (N.ltb_spec y x); try done; try lia.
  apply IH.
Qed.

Lemma ustring_ltb_trans a b c :
  ustring_ltb a b = true → ustring_ltb b c = true → ustring_ltb a c = true.
Proof.
  revert b c. induction a as [|x a IH]; intros [|y b] [|z c]; simpl; try done.
  destruct (N.ltb_spec x y), (N.ltb_spec y x), (N.ltb_spec y z),
    (N.ltb_spec z y), (N.ltb_spec x z), (N.ltb_spec z x);
    try done; try lia.
  apply IH.
Qed.

Lemma ustring_ltb_total a b :
  ustring_ltb a b = false → ustring_ltb b a = false → a = b.
Proof.
  revert b. induction a as [|x a IH]; intros [|y b]; simpl; try done.
  destruct (N.ltb_spec x y), (N.ltb_spec y x); try done.
  intros Hab Hba. f_equal; [lia|by apply IH].
Qed.

#[export] Instance ustring_le_dec a b : Decision (ustring_le a b).
Proof. unfold ustring_le. apply _. Defined.

#[export] Instance ustring_le_total : Total ustring_le.
Proof.
  intros a b. unfold ustring_le, ustring_leb.
  destruct (ustring_ltb b a) eqn:Hba; [|by left].
  right. by rewrite (ustring_ltb_asym _ _ Hba).
Qed.

#[export] Instance ustring_le_trans : Transitive ustring_le.
Proof.
  intros a b c. unfold ustring_le, ustring_leb.
  destruct (ustring_ltb b a) eqn:Hba; [done|].
  destruct (ustring_ltb c b) eqn:Hcb; [done|]. intros _ _.
  destruct (ustring_ltb c a) eqn:Hca; [|done]. exfalso.
  destruct (ustring_ltb a b) eqn:Hab.
  - by rewrite (ustring_ltb_trans _ _ _ Hca Hab) in Hcb.
  - rewrite (ustring_ltb_total _ _ Hab Hba) in Hca. congruence.
Qed.

Lemma ustring_le_lt a b : ustring_le a b → a ≠ b → ustring_lt a b.
Proof.
  unfold ustring_le, ustring_lt, ustring_leb. intros Hle Hne.
  destruct (ustring_ltb b a) eqn:Hba; [done|].
  destruct (ustring_ltb a b) eqn:Hab; [done|].
  by destruct Hne; apply ustring_ltb_total.
Qed.

(** A sorted list without duplicates is strictly sorted. *)
Lemma StronglySorted_strict (l : list UString) :
  StronglySorted ustring_le l → NoDup l → StronglySorted ustring_lt l.
Proof.
  induction 1 as [|x l Hl IH Hx]; intros Hnd; [constructor|].
  apply NoDup_cons in Hnd as [Hin Hnd]. constructor; [by apply IH|].
  apply Forall_forall. intros y Hy.
  apply ustring_le_lt; [by eapply Forall_forall in Hx|]. by intros ->.
Qed.

Section Fields.
Context `{Externals}.

(** [sorted_fields] lists the fields [objectFields] collects for
    manifestation in the strict order of their names, so each one
    once. *)
Lemma sorted_fields_sorted (obj : option HeapObject) :
  StronglySorted ustring_lt (sorted_fields obj)
  ∧ (∀ f, f ∈ sorted_fields obj ↔ f ∈ objectFields_ptr obj true)
  ∧ length (sorted_fields obj) = size (objectFields_ptr obj true).
Proof.
  unfold sorted_fields.
  change (fun a b => Is_true (ustring_leb a b)) with ustring_le.
  split_and!.
  - apply StronglySorted_strict.
    + apply StronglySorted_merge_sort; apply _.
    + rewrite merge_sort_Permutation. apply NoDup_elements.
  - intros f. rewrite merge_sort_Permutation. apply elem_of_elements.
  - rewrite merge_sort_Permutation. done.
Qed.
End Fields.

Lemma objectFields_rec_nowrap_any m obj counter :
  0 ≤ counter → counter + Z.of_nat (length (leaves obj)) < 2 ^ 32 →
  objectFields_rec obj counter 0 m
  = (hides_when m obj, counter + Z.of_nat (length (leaves obj))).
Proof.
  unfold hides_when. revert counter.
  induction obj as [a up fields asserts|a up value id cv|a l IHl r IHr];
    intros counter Hc Hlt; cbn [leaves length] in Hlt; simpl.
  - rewrite !wrap32_small by lia.
    rewrite !bool_decide_eq_false_2 by lia. done.
  - rewrite !wrap32_small by lia.
    rewrite !bool_decide_eq_false_2 by lia. done.
  - rewrite length_app in Hlt. pose proof (leaves_nonempty l).
    rewrite (IHr counter), (IHr 0) by lia. simpl.
    rewrite (IHl (counter + _)), (IHl (0 + _)) by lia. simpl.
    rewrite length_app, Nat2Z.inj_add, Z.add_assoc. done.
Qed.

(** Not manifesting, every field of every leaf is collected as
    visible. *)
Lemma hides_when_false obj f :
  Z.of_nat (length (leaves obj)) < 2 ^ 32 →
  hides_when false obj !! f =
    if existsb (has_field f) (leaves obj) then Some VISIBLE else None.
Proof.
  induction obj as [a up fields asserts|a up value id cv|a l IHl r IHr];
    intros Hlt.
  - unfold hides_when. simpl.
    rewrite (map_fold_insert_fmap (fun _ : Field => VISIBLE)), lookup_fmap.
    rewrite orb_false_r. destruct (fields !! f) as [x|] eqn:Hf; simpl.
    + first [done|by rewrite bool_decide_eq_true_2].
    + first [done|rewrite bool_decide_eq_false_2; [done|]; by intros []].
  - unfold hides_when. simpl.
    rewrite (map_fold_insert_fmap (fun _ : nat => VISIBLE)), lookup_fmap.
    rewrite orb_false_r. destruct (cv !! f) as [x|] eqn:Hf; simpl.
    + first [done|by rewrite bool_decide_eq_true_2].
    + first [done|rewrite bool_decide_eq_false_2; [done|]; by intros []].
  - cbn [leaves] in *. rewrite length_app in Hlt.
    unfold hides_when at 1. simpl.
    rewrite (objectFields_rec_nowrap_any false r 0) by lia. simpl.
    rewrite (objectFields_rec_nowrap_any false l) by lia. simpl.
    rewrite merge_left_lookup, IHl, IHr, existsb_app by lia.
    by destruct (existsb _ (leaves r)), (existsb _ (leaves l)).
Qed.

Lemma objectFields_elem_when m obj f :
  f ∈ objectFields obj m ↔ ∃ h, hides_when m obj !! f = Some h ∧ h ≠ HIDDEN.
Proof.
  unfold objectFields. fold (hides_when m obj).
  apply (map_fold_weak_ind
           (fun (res : gset (list N)) (m : IdHideMap) =>
              f ∈ res ↔ ∃ h, m !! f = Some h ∧ h ≠ HIDDEN)).
  - split; [set_solver|]. intros (h & Hh & _). by rewrite lookup_empty in Hh.
  - intros i x m' res Hi IH. case_bool_decide as Hx.
    + rewrite elem_of_union, elem_of_singleton, IH. split.
      * intros [->|(h & Hh & Hne)].
        -- exists x. by rewrite lookup_insert_eq.
        -- exists h. rewrite lookup_insert_ne; [done|]. intros ->. congruence.
      * intros (h & Hh & Hne). destruct (decide (i = f)) as [->|Hif]; [by left|].
        right. exists h. by rewrite lookup_insert_ne in Hh.
    + rewrite IH. split.
      * intros (h & Hh & Hne). exists h.
        rewrite lookup_insert_ne; [done|]. intros ->. congruence.
      * intros (h & Hh & Hne). destruct (decide (i = f)) as [->|Hif].
        -- rewrite lookup_insert_eq in Hh. injection Hh as ->.
           by destruct Hx.
        -- exists h. by rewrite lookup_insert_ne in Hh.
Qed.

Section ObjectBuiltins.
Context `{Externals}.

(** [std.objectHasEx(obj, f, include_hidden)] (builtin 13) answers,
    with hidden fields included, whether some leaf of the object has
    the field, and without them whether the field is one that
    manifestation shows; it raises nothing and pops its frame. *)
Theorem objectHasEx_answer loc (obj : HeapObject) (f : UString)
    (include_hidden : bool) (vm : Interpreter) :
  Z.of_nat (length (leaves obj)) < 2 ^ 32 →
  ∃ found,
    builtin_call loc 13
      [OBJECT (Some obj); STRING f; BOOLEAN include_hidden] vm
    = OK (PopFrame, set_scratch (BOOLEAN found) vm)
    ∧ (include_hidden = true →
       (found = true ↔
        ∃ leaf, leaf ∈ leaves obj ∧ has_field f leaf = true))
    ∧ (include_hidden = false →
       (found = true ↔ f ∈ sorted_fields (Some obj))).
Proof.
  intros Hlt. eexists. split; [|split].
  - simpl. unfold builtin_objectHasEx, validateBuiltinArgs. simpl.
    reflexivity.
  - intros ->. simpl. rewrite bool_decide_eq_true.
    rewrite objectFields_elem_when, hides_when_false by done.
    destruct (existsb (has_field f) (leaves obj)) eqn:He.
    + apply existsb_exists in He as (leaf & Hin%list_elem_of_In & Hf).
      split; [by exists leaf|]. intros _. by exists VISIBLE.
    + split; [by intros (h & ? & _)|].
      intros (leaf & Hin%list_elem_of_In & Hf).
      assert (existsb (has_field f) (leaves obj) = true) as Ht
        by (apply existsb_exists; eauto). congruence.
  - intros ->. simpl. rewrite bool_decide_eq_true.
    by rewrite sorted_fields_elem.
Qed.
End ObjectBuiltins.

Section FieldNames.
Context `{Externals}.

Lemma push_name_eq field els vm :
  scratch vm = ARRAY els →
  push_name field vm
  = OK (tt,
        set_scratch (ARRAY (els ++ [length (heap_thunks vm)]))
          (set_heap_thunks (heap_thunks vm ++ [name_thunk field]) vm)).
Proof.
  intros Hscr. unfold push_name, bind, makeThunk, getScratch, gets,
    setScratch, modify, modifyThunk.
  cbn [scratch set_heap_thunks]. rewrite Hscr.
  cbn [heap_thunks set_scratch set_heap_thunks].
  rewrite lookup_app_r by done. rewrite Nat.sub_diag.
  cbn [lookup list_lookup]. do 2 f_equal.
  unfold set_scratch, set_heap_thunks.
  cbn [heap_thunks heap_next scratch stack cachedImports externalVars].
  f_equal. rewrite insert_app_r_alt by done. by rewrite Nat.sub_diag.
Qed.

Lemma objectFieldsEx_loop fields els vm :
  scratch vm = ARRAY els →
  foldM (fun (_ : unit) (field : UString) => push_name field) tt fields vm
  = OK (tt,
        set_scratch
          (ARRAY (els ++ seq (length (heap_thunks vm)) (length fields)))
          (set_heap_thunks (heap_thunks vm ++ (name_thunk <$> fields)) vm)).
Proof.
  revert els vm. induction fields as [|f fields IH]; intros els vm Hscr.
  - simpl. unfold ret. rewrite !app_nil_r. destruct vm. simpl in *.
    by subst.
  - cbn [foldM]. unfold bind at 1. rewrite (push_name_eq f els) by done.
    rewrite (IH (els ++ [length (heap_thunks vm)])) by done.
    do 2 f_equal. unfold set_scratch, set_heap_thunks.
    cbn [heap_thunks heap_next scratch stack cachedImports externalVars].
    rewrite length_app. cbn [length fmap list_fmap].
    rewrite <- !app_assoc. cbn [app].
    replace (length (heap_thunks vm) + 1)%nat
      with (S (length (heap_thunks vm))) by lia. done.
Qed.

(** [std.objectFieldsEx(obj, include_hidden)] (builtin 15) leaves an
    array of new thunks in the scratch register, one for each name
    and in the strict order of the names, each already filled with its
    name as a string; the names are those [objectFields] collects,
    hidden ones included or not.  The stack and the thunks that
    existed are left alone. *)
Theorem objectFieldsEx_names loc (obj : option HeapObject)
    (include_hidden : bool) (vm : Interpreter) :
  let names := field_names obj include_hidden in
  builtin_call loc 15 [OBJECT obj; BOOLEAN include_hidden] vm
  = OK (PopFrame,
        set_scratch
          (ARRAY (seq (length (heap_thunks vm)) (length names)))
          (set_heap_thunks (heap_thunks vm ++ (name_thunk <$> names)) vm))
  ∧ StronglySorted ustring_lt names
  ∧ ∀ f, f ∈ names ↔ f ∈ objectFields_ptr obj (negb include_hidden).
Proof.
  intros names. split_and!.
  - cbn [builtin_call]. unfold builtin_objectFieldsEx.
    unfold validateBuiltinArgs. cbn [fmap list_fmap Value_t].
    rewrite bool_decide_eq_true_2 by done.
    fold (field_names obj include_hidden). fold names.
    change (fun (_ : unit) (field : UString) => _)
      with (fun (_ : unit) (field : UString) => push_name field).
    unfold bind at 1. unfold ret at 1. cbv beta iota.
    unfold bind at 1. unfold bind at 1.
    unfold setScratch at 1, modify. cbv beta iota.
    rewrite (objectFieldsEx_loop names []) by done.
    reflexivity.
  - unfold names, field_names.
    change (fun a b => Is_true (ustring_leb a b)) with ustring_le.
    apply StronglySorted_strict.
    + apply StronglySorted_merge_sort; apply _.
    + rewrite merge_sort_Permutation. apply NoDup_elements.
  - intros f. unfold names, field_names.
    rewrite merge_sort_Permutation. apply elem_of_elements.
Qed.
End FieldNames.

(** * Integers, code points and arrays of a given size *)

(** ** Integers as doubles *)

Lemma iter_xO_pos m k : Z.pos (Pos.iter xO m k) = Z.pos m * 2 ^ Z.pos k.
Proof.
  induction k as [|k IH] using Pos.peano_ind.
  - simpl. lia.
  - rewrite Pos.iter_succ.
    change (Z.pos (Pos.iter xO m k)~0) with (2 * Z.pos (Pos.iter xO m k)).
    rewrite IH, Pos2Z.inj_succ, Z.pow_succ_r by lia. lia.
Qed.

Lemma iter_xO_digits m k :
  digits2_pos (Pos.iter xO m k) = (digits2_pos m + k)%positive.
Proof.
  induction k as [|k IH] using Pos.peano_ind.
  - simpl. lia.
  - rewrite Pos.iter_succ. simpl. rewrite IH. lia.
Qed.

Lemma digits2_pos_bounds m :
  2 ^ (Z.pos (digits2_pos m) - 1) ≤ Z.pos m < 2 ^ Z.pos (digits2_pos m).
Proof.
  induction m as [m IH|m IH|]; simpl digits2_pos.
  - rewrite Pos2Z.inj_succ. change (Z.pos m~1) with (2 * Z.pos m + 1).
    replace (Z.succ (Z.pos (digits2_pos m)) - 1)
      with (Z.succ (Z.pos (digits2_pos m) - 1)) by lia.
    rewrite !Z.pow_succ_r by lia.
    set (a := 2 ^ (Z.pos (digits2_pos m) - 1)) in *.
    set (b := 2 ^ Z.pos (digits2_pos m)) in *. lia.
  - rewrite Pos2Z.inj_succ. change (Z.pos m~0) with (2 * Z.pos m).
    replace (Z.succ (Z.pos (digits2_pos m)) - 1)
      with (Z.succ (Z.pos (digits2_pos m) - 1)) by lia.
    rewrite !Z.pow_succ_r by lia.
    set (a := 2 ^ (Z.pos (digits2_pos m) - 1)) in *.
    set (b := 2 ^ Z.pos (digits2_pos m)) in *. lia.
  - simpl. lia.
Qed.

(** A positive integer below [2^53] is a double, its mantissa shifted to
    53 digits. *)
Lemma binary_round_small sx m :
  Z.pos m < 2 ^ 53 →
  ∃ m' e, binary_round prec emax sx m 0 = S754_finite sx m' e
    ∧ SpecFloat.valid_binary prec emax (S754_finite sx m' e) = true
    ∧ -52 ≤ e ≤ 0 ∧ Z.pos m' = Z.pos m * 2 ^ (- e).
Proof.
  intros Hlt. pose proof (digits2_pos_bounds m) as [Hlo Hhi].
  assert (Z.pos (digits2_pos m) ≤ 53) as Hd.
  { destruct (decide (Z.pos (digits2_pos m) ≤ 53)) as [|Hgt]; [done|].
    assert (2 ^ 53 ≤ 2 ^ (Z.pos (digits2_pos m) - 1))
      by (apply Z.pow_le_mono_r; lia). lia. }
  unfold binary_round, shl_align, fexp, emin, prec, emax.
  rewrite Z.add_0_r.
  rewrite (Z.max_l (Z.pos (digits2_pos m) - 53)) by lia.
  rewrite Z.sub_0_r.
  assert (∀ m' e, Z.pos (digits2_pos m') = 53 → -52 ≤ e ≤ 0 →
            binary_round_aux 53 1024 sx (Z.pos m') e loc_Exact
            = S754_finite sx m' e
            ∧ SpecFloat.valid_binary 53 1024 (S754_finite sx m' e) = true) as Haux.
  { intros m' e Hm' He.
    assert (fexp 53 1024 (Z.pos (digits2_pos m') + e) = e) as Hf.
    { unfold fexp, emin. lia. }
    split.
    - unfold binary_round_aux, shr_fexp. cbn [Zdigits2 shr_record_of_loc].
      rewrite Hf, Z.sub_diag. cbn [shr shr_m loc_of_shr_record
        round_nearest_even Zdigits2 shr_record_of_loc].
      rewrite Hf, Z.sub_diag. cbn [shr shr_m].
      rewrite (proj2 (Z.leb_le _ _)) by lia. done.
    - unfold SpecFloat.valid_binary, bounded, canonical_mantissa.
      rewrite Hf, Z.eqb_refl. simpl. apply Z.leb_le. lia. }
  destruct (Z.pos (digits2_pos m) - 53) as [|p|p] eqn:Hk; [|lia|].
  - assert (Z.pos (digits2_pos m) = 53) as Hm by lia.
    destruct (Haux m 0 Hm ltac:(lia)) as [Hr Hv].
    exists m, 0. rewrite Hr. split_and!; [done|done|lia|lia|simpl; lia].
  - assert (Z.pos (digits2_pos (Pos.iter xO m p)) = 53) as Hm.
    { rewrite iter_xO_digits. lia. }
    destruct (Haux (Pos.iter xO m p) (Z.neg p) Hm ltac:(lia)) as [Hr Hv].
    exists (Pos.iter xO m p), (Z.neg p). rewrite Hr.
    split_and!; [done|done|lia|lia|]. rewrite iter_xO_pos. done.
Qed.

(** An integer of at most 53 bits is converted to a [double] and back
    without loss. *)
Lemma double_to_long_of_Z z :
  - 2 ^ 53 < z < 2 ^ 53 → double_to_long (Z_to_double z) = OK z.
Proof.
  intros Hz. unfold Z_to_double, binary_normalize.
  destruct z as [|m|m].
  - unfold double_to_long, trunc_double.
    rewrite Prim2SF_SF2Prim by done. simpl. done.
  - destruct (binary_round_small false m) as (m' & e & -> & Hv & He & Hm);
      [lia|].
    unfold double_to_long, trunc_double. rewrite Prim2SF_SF2Prim by done.
    assert ((if bool_decide (0 ≤ e) then Z.pos m' * 2 ^ e
             else Z.pos m' `div` 2 ^ (- e)) = Z.pos m) as ->.
    { case_bool_decide.
      - assert (e = 0) as -> by lia. simpl in Hm. lia.
      - rewrite Hm. apply Z.div_mul. apply Z.pow_nonzero; lia. }
    rewrite bool_decide_eq_true_2; [done|]. unfold long_min, long_max. lia.
  - destruct (binary_round_small true m) as (m' & e & -> & Hv & He & Hm);
      [lia|].
    unfold double_to_long, trunc_double. rewrite Prim2SF_SF2Prim by done.
    assert ((if bool_decide (0 ≤ e) then Z.pos m' * 2 ^ e
             else Z.pos m' `div` 2 ^ (- e)) = Z.pos m) as ->.
    { case_bool_decide.
      - assert (e = 0) as -> by lia. simpl in Hm. lia.
      - rewrite Hm. apply Z.div_mul. apply Z.pow_nonzero; lia. }
    rewrite bool_decide_eq_true_2; [done|]. unfold long_min, long_max. lia.
Qed.

Section Integers.
Context `{Externals}.

(** [std.codepoint] (builtin 16) of a one-character string gives a
    number that [std.char] (builtin 17) turns back into the same
    string, for every character below [JSONNET_CODEPOINT_MAX]. *)
Theorem codepoint_char_round_trip loc (c : N) (vm : Interpreter) :
  Z.of_N c < 2 ^ 32 →
  Z.of_N c < JSONNET_CODEPOINT_MAX →
  ∃ d,
    builtin_call loc 16 [STRING [c]] vm
    = OK (PopFrame, set_scratch (DOUBLE d) vm)
    ∧ builtin_call loc 17 [DOUBLE d] vm
      = OK (PopFrame, set_scratch (STRING [c]) vm).
Proof.
  intros Hc Hmax. exists (Z_to_double (Z.of_N c)). split.
  - cbn [builtin_call]. unfold builtin_codepoint, validateBuiltinArgs.
    cbn [fmap list_fmap Value_t]. rewrite bool_decide_eq_true_2 by done.
    reflexivity.
  - cbn [builtin_call]. unfold builtin_char, one_double, validateBuiltinArgs.
    cbn [fmap list_fmap Value_t]. rewrite bool_decide_eq_true_2 by done.
    unfold bind at 1. unfold bind at 1. unfold ret at 1. cbv beta iota.
    unfold ret at 1. cbv beta iota.
    unfold bind at 1. rewrite double_to_long_of_Z by lia.
    unfold lift at 1. cbv beta iota.
    rewrite bool_decide_eq_false_2 by lia.
    rewrite bool_decide_eq_false_2 by lia.
    rewrite N2Z.id. reflexivity.
Qed.

(** The conversion to [long] gives a [long] or is undefined. *)
Lemma double_to_long_cases (d : float) :
  match double_to_long d with
  | OK _ | Undefined => True
  | _ => False
  end.
Proof.
  unfold double_to_long. destruct (trunc_double d); [|done].
  by case_bool_decide.
Qed.

(** [std.char] (builtin 17) converts its number to a [long].  When the
    truncated number is a [long]: below zero the builtin raises
    "Codepoints must be >= 0, got <l>", from [JSONNET_CODEPOINT_MAX] on
    (and not below zero) it raises "Invalid unicode codepoint, got <l>", both at the
    location of the call and with the trace of the stack, and
    otherwise it leaves a string of one character, the truncated
    number, which [std.codepoint] gives back.  When the truncated
    number is no [long] (NaN, an infinity, a magnitude of 2^63 or
    more), the conversion has no defined result in C++, and the run
    is [Undefined]. *)
Theorem char_codepoint loc (d : float) (vm : Interpreter) :
  match double_to_long d with
  | OK l =>
      (l < 0 →
       builtin_call loc 17 [DOUBLE d] vm
       = Throw (makeError (heap_thunks vm) (stack vm) loc
                  ("Codepoints must be >= 0, got " +:+ pretty l)))
      ∧ (0 ≤ l ∧ JSONNET_CODEPOINT_MAX ≤ l →
         builtin_call loc 17 [DOUBLE d] vm
         = Throw (makeError (heap_thunks vm) (stack vm) loc
                    ("Invalid unicode codepoint, got " +:+ pretty l)))
      ∧ (0 ≤ l < JSONNET_CODEPOINT_MAX →
         builtin_call loc 17 [DOUBLE d] vm
         = OK (PopFrame, set_scratch (STRING [Z.to_N l]) vm)
         ∧ builtin_call loc 16 [STRING [Z.to_N l]] vm
           = OK (PopFrame, set_scratch (DOUBLE (Z_to_double l)) vm))
  | _ => builtin_call loc 17 [DOUBLE d] vm = Undefined
  end.
Proof.
  assert (builtin_call loc 17 [DOUBLE d] vm
          = match double_to_long d with
            | OK l =>
                (if bool_decide (l < 0) then
                   throw loc ("Codepoints must be >= 0, got " +:+ pretty l)
                 else if bool_decide (JSONNET_CODEPOINT_MAX ≤ l) then
                   throw loc ("Invalid unicode codepoint, got " +:+ pretty l)
                 else setScratch (makeString [Z.to_N l]);; ret PopFrame) vm
            | Throw e => Throw e
            | ThrowStatic what => ThrowStatic what
            | Abort what => Abort what
            | Undefined => Undefined
            | OutOfFuel => OutOfFuel
            end) as Hcall.
  { cbn [builtin_call]. unfold builtin_char, one_double, validateBuiltinArgs.
    cbn [fmap list_fmap Value_t]. rewrite bool_decide_eq_true_2 by done.
    unfold bind at 1. unfold bind at 1. unfold ret at 1. cbv beta iota.
    unfold ret at 1. cbv beta iota.
    unfold bind at 1. unfold lift at 1.
    by destruct (double_to_long d). }
  rewrite Hcall.
  pose proof (double_to_long_cases d) as Hshape.
  destruct (double_to_long d) as [l| | | | |]; try done.
  split_and!.
  - intros Hneg. by rewrite bool_decide_eq_true_2 by done.
  - intros [Hpos Hbig]. rewrite bool_decide_eq_false_2 by lia.
    by rewrite bool_decide_eq_true_2 by done.
  - intros [Hlo Hhi]. rewrite !bool_decide_eq_false_2 by lia.
    split; [reflexivity|].
    cbn [builtin_call]. unfold builtin_codepoint, validateBuiltinArgs.
    cbn [fmap list_fmap Value_t]. rewrite bool_decide_eq_true_2 by done.
    rewrite Z2N.id by done. reflexivity.
Qed.

Lemma two_longs_of_Z (a b : Z) (vm : Interpreter) :
  - 2 ^ 53 < a < 2 ^ 53 → - 2 ^ 53 < b < 2 ^ 53 →
  two_longs (Z_to_double a) (Z_to_double b) vm = OK ((a, b), vm).
Proof.
  intros Ha Hb. unfold two_longs, bind, lift.
  by rewrite !double_to_long_of_Z.
Qed.

(** On two numbers that are integers of at most 53 bits, the bitwise
    operators of [FRAME_BINARY_RIGHT] compute on the integers
    themselves: [&], [|] and [^] give the number of the bitwise result;
    for a left operand that is not negative and a shift count from 0
    to 63, [>>] gives the quotient by the power of two and [<<], when
    the product is a [long], the product. *)
Theorem bitwise_on_integers loc (a b : Z) (vm : Interpreter) :
  - 2 ^ 53 < a < 2 ^ 53 → - 2 ^ 53 < b < 2 ^ 53 →
  let l := Z_to_double a in
  let r := Z_to_double b in
  binary_double loc BOP_BITWISE_AND l r vm
  = OK (DOUBLE (Z_to_double (Z.land a b)), vm)
  ∧ binary_double loc BOP_BITWISE_OR l r vm
    = OK (DOUBLE (Z_to_double (Z.lor a b)), vm)
  ∧ binary_double loc BOP_BITWISE_XOR l r vm
    = OK (DOUBLE (Z_to_double (Z.lxor a b)), vm)
  ∧ (0 ≤ a → 0 ≤ b < 64 →
     binary_double loc BOP_SHIFT_R l r vm
     = OK (DOUBLE (Z_to_double (a `div` 2 ^ b)), vm)
     ∧ (a * 2 ^ b < 2 ^ 63 →
        binary_double loc BOP_SHIFT_L l r vm
        = OK (DOUBLE (Z_to_double (a * 2 ^ b)), vm))).
Proof.
  intros Ha Hb l r. unfold l, r.
  split_and!; [| | |intros Ha0 Hs; split; [|intros Hfit]];
    cbn [binary_double]; unfold bind at 1;
    rewrite two_longs_of_Z by done; cbv beta iota;
    rewrite ?bool_decide_eq_true_2 by done;
    rewrite ?Z.shiftl_mul_pow2, ?Z.shiftr_div_pow2 by lia;
    try reflexivity.
  assert (0 ≤ a * 2 ^ b) as Hprod
    by (apply Z.mul_nonneg_nonneg; [done|apply Z.pow_nonneg; lia]).
  set (p := a * 2 ^ b) in *.
  unfold wrap_long. rewrite Z.mod_small by lia.
  replace (p + 2 ^ 63 - 2 ^ 63) with p by lia. reflexivity.
Qed.
End Integers.

Lemma array_elements_length base l : length (array_elements base l) = length l.
Proof. revert base. induction l; intros; simpl; auto. Qed.

Lemma array_thunks_length func param base l :
  length (array_thunks func param base l) = (2 * length l)%nat.
Proof. revert base. induction l as [|i l IH]; intros; simpl; [done|]. rewrite IH. lia. Qed.

Lemma array_elements_lookup base k n i :
  (i < n)%nat →
  array_elements base (seq k n) !! i = Some (base + 2 * i)%nat.
Proof.
  revert base k i. induction n as [|n IH]; intros base k i Hi; [lia|].
  destruct i as [|i]; simpl.
  - f_equal. lia.
  - rewrite IH by lia. f_equal. lia.
Qed.

Lemma array_thunks_lookup func param base k n i :
  (i < n)%nat →
  array_thunks func param base (seq k n) !! (2 * i)%nat
  = Some (element_thunk func param (base + 2 * i + 1))
  ∧ array_thunks func param base (seq k n) !! (2 * i + 1)%nat
    = Some (index_thunk param (k + i)).
Proof.
  revert base k i. induction n as [|n IH]; intros base k i Hi; [lia|].
  destruct i as [|i].
  - simpl. rewrite !Nat.add_0_r. split; [|done]. do 2 f_equal. lia.
  - destruct (IH (S (S base)) (S k) i ltac:(lia)) as [He Hi'].
    replace (2 * S i)%nat with (S (S (2 * i))) by lia.
    replace (S (S (2 * i)) + 1)%nat with (S (S (2 * i + 1))) by lia.
    cbn [seq array_thunks]. change ((?x :: ?y :: ?l) !! S (S ?n)) with (l !! n). simpl lookup. simpl in He, Hi'. rewrite He, Hi'.
    split; do 2 f_equal; lia.
Qed.

Section MakeArray.
Context `{Externals}.

Lemma makeArray_round_eq func param els i f below vm :
  frames vm = f :: below →
  ∃ vm',
    makeArray_round func param els i vm
    = OK (els ++ [length (heap_thunks vm)], vm')
    ∧ heap_thunks vm'
      = heap_thunks vm
        ++ [element_thunk func param (S (length (heap_thunks vm)));
            index_thunk param i]
    ∧ frames vm'
      = Frame.set_thunks (Frame.thunks f ++ [length (heap_thunks vm)]) f
        :: below
    ∧ scratch vm' = scratch vm.
Proof.
  unfold frames. intros Hf.
  unfold makeArray_round, bind, makeThunk, modifyTop, modifyThunk, ret.
  cbn [stack heap_thunks set_heap_thunks set_stack]. rewrite Hf.
  cbn [stack heap_thunks set_heap_thunks set_stack].
  rewrite lookup_app_r by done. rewrite Nat.sub_diag.
  cbn [lookup list_lookup].
  cbn [stack heap_thunks set_heap_thunks set_stack].
  rewrite insert_app_r_alt by done. rewrite Nat.sub_diag.
  cbn [insert list_insert].
  rewrite !length_app. cbn [length].
  rewrite lookup_app_r by (rewrite length_app; simpl; lia).
  rewrite length_app. cbn [length].
  replace (length (heap_thunks vm) + 1 - (length (heap_thunks vm) + 1))%nat
    with 0%nat by lia.
  cbn [lookup list_lookup].
  cbn [stack heap_thunks set_heap_thunks set_stack].
  rewrite insert_app_r_alt by (rewrite length_app; simpl; lia).
  rewrite length_app. cbn [length].
  replace (length (heap_thunks vm) + 1 - (length (heap_thunks vm) + 1))%nat
    with 0%nat by lia.
  cbn [insert list_insert].
  rewrite <- app_assoc. cbn [app].
  rewrite lookup_app_r by done. rewrite Nat.sub_diag.
  cbn [lookup list_lookup].
  eexists. split; [reflexivity|].
  cbn [stack heap_thunks set_heap_thunks set_stack scratch Stack.stack
       Stack.set_stack].
  rewrite insert_app_r_alt by done. rewrite Nat.sub_diag.
  cbn [insert list_insert]. split_and!; [|done|done].
  do 2 f_equal. unfold element_thunk. simpl.
  replace (length (heap_thunks vm) + 1)%nat
    with (S (length (heap_thunks vm))) by lia. done.
Qed.

Lemma makeArray_loop func param l : ∀ els f below vm,
  frames vm = f :: below →
  ∃ vm',
    foldM (makeArray_round func param) els l vm
    = OK (els ++ array_elements (length (heap_thunks vm)) l, vm')
    ∧ heap_thunks vm'
      = heap_thunks vm
        ++ array_thunks func param (length (heap_thunks vm)) l
    ∧ (∃ f', frames vm' = f' :: below
         ∧ Frame.thunks f'
           = Frame.thunks f ++ array_elements (length (heap_thunks vm)) l)
    ∧ scratch vm' = scratch vm.
Proof.
  induction l as [|i l IH]; intros els f below vm Hf.
  - exists vm. simpl. rewrite !app_nil_r. split_and!; try done.
    by exists f.
  - destruct (makeArray_round_eq func param els i f below vm Hf)
      as (vm1 & Hround & Hheap & Hfr & Hscr).
    destruct (IH (els ++ [length (heap_thunks vm)]) _ _ _ Hfr)
      as (vm' & Hloop & Hheap' & (f' & Hfr' & Hth') & Hscr').
    exists vm'. cbn [foldM]. unfold bind at 1. rewrite Hround, Hloop.
    assert (length (heap_thunks vm1) = S (S (length (heap_thunks vm))))
      as Hlen by (rewrite Hheap, length_app; simpl; lia).
    rewrite Hlen in *. split_and!.
    + cbn [array_elements]. by rewrite <- app_assoc.
    + rewrite Hheap', Hheap, <- app_assoc. done.
    + exists f'. split; [done|]. rewrite Hth'. simpl.
      by rewrite <- app_assoc.
    + congruence.
Qed.

(** [std.makeArray(n, func)] (builtin 0), for a function of one
    parameter, leaves in the scratch register an array of [n] new
    thunks.  The [i]-th is an unevaluated thunk of the function's body,
    in the function's environment extended by the parameter, which is
    bound to a new thunk already filled with the number [i].  The
    thunks that existed are kept, and the elements are recorded in the
    frame at the top of the stack. *)
Theorem makeArray_elements loc (func : HeapClosure) (param : Identifier)
    (n : nat) (f : Frame) (below : list Frame) (vm : Interpreter) :
  Closure.params func = [param] →
  Z.of_nat n < 2 ^ 53 →
  frames vm = f :: below →
  ∃ vm' els,
    builtin_call loc 0
      [DOUBLE (Z_to_double (Z.of_nat n)); FUNCTION func] vm
    = OK (PopFrame, vm')
    ∧ scratch vm' = ARRAY els ∧ length els = n
    ∧ (∀ i, (i < n)%nat →
         ∃ th el,
           els !! i = Some th
           ∧ heap_thunks vm' !! th = Some (element_thunk func param el)
           ∧ heap_thunks vm' !! el = Some (index_thunk param i))
    ∧ (∀ r th, heap_thunks vm !! r = Some th →
               heap_thunks vm' !! r = Some th)
    ∧ length (heap_thunks vm') = (length (heap_thunks vm) + 2 * n)%nat
    ∧ ∃ f', frames vm' = f' :: below
            ∧ Frame.thunks f' = Frame.thunks f ++ els.
Proof.
  intros Hparams Hn Hf.
  destruct (makeArray_loop func param (seq 0 n) [] f below vm Hf)
    as (vm1 & Hloop & Hheap & (f' & Hfr & Hth) & Hscr).
  exists (set_scratch (ARRAY (array_elements (length (heap_thunks vm))
                                (seq 0 n))) vm1),
    (array_elements (length (heap_thunks vm)) (seq 0 n)).
  split_and!.
  - cbn [builtin_call]. unfold builtin_makeArray, validateBuiltinArgs.
    cbn [fmap list_fmap Value_t].
    rewrite bool_decide_eq_true_2 by done.
    unfold bind at 1. unfold ret at 1. cbv beta iota.
    unfold bind at 1. rewrite double_to_long_of_Z by lia.
    unfold lift at 1. cbv beta iota.
    rewrite bool_decide_eq_false_2 by lia.
    rewrite Hparams, Nat2Z.id.
    change (fun (elements : list nat) (i : nat) => _)
      with (makeArray_round func param).
    unfold bind at 1. rewrite Hloop. cbn [app].
    reflexivity.
  - done.
  - by rewrite array_elements_length, length_seq.
  - intros i Hi.
    destruct (array_thunks_lookup func param (length (heap_thunks vm))
                0 n i Hi) as [He Hi'].
    exists (length (heap_thunks vm) + 2 * i)%nat,
      (length (heap_thunks vm) + 2 * i + 1)%nat.
    cbn [heap_thunks set_scratch]. rewrite Hheap. split_and!.
    + by apply array_elements_lookup.
    + rewrite lookup_app_r by lia.
      replace (length (heap_thunks vm) + 2 * i - length (heap_thunks vm))%nat
        with (2 * i)%nat by lia. done.
    + rewrite lookup_app_r by lia.
      replace (length (heap_thunks vm) + 2 * i + 1
               - length (heap_thunks vm))%nat
        with (2 * i + 1)%nat by lia. done.
  - intros r th Hr. cbn [heap_thunks set_scratch]. rewrite Hheap.
    by apply lookup_app_l_Some.
  - cbn [heap_thunks set_scratch].
    rewrite Hheap, length_app, array_thunks_length, length_seq. done.
  - exists f'. done.
Qed.
End MakeArray.

(** * Imports, strings and calls *)

(** An import that succeeds is answered from the cache from then on:
    importing the same path again, from a file of the same directory,
    returns the same content and changes nothing, whatever the import
    callback would answer by then.  The entries the cache already had
    are kept. *)
Theorem importString_cached (first later : Externals)
    (loc loc' : LocationRange) (path : UString) (vm vm' : Interpreter)
    (v : ImportCacheValue) :
  @importString first loc path vm = OK (v, vm') →
  dir_name (file loc') = dir_name (file loc) →
  @importString later loc' path vm' = OK (v, vm')
  ∧ cachedImports vm' !! (dir_name (file loc), path) = Some v
  ∧ cachedImports vm ⊆ cachedImports vm'.
Proof.
  unfold importString. intros Hfirst Hdir. rewrite Hdir.
  unfold bind at 1 in Hfirst. unfold gets at 1 in Hfirst.
  unfold bind at 1. unfold gets at 1. cbv beta iota in *.
  destruct (cachedImports vm !! (dir_name (file loc), path)) as [c|] eqn:Hc.
  - injection Hfirst as <- <-. rewrite Hc. done.
  - destruct (@importCallback first (dir_name (file loc))
                (@encode_utf8 first path)) as [[success input] found_here].
    destruct success; [|done]. simpl in Hfirst.
    injection Hfirst as <- <-. simpl. rewrite lookup_insert_eq.
    split_and!; [done|done|]. by apply insert_subseteq.
Qed.

Section Strings.
Context `{Externals}.

(** The comparison operators of [FRAME_BINARY_RIGHT] on two strings
    never fail and order the strings totally: of [a < b], [a = b] and
    [b < a] exactly one holds, [<] is transitive, and [<=], [>] and
    [>=] are read off [<]. *)
Theorem binary_string_order loc (a b c : UString) (vm : Interpreter) :
  let less x y := binary_string loc BOP_LESS x y vm in
  (∀ op x y, op ∈ [BOP_LESS; BOP_LESS_EQ; BOP_GREATER; BOP_GREATER_EQ] →
     ∃ r : bool, binary_string loc op x y vm = OK (BOOLEAN r, vm))
  ∧ (less a b = OK (BOOLEAN true, vm) ∧ a ≠ b
       ∧ less b a = OK (BOOLEAN false, vm)
     ∨ less a b = OK (BOOLEAN false, vm) ∧ a = b
       ∧ less b a = OK (BOOLEAN false, vm)
     ∨ less a b = OK (BOOLEAN false, vm) ∧ a ≠ b
       ∧ less b a = OK (BOOLEAN true, vm))
  ∧ (less a b = OK (BOOLEAN true, vm) → less b c = OK (BOOLEAN true, vm) →
     less a c = OK (BOOLEAN true, vm))
  ∧ binary_string loc BOP_GREATER a b vm = less b a
  ∧ (∀ r, less b a = OK (BOOLEAN r, vm) →
       binary_string loc BOP_LESS_EQ a b vm = OK (BOOLEAN (negb r), vm))
  ∧ (∀ r, less a b = OK (BOOLEAN r, vm) →
       binary_string loc BOP_GREATER_EQ a b vm = OK (BOOLEAN (negb r), vm)).
Proof.
  intros less. unfold less. cbn [binary_string]. unfold ret, makeBoolean.
  split_and!.
  - intros op x y Hop.
    repeat (apply elem_of_cons in Hop as [->|Hop]); try by eexists.
    by apply elem_of_nil in Hop.
  - destruct (ustring_ltb a b) eqn:Hab.
    + left. split_and!; [done| |].
      * intros ->. by rewrite ustring_ltb_irrefl in Hab.
      * by rewrite (ustring_ltb_asym a b).
    + destruct (ustring_ltb b a) eqn:Hba.
      * right; right. split_and!; [done| |done].
        intros ->. by rewrite ustring_ltb_irrefl in Hba.
      * right; left. split_and!; [done| |done].
        by apply ustring_ltb_total.
  - intros [= Hab] [= Hbc]. by rewrite (ustring_ltb_trans a b c).
  - done.
  - intros r [= <-]. done.
  - intros r [= <-]. done.
Qed.
End Strings.

Section CallPop.
Context `{Externals}.

(** [pop] undoes [newCall]: on a stack whose counter is right, the
    frames and the counter are, after a call frame is pushed and
    popped, those the tail-call trim left. *)
Theorem newCall_pop heap loc context self offset up (s s' : Stack) :
  Stack_wf s →
  Stack_newCall heap loc context self offset up s = OK s' →
  ∃ s'', Stack.pop s' = Some s''
    ∧ Stack.stack s'' = Stack.stack (Stack.tailCallTrimStack s)
    ∧ Stack.calls s'' = Stack.calls (Stack.tailCallTrimStack s)
    ∧ Stack.limit s'' = Stack.limit s.
Proof.
  intros Hwf Hcall.
  pose proof (tailCallTrimStack_wf s Hwf) as (Hc & Hl & Hlim).
  unfold Stack_newCall in Hcall. cbv zeta in Hcall.
  case_bool_decide as Hfull; [done|]. injection Hcall as <-.
  eexists. split; [reflexivity|].
  assert (Frame.isCall (call_frame loc context self offset up) = true)
    as Hcall by done.
  unfold call_frame in Hcall. cbn. rewrite Hcall.
  cbn. split_and!; [done| |].
  - rewrite (wrap32_small (_ + 1)) by lia.
    rewrite wrap32_small by lia. lia.
  - unfold Stack.tailCallTrimStack. by destruct (Stack.trim _).
Qed.
End CallPop.

(** * Object invariants and the manifester's stack *)

Lemma invariant_thunks_app self counter l1 l2 :
  invariant_thunks self counter (l1 ++ l2)
  = invariant_thunks self counter l1
    ++ invariant_thunks self (counter + Z.of_nat (length l1)) l2.
Proof.
  revert counter. induction l1 as [|leaf l1 IH]; intros counter; simpl.
  - by rewrite Z.add_0_r.
  - rewrite IH, <- app_assoc. do 3 f_equal. lia.
Qed.

Lemma invariant_thunks_none self counter ls :
  Forall (fun leaf => leaf_asserts leaf = []) ls →
  invariant_thunks self counter ls = [].
Proof.
  intros Hall. revert counter.
  induction Hall as [|leaf ls Hleaf _ IH]; intros counter; simpl; [done|].
  by rewrite Hleaf, IH.
Qed.

Lemma same_but_thunks_refl vm f below :
  frames vm = f :: below → same_but_thunks vm vm.
Proof.
  intros Hf. unfold same_but_thunks. split_and!; try done.
  exists f, f. rewrite Hf. done.
Qed.

Lemma same_but_thunks_trans vm1 vm2 vm3 :
  same_but_thunks vm1 vm2 → same_but_thunks vm2 vm3 →
  same_but_thunks vm1 vm3.
Proof.
  intros (? & ? & ? & ? & ? & ? & ? & f1 & f2 & ? & Hf2 & ?)
         (? & ? & ? & ? & ? & ? & ? & f2' & f3 & Hf2' & ? & ?).
  unfold same_but_thunks. split_and!; try congruence.
  exists f1, f3. split_and!; try done.
  assert (f2' = f2) as -> by congruence. congruence.
Qed.

Lemma alreadyExecutingInvariants_Exists self vm :
  Stack.alreadyExecutingInvariants (stack vm) self = true
  ↔ Exists (runs_invariants self) (frames vm).
Proof.
  unfold Stack.alreadyExecutingInvariants, frames.
  rewrite existsb_exists, Exists_exists. unfold runs_invariants.
  split; intros (x & Hin & Hx); exists x.
  - apply andb_true_iff in Hx as [Hk%bool_decide_eq_true Hs].
    by rewrite list_elem_of_In.
  - rewrite <- list_elem_of_In. split; [done|].
    destruct Hx as [Hk Hs]. apply andb_true_iff.
    by rewrite bool_decide_eq_true.
Qed.

Section Invariants.
Context `{Externals}.

Lemma push_invariant_eq self up counter assert f below vm :
  frames vm = f :: below →
  ∃ vm',
    push_invariant self up counter assert vm = OK (tt, vm')
    ∧ heap_thunks vm'
      = heap_thunks vm ++ [invariant_thunk self up counter assert]
    ∧ frames vm'
      = Frame.set_thunks (Frame.thunks f ++ [length (heap_thunks vm)]) f
        :: below
    ∧ same_but_thunks vm vm'.
Proof.
  unfold frames. intros Hf.
  unfold push_invariant, bind, makeThunk, modifyTop, modifyThunk.
  cbn [stack heap_thunks set_heap_thunks set_stack].
  rewrite lookup_app_r by done. rewrite Nat.sub_diag.
  cbn [lookup list_lookup].
  cbn [stack heap_thunks set_heap_thunks set_stack]. rewrite Hf.
  eexists. split; [reflexivity|].
  cbn [stack heap_thunks set_heap_thunks set_stack scratch Stack.stack
       Stack.set_stack].
  rewrite insert_app_r_alt by done. rewrite Nat.sub_diag.
  split_and!; [done|done|].
  unfold same_but_thunks, frames. simpl. rewrite Hf.
  split_and!; try done. eexists _, _. split_and!; done.
Qed.

Lemma objectInvariants_asserts self up counter asserts : ∀ f below vm,
  frames vm = f :: below →
  ∃ vm' f',
    foldM (fun (_ : unit) (assert : AST) =>
             push_invariant self up counter assert) tt asserts vm
    = OK (tt, vm')
    ∧ heap_thunks vm'
      = heap_thunks vm ++ (invariant_thunk self up counter <$> asserts)
    ∧ frames vm' = f' :: below
    ∧ Frame.thunks f'
      = Frame.thunks f ++ seq (length (heap_thunks vm)) (length asserts)
    ∧ same_but_thunks vm vm'.
Proof.
  induction asserts as [|a asserts IH]; intros f below vm Hf.
  - exists vm, f. simpl. rewrite !app_nil_r.
    split_and!; try done. by eapply same_but_thunks_refl.
  - destruct (push_invariant_eq self up counter a f below vm Hf)
      as (vm1 & Hround & Hheap & Hfr & Hsame).
    destruct (IH _ _ _ Hfr) as (vm' & f' & Hloop & Hheap' & Hfr' & Hth & Hsame').
    exists vm', f'. cbn [foldM]. unfold bind at 1.
    rewrite Hround, Hloop. split_and!.
    + done.
    + rewrite Hheap', Hheap, <- app_assoc. done.
    + done.
    + rewrite Hth, Hheap, length_app. simpl. rewrite <- app_assoc.
      simpl. do 3 f_equal. lia.
    + by eapply same_but_thunks_trans.
Qed.

Lemma objectInvariants_eq self obj : ∀ counter f below vm,
  frames vm = f :: below →
  0 ≤ counter → counter + Z.of_nat (length (leaves obj)) < 2 ^ 32 →
  ∃ vm' f',
    objectInvariants obj self counter vm
    = OK (counter + Z.of_nat (length (leaves obj)), vm')
    ∧ heap_thunks vm'
      = heap_thunks vm ++ invariant_thunks self counter (leaves obj)
    ∧ frames vm' = f' :: below
    ∧ Frame.thunks f'
      = Frame.thunks f
        ++ seq (length (heap_thunks vm))
             (length (invariant_thunks self counter (leaves obj)))
    ∧ same_but_thunks vm vm'.
Proof.
  induction obj as [a up fields asserts|a up value id cv|a l IHl r IHr];
    intros counter f below vm Hf Hc Hlt; cbn [leaves length] in *.
  - cbn [objectInvariants].
    change (fun (_ : unit) (assert : AST) => _)
      with (fun (_ : unit) (assert : AST) =>
              push_invariant self up counter assert).
    destruct (objectInvariants_asserts self up counter asserts f below vm Hf)
      as (vm' & f' & Hloop & Hheap & Hfr & Hth & Hsame).
    exists vm', f'. unfold bind at 1. rewrite Hloop.
    rewrite wrap32_small by lia. cbn [invariant_thunks leaf_asserts
      leaf_upValues]. rewrite app_nil_r, length_fmap.
    split_and!; done.
  - exists vm, f. cbn [objectInvariants]. rewrite wrap32_small by lia.
    cbn [invariant_thunks leaf_asserts fmap list_fmap app length seq].
    rewrite !app_nil_r. split_and!; try done.
    by eapply same_but_thunks_refl.
  - rewrite length_app, Nat2Z.inj_add in Hlt.
    pose proof (leaves_nonempty l). pose proof (leaves_nonempty r).
    destruct (IHr counter f below vm Hf Hc ltac:(lia))
      as (vm1 & f1 & Hr & Hheap1 & Hfr1 & Hth1 & Hsame1).
    destruct (IHl (counter + Z.of_nat (length (leaves r))) f1 below vm1
                Hfr1 ltac:(lia) ltac:(lia))
      as (vm2 & f2 & Hl & Hheap2 & Hfr2 & Hth2 & Hsame2).
    exists vm2, f2. cbn [objectInvariants]. unfold bind at 1.
    rewrite Hr, Hl. rewrite invariant_thunks_app.
    split_and!.
    + rewrite length_app, Nat2Z.inj_add. do 2 f_equal. lia.
    + rewrite Hheap2, Hheap1, <- app_assoc. done.
    + done.
    + rewrite Hth2, Hth1, Hheap1, !length_app, <- app_assoc.
      f_equal. by rewrite seq_app.
    + by eapply same_but_thunks_trans.
Qed.

(** [objectInvariants(obj, self, 0, stack.top().thunks)] makes one thunk
    for every assertion of every leaf of [obj], the leaves taken from
    the right, and appends the new thunks, in that order, to the list
    of the frame at the top of the stack.  The thunk of an assertion
    has the leaf's environment, [self], and as offset the position of
    the leaf, the number [findObject] would give it.  The counter ends
    as the number of leaves; nothing else changes. *)
Theorem objectInvariants_thunks (obj : HeapObject)
    (self : option HeapObject) (f : Frame) (below : list Frame)
    (vm : Interpreter) :
  frames vm = f :: below →
  Z.of_nat (length (leaves obj)) < 2 ^ 32 →
  ∃ vm' f',
    objectInvariants obj self 0 vm
    = OK (Z.of_nat (length (leaves obj)), vm')
    ∧ heap_thunks vm'
      = heap_thunks vm ++ invariant_thunks self 0 (leaves obj)
    ∧ frames vm' = f' :: below
    ∧ Frame.thunks f'
      = Frame.thunks f
        ++ seq (length (heap_thunks vm))
             (length (invariant_thunks self 0 (leaves obj)))
    ∧ same_but_thunks vm vm'.
Proof.
  intros Hf Hlt.
  destruct (objectInvariants_eq self obj 0 f below vm Hf) as
    (vm' & f' & Hrun & Hrest); [done|lia|].
  exists vm', f'. rewrite Hrun. done.
Qed.

Lemma objectInvariants_none self obj : ∀ counter vm,
  Forall (fun leaf => leaf_asserts leaf = []) (leaves obj) →
  ∃ c, objectInvariants obj self counter vm = OK (c, vm).
Proof.
  induction obj as [a up fields asserts|a up value id cv|a l IHl r IHr];
    intros counter vm Hall; cbn [leaves] in Hall.
  - apply Forall_cons_1 in Hall as [Hno _]. simpl in Hno. subst asserts.
    by eexists.
  - by eexists.
  - apply Forall_app in Hall as [Hr Hl].
    destruct (IHr counter vm Hr) as (c1 & Hc1).
    destruct (IHl c1 vm Hl) as (c2 & Hc2).
    exists c2. cbn [objectInvariants]. unfold bind at 1.
    by rewrite Hc1.
Qed.

(** [runInvariants] returns at once, leaving every member of the
    interpreter as it is, when the invariants of the object are
    already running, that is when the stack holds an [INVARIANTS]
    frame of the same object.  When they are not and no leaf of the
    object has an assertion, the [INVARIANTS] frame it pushes is popped
    again: the frames, the counter of calls, the heap and the scratch
    register are those from before, and no fuel beyond the first unit
    is needed. *)
Theorem runInvariants_skips fuel loc (obj : HeapObject) (vm : Interpreter) :
  (Exists (runs_invariants (Some obj)) (frames vm) →
   runInvariants (S fuel) loc (Some obj) vm = OK (tt, vm))
  ∧ (¬ Exists (runs_invariants (Some obj)) (frames vm) →
     Forall (fun leaf => leaf_asserts leaf = []) (leaves obj) →
     ∃ vm', runInvariants (S fuel) loc (Some obj) vm = OK (tt, vm')
       ∧ frames vm' = frames vm
       ∧ Stack.calls (stack vm') = Stack.calls (stack vm)
       ∧ heap_thunks vm' = heap_thunks vm
       ∧ scratch vm' = scratch vm).
Proof.
  pose proof (alreadyExecutingInvariants_Exists (Some obj) vm) as Hguard.
  split.
  - intros Hex%Hguard. cbn [runInvariants]. unfold bind at 1.
    unfold gets at 1. cbv beta iota. by rewrite Hex.
  - intros Hno Hall. cbn [runInvariants]. unfold bind at 1.
    unfold gets at 1. cbv beta iota.
    destruct (Stack.alreadyExecutingInvariants (stack vm) (Some obj))
      eqn:Hex; [destruct Hno; by apply Hguard|].
    unfold bind at 1. unfold newFrame at 1, modify. cbv beta iota.
    unfold bind at 1. cbn [objectInvariants_ptr].
    destruct (objectInvariants_none (Some obj) obj 0
                (set_stack (Stack.newFrame
                   (Frame.of_loc FRAME_INVARIANTS loc) (stack vm)) vm) Hall)
      as (c & ->).
    eexists. split; [reflexivity|]. done.
Qed.
End Invariants.

Section ManifestStack.
Context `{Externals}.

(** [manifestJson] leaves the frames that are on the stack when it is
    called where they are: when it returns they are the bottom of the
    stack, and the stack never was shorter in between.  The top one of
    them is not a [LOCAL] frame or the frame of a tail call, as when
    the stack is empty. *)
Theorem manifestJson_keeps_frames fuel loc (multiline : bool)
    (indent : UString) (vm vm' : Interpreter) (s : UString) :
  top_solid (frames vm) →
  manifestJson fuel loc multiline indent (watch vm) = OK (s, vm') →
  (∃ upper, frames vm' = upper ++ frames vm)
  ∧ (length (frames vm) ≤ Stack.low_water (stack vm'))%nat.
Proof.
  intros Htop Hrun.
  destruct (driver_ok fuel) as (_ & _ & HM & _).
  specialize (HM (frames vm) (length (frames vm)) loc multiline indent
                Htop (le_n _) (watch vm)).
  rewrite Hrun in HM. destruct HM as (upper & Hf & _ & _ & Hl).
  - exists []. split_and!; [done|done|constructor|done].
  - split; [by exists upper|done].
Qed.

(** [runInvariants], on an object that has an assertion and whose
    invariants are not running, returns with one frame more on the
    stack than it was called with: the [INVARIANTS] frame it pushed
    stays, holding the thunks of all the assertions with [elementId]
    at 1.  The size of the stack is read after that frame is pushed,
    so the evaluation of the first assertion ends above it. *)
Theorem runInvariants_leaves_frame fuel loc (obj : HeapObject)
    (vm vm' : Interpreter) :
  ¬ Exists (runs_invariants (Some obj)) (frames vm) →
  Z.of_nat (length (leaves obj)) < 2 ^ 32 →
  invariant_thunks (Some obj) 0 (leaves obj) ≠ [] →
  runInvariants (S fuel) loc (Some obj) vm = OK (tt, vm') →
  ∃ f, frames vm' = f :: frames vm
    ∧ Frame.kind f = FRAME_INVARIANTS
    ∧ Frame.self f = Some obj
    ∧ Frame.elementId f = 1
    ∧ Frame.thunks f
      = seq (length (heap_thunks vm))
          (length (invariant_thunks (Some obj) 0 (leaves obj))).
Proof.
  intros Hno Hlt Hne Hrun. cbn [runInvariants] in Hrun.
  unfold bind at 1 in Hrun. unfold gets at 1 in Hrun.
  cbv beta iota in Hrun.
  destruct (Stack.alreadyExecutingInvariants (stack vm) (Some obj))
    eqn:Hex; [by apply alreadyExecutingInvariants_Exists in Hex|].
  unfold bind at 1 in Hrun. unfold newFrame at 1, modify in Hrun.
  cbv beta iota in Hrun. cbn [objectInvariants_ptr] in Hrun.
  set (inv0 := Frame.of_loc FRAME_INVARIANTS loc) in *.
  set (vm1 := set_stack (Stack.newFrame inv0 (stack vm)) vm) in *.
  destruct (objectInvariants_eq (Some obj) obj 0 inv0 (frames vm) vm1)
    as (vm2 & f' & Hinv & Hheap & Hfr & Hth & Hsame);
    [done|done|lia|].
  unfold bind at 1 in Hrun. rewrite Hinv in Hrun.
  unfold bind at 1 in Hrun. unfold top at 1 in Hrun.
  unfold frames in Hfr. unfold Stack.top in Hrun. rewrite Hfr in Hrun.
  cbn [head] in Hrun. rewrite Hth in Hrun. cbn [app] in Hrun.
  change (heap_thunks vm1) with (heap_thunks vm) in *.
  destruct (invariant_thunks (Some obj) 0 (leaves obj)) as [|t0 ths]
    eqn:Hths; [done|].
  cbn [length seq] in Hrun.
  apply bind_OK in Hrun as (thunk & vm3 & Hget & Hrun).
  assert (vm3 = vm2) as ->.
  { unfold getThunk in Hget.
    destruct (heap_thunks vm2 !! _); [|done]. by injection Hget. }
  unfold bind at 1 in Hrun. unfold stackSize, gets in Hrun.
  cbv beta iota in Hrun. unfold Stack.size in Hrun. rewrite Hfr in Hrun.
  unfold bind at 1 in Hrun. unfold modifyTop at 1 in Hrun.
  rewrite Hfr in Hrun.
  unfold bind at 1 in Hrun. unfold modifyTop at 1 in Hrun.
  cbn [stack set_stack Stack.stack Stack.set_stack] in Hrun.
  set (f2 := Frame.set_self (Some obj) (Frame.set_elementId 1 f')) in *.
  apply bind_OK in Hrun as ([] & vm5 & Hcall & Hrun).
  destruct (Thunk.body thunk) as [body|]; [|done].
  assert (Frame.kind f' = FRAME_INVARIANTS) as Hkind.
  { destruct Hsame as (_ & _ & _ & _ & _ & _ & _ & g & g' & Hg & Hg' & Heq).
    unfold frames in Hg, Hg'. rewrite Hfr in Hg'. simpl in Hg, Hg'.
    injection Hg as <-. injection Hg' as <-.
    by apply (f_equal Frame.kind) in Heq. }
  assert (blocking f2) as Hblock.
  { unfold blocking, trimmable, Frame.isCall. simpl. rewrite Hkind.
    split; [done|]. by rewrite bool_decide_eq_false_2. }
  assert (frames vm5 = call_frame loc (Some (EThunk (length (heap_thunks vm))))
                         (Thunk.self thunk) (Thunk.offset thunk)
                         (Thunk.upValues thunk) :: f2 :: frames vm) as Hfr5.
  { unfold newCall in Hcall. rewrite Stack_newCall_eq in Hcall.
    cbv zeta in Hcall. unfold Stack.tailCallTrimStack in Hcall.
    cbn [stack set_stack Stack.stack Stack.set_stack] in Hcall.
    rewrite (trim_blocked (f2 :: _)) in Hcall by done.
    case_bool_decide; [done|]. injection Hcall as <-. done. }
  destruct (driver_ok fuel) as (HE & _).
  specialize (HE (f2 :: frames vm) 0%nat body Hblock (Nat.le_0_l _) vm5).
  cbn [length] in HE.
  assert (evaluate fuel body (S (length (frames vm))) vm5 = OK (tt, vm'))
    as Hrun' by exact Hrun.
  rewrite Hrun' in HE.
  destruct HE as [Hfinal _].
  { eexists [_]. rewrite Hfr5. split_and!; [done|simpl; lia| |lia].
    by repeat constructor. }
  exists f2. split_and!; [done|done|done|done|].
  subst f2. simpl. rewrite Hth. done.
Qed.
End ManifestStack.

(** * Several documents *)

(** A loop that appends to its accumulator one entry for each element
    has, when it ends, appended the entries of all of them in order. *)
Lemma foldM_appends {A B C} (f : list B → A → M (list B)) (key : B → C)
    (h : A → C) (l : list A) :
  (∀ r x vm r' vm', f r x vm = OK (r', vm') →
     key <$> r' = (key <$> r) ++ [h x]) →
  ∀ r vm r' vm', foldM f r l vm = OK (r', vm') →
    key <$> r' = (key <$> r) ++ (h <$> l).
Proof.
  intros Hround. induction l as [|x l IH]; intros r vm r' vm' Hrun.
  - injection Hrun as <- <-. by rewrite app_nil_r.
  - cbn [foldM] in Hrun.
    apply bind_OK in Hrun as (r1 & vm1 & Hx & Hrest).
    rewrite (IH _ _ _ _ Hrest), (Hround _ _ _ _ _ Hx), <- app_assoc. done.
Qed.

Lemma run_fresh_OK `{Externals} {A} (m : M A) ext_vars max_stack a :
  run_fresh m ext_vars max_stack = OK a →
  ∃ vm', m (Interpreter_make ext_vars max_stack) = OK (a, vm').
Proof.
  unfold run_fresh.
  destruct (m _) as [[a' vm']| | | | |]; try done. intros [= <-]. eauto.
Qed.

Section Streams.
Context `{Externals}.

Lemma manifestStream_cases fuel vm :
  manifestStream fuel vm
  = match scratch vm with
    | ARRAY arr => manifestStream fuel vm
    | v =>
        throw (LocationRange_msg "During manifestation")
          ("Stream mode: Top-level object was a "
           +:+ type_str_value v +:+ ", "
           +:+ "should be an array whose elements hold "
           +:+ "the JSON for each document in the stream.") vm
    end.
Proof.
  destruct (scratch vm) eqn:Hscr; try reflexivity;
    unfold manifestStream; unfold bind at 1; unfold getScratch, gets;
    cbv beta iota; by rewrite Hscr.
Qed.

Lemma manifestStream_length fuel vm docs vm' :
  manifestStream fuel vm = OK (docs, vm') →
  ∃ arr, scratch vm = ARRAY arr ∧ length docs = length arr.
Proof.
  intros Hrun.
  destruct (scratch vm) as [| | | |arr| |] eqn:Hscr;
    try (by rewrite manifestStream_cases, Hscr in Hrun).
  exists arr. split; [done|].
  unfold manifestStream in Hrun. unfold bind at 1 in Hrun.
  unfold getScratch, gets in Hrun. cbv beta iota in Hrun.
  rewrite Hscr in Hrun.
  apply (foldM_appends _ (fun _ => tt) (fun _ => tt)) in Hrun.
  - apply (f_equal length) in Hrun.
    by rewrite length_app, !length_fmap in Hrun.
  - clear. intros r th vm r' vm' Hround.
    apply bind_OK in Hround as (thunk & vm1 & _ & Hround).
    apply bind_OK in Hround as ([] & vm2 & _ & Hround).
    apply bind_OK in Hround as (element & vm3 & _ & Hround).
    apply bind_OK in Hround as (f & vm4 & _ & Hround).
    apply bind_OK in Hround as ([] & vm5 & _ & Hround).
    apply bind_OK in Hround as ([] & vm6 & _ & Hround).
    injection Hround as <- <-. by rewrite fmap_app.
Qed.

Lemma manifestMulti_cases fuel string_ vm :
  manifestMulti fuel string_ vm
  = match scratch vm with
    | OBJECT obj => manifestMulti fuel string_ vm
    | v =>
        throw (LocationRange_msg "During manifestation")
          ("Multi mode: Top-level object was a " +:+ type_str_value v
           +:+ ", " +:+ "should be an object whose keys are filenames and "
           +:+ "values hold " +:+ "the JSON for that file.") vm
    end.
Proof.
  destruct (scratch vm) eqn:Hscr; try reflexivity;
    unfold manifestMulti; unfold bind at 1; unfold getScratch, gets;
    cbv beta iota; by rewrite Hscr.
Qed.

Lemma manifestMulti_names fuel string_ vm files vm' :
  manifestMulti fuel string_ vm = OK (files, vm') →
  ∃ obj, scratch vm = OBJECT obj
    ∧ files.*1 = encode_utf8 <$> sorted_fields obj.
Proof.
  intros Hrun.
  destruct (scratch vm) as [| | | | |obj|] eqn:Hscr;
    try (by rewrite manifestMulti_cases, Hscr in Hrun).
  exists obj. split; [done|].
  unfold manifestMulti in Hrun. unfold bind at 1 in Hrun.
  unfold getScratch, gets in Hrun. cbv beta iota in Hrun.
  rewrite Hscr in Hrun.
  apply bind_OK in Hrun as ([] & vm1 & _ & Hrun).
  apply (foldM_appends _ fst encode_utf8) in Hrun; [done|].
  clear. intros r f vm r' vm' Hround.
  apply bind_OK in Hround as (body & vm1 & _ & Hround).
  apply bind_OK in Hround as (scr & vm2 & _ & Hround).
  apply bind_OK in Hround as ([] & vm3 & _ & Hround).
  apply bind_OK in Hround as (sz & vm4 & _ & Hround).
  apply bind_OK in Hround as ([] & vm5 & _ & Hround).
  apply bind_OK in Hround as (vstr & vm6 & _ & Hround).
  apply bind_OK in Hround as (top_ & vm7 & _ & Hround).
  apply bind_OK in Hround as ([] & vm8 & _ & Hround).
  apply bind_OK in Hround as ([] & vm9 & _ & Hround).
  injection Hround as <- <-. by rewrite fmap_app.
Qed.

(** The fields [manifestJson] and [manifestMulti] iterate over: when
    the scratch register holds an object and the manifestation
    returns, the text [manifestJson] returns has one entry for each
    field that [objectFields] collects for manifestation, and
    [manifestMulti] returns one file for each of them; the entries and
    the files come in the strictly increasing order of the names, so
    none comes twice. *)
Theorem manifest_fields_in_order (vm : Interpreter)
    (obj : option HeapObject) :
  scratch vm = OBJECT obj →
  (∀ fuel loc multiline indent s vm',
     manifestJson fuel loc multiline indent vm = OK (s, vm') →
     ∃ entries,
       s = object_text multiline indent entries
       ∧ entries.*1 = sorted_fields obj
       ∧ StronglySorted ustring_lt entries.*1
       ∧ (∀ f, f ∈ entries.*1 ↔ f ∈ objectFields_ptr obj true)
       ∧ length entries = size (objectFields_ptr obj true))
  ∧ (∀ fuel string_ files vm',
       manifestMulti fuel string_ vm = OK (files, vm') →
       ∃ names,
         files.*1 = encode_utf8 <$> names
         ∧ names = sorted_fields obj
         ∧ StronglySorted ustring_lt names
         ∧ (∀ f, f ∈ names ↔ f ∈ objectFields_ptr obj true)
         ∧ length files = size (objectFields_ptr obj true)).
Proof.
  intros Hscr.
  destruct (sorted_fields_sorted obj) as (Hsorted & Hmem & Hlen).
  split.
  - intros fuel loc multiline indent s vm' Hrun.
    destruct (manifestJson_object_text _ _ _ _ _ _ _ _ Hscr Hrun)
      as (entries & Hnames & Htext).
    exists entries. rewrite Hnames. split_and!; try done.
    by rewrite <- Hlen, <- Hnames, length_fmap.
  - intros fuel string_ files vm' Hrun.
    destruct (manifestMulti_names _ _ _ _ _ Hrun) as (obj' & Hscr' & Hn).
    rewrite Hscr in Hscr'. injection Hscr' as <-.
    exists (sorted_fields obj). split_and!; try done.
    apply (f_equal length) in Hn. rewrite !length_fmap in Hn.
    by rewrite Hn.
Qed.

(** Stream mode: when the program evaluates to an array, the run gives
    one document for each of its elements, and none for the empty
    array; when it evaluates to anything else the run ends with an
    error located "During manifestation". *)
Theorem stream_documents fuel (ast_ : AST) ext_vars max_stack
    (vm : Interpreter) :
  evaluate fuel ast_ 0 (Interpreter_make ext_vars max_stack) = OK (tt, vm) →
  (∀ docs, jsonnet_vm_execute_stream fuel ast_ ext_vars max_stack = OK docs →
     ∃ arr, scratch vm = ARRAY arr ∧ length docs = length arr)
  ∧ (scratch vm = ARRAY [] →
     jsonnet_vm_execute_stream fuel ast_ ext_vars max_stack = OK [])
  ∧ ((∀ arr, scratch vm ≠ ARRAY arr) →
     ∃ e, jsonnet_vm_execute_stream fuel ast_ ext_vars max_stack = Throw e
          ∧ msg e
            = "Stream mode: Top-level object was a "
              +:+ type_str_value (scratch vm) +:+ ", "
              +:+ "should be an array whose elements hold "
              +:+ "the JSON for each document in the stream."
          ∧ tf_location <$> head (stack_trace e)
            = Some (LocationRange_msg "During manifestation")).
Proof.
  intros Heval. unfold jsonnet_vm_execute_stream, run_fresh.
  unfold bind at 1 2 3. rewrite Heval. split_and!.
  - intros docs Hrun.
    destruct (manifestStream fuel vm) as [[docs' vm']| | | | |] eqn:Hm;
      try done.
    injection Hrun as <-. by eapply manifestStream_length.
  - intros Hscr. unfold manifestStream. unfold bind at 1.
    unfold getScratch, gets. cbv beta iota. by rewrite Hscr.
  - intros Hno. rewrite manifestStream_cases.
    destruct (scratch vm) as [| | | |arr| |] eqn:Hscr.
    all: try by destruct (Hno arr).
    all: eexists; split; [reflexivity|].
    all: split; [reflexivity|apply makeError_location].
Qed.

(** Multi mode: when the program evaluates to an object, the run gives
    one file for each field of the object that is not hidden, named
    after the field, in the order of the names; when it evaluates to
    anything else the run ends with an error located "During
    manifestation". *)
Theorem multi_files fuel (ast_ : AST) ext_vars max_stack
    (string_output : bool) (vm : Interpreter) :
  evaluate fuel ast_ 0 (Interpreter_make ext_vars max_stack) = OK (tt, vm) →
  (∀ files,
     jsonnet_vm_execute_multi fuel ast_ ext_vars max_stack string_output
     = OK files →
     ∃ obj, scratch vm = OBJECT obj
       ∧ files.*1 = encode_utf8 <$> sorted_fields obj)
  ∧ ((∀ obj, scratch vm ≠ OBJECT obj) →
     ∃ e, jsonnet_vm_execute_multi fuel ast_ ext_vars max_stack
            string_output = Throw e
          ∧ msg e
            = "Multi mode: Top-level object was a "
              +:+ type_str_value (scratch vm) +:+ ", "
              +:+ "should be an object whose keys are filenames and "
              +:+ "values hold " +:+ "the JSON for that file."
          ∧ tf_location <$> head (stack_trace e)
            = Some (LocationRange_msg "During manifestation")).
Proof.
  intros Heval. unfold jsonnet_vm_execute_multi, run_fresh.
  unfold bind at 1 2. rewrite Heval. split_and!.
  - intros files Hrun.
    destruct (manifestMulti fuel string_output vm)
      as [[files' vm']| | | | |] eqn:Hm; try done.
    injection Hrun as <-. by eapply manifestMulti_names.
  - intros Hno. rewrite manifestMulti_cases.
    destruct (scratch vm) as [| | | | |obj|] eqn:Hscr.
    all: try by destruct (Hno obj).
    all: eexists; split; [reflexivity|].
    all: split; [reflexivity|apply makeError_location].
Qed.
End Streams.

Module StreamWitness.
Import Demo StreamExample.

Lemma stream_documents_witness :
  jsonnet_vm_execute_stream 50 docs ∅ 10 = OK ["1"; "2"]
  ∧ ∃ arr, scratch (after docs) = ARRAY arr
           ∧ length ["1"; "2"] = length arr.
Proof.
  split; [vm_compute; reflexivity|].
  refine (proj1 (stream_documents 50 docs ∅ 10 (after docs) _)
            ["1"; "2"] _); vm_compute; reflexivity.
Defined.

Lemma multi_files_witness :
  jsonnet_vm_execute_multi 50 files ∅ 10 false
  = OK [("a.json", "1"); ("b.json", "2")]
  ∧ ∃ obj, scratch (after files) = OBJECT obj
           ∧ [("a.json", "1"); ("b.json", "2")].*1
             = encode_utf8 <$> sorted_fields obj.
Proof.
  split; [vm_compute; reflexivity|].
  refine (proj1 (multi_files 50 files ∅ 10 false (after files) _)
            [("a.json", "1"); ("b.json", "2")] _); vm_compute; reflexivity.
Defined.

Lemma manifest_fields_in_order_witness :
  ∃ s vm' entries,
    manifestJson 10 loc0 false [] FieldsExample.vm_two = OK (s, vm')
    ∧ s = object_text false [] entries
    ∧ entries.*1 = [U "a"; U "b"].
Proof.
  destruct (manifestJson 10 loc0 false [] FieldsExample.vm_two)
    as [[s vm']| | | | |] eqn:Hrun; try (vm_compute in Hrun; discriminate).
  destruct (proj1 (manifest_fields_in_order FieldsExample.vm_two
                     (Some FieldsExample.two) eq_refl)
              10%nat loc0 false [] s vm' Hrun)
    as (entries & Htext & Hnames & _).
  exists s, vm', entries. split; [reflexivity|].
  split; [exact Htext|exact Hnames].
Defined.
End StreamWitness.

(** * The types of the builtins' parameters *)

Section Signatures.
Context `{Externals}.

Lemma validateBuiltinArgs_rejects {A} loc builtin args params
    (k : M A) vm :
  Value_t <$> args ≠ params →
  (validateBuiltinArgs loc builtin args params;; k) vm
  = Throw (makeError (heap_thunks vm) (stack vm) loc
      ("Builtin function "
       +:+ encode_utf8 (jsonnet_builtin_decl_name builtin)
       +:+ " expected (" +:+ comma_sep (type_str <$> params)
       +:+ ") but got (" +:+ comma_sep (type_str_value <$> args) +:+ ")")).
Proof.
  intros Hne. unfold bind, validateBuiltinArgs.
  by rewrite bool_decide_eq_false_2.
Qed.

(** A builtin that declares the types of its parameters is not run on
    arguments of other types or in another number: the call raises an
    error, located at the call, that names the builtin and lists the
    types expected and the types given.  Numbers that belong to no
    builtin abort the run. *)
Theorem builtin_call_rejects loc (builtin : Z) (params : list ValueType)
    (args : list Value) (vm : Interpreter) :
  builtin_signature builtin = Some params →
  Value_t <$> args ≠ params →
  builtin_call loc builtin args vm
  = Throw (makeError (heap_thunks vm) (stack vm) loc
      ("Builtin function "
       +:+ encode_utf8 (jsonnet_builtin_decl_name builtin)
       +:+ " expected (" +:+ comma_sep (type_str <$> params)
       +:+ ") but got (" +:+ comma_sep (type_str_value <$> args) +:+ ")")).
Proof.
  intros Hsig Hne. unfold builtin_signature in Hsig.
  destruct builtin as [|p|p]; [| |done].
  - injection Hsig as <-. by apply validateBuiltinArgs_rejects.
  - do 5 (try destruct p as [p|p|]); try discriminate Hsig;
      injection Hsig as <-; cbn [builtin_call];
      unfold builtin_makeArray, builtin_unary_math, builtin_char, one_double,
        builtin_filter, builtin_objectHasEx, builtin_objectFieldsEx,
        builtin_codepoint, builtin_extVar.
    all: try by apply validateBuiltinArgs_rejects.
    all: try (unfold bind at 1; unfold bind at 1;
              unfold validateBuiltinArgs;
              by rewrite bool_decide_eq_false_2).
Qed.
End Signatures.

(** * Array literals and lengths *)

Lemma captured_lookup s fvs x :
  x ∈ fvs → captured s fvs !! x = Stack.lookUpVar s x.
Proof.
  unfold captured.
  assert (∀ env : BindingFrame,
            foldl (fun (env : BindingFrame) fv =>
                     match Stack.lookUpVar s fv with
                     | Some th => <[fv := th]> env
                     | None => env
                     end) env fvs !! x
            = if decide (x ∈ fvs) then
                match Stack.lookUpVar s x with
                | Some th => Some th
                | None => env !! x
                end
              else env !! x) as Hfold.
  { induction fvs as [|fv fvs IH]; intros env; cbn [foldl].
    - rewrite decide_False; [done|]. by intros ?%elem_of_nil.
    - rewrite IH. destruct (decide (x = fv)) as [->|Hne].
      + rewrite (decide_True (P := fv ∈ fv :: fvs)) by (apply elem_of_cons; by left).
        destruct (Stack.lookUpVar s fv) eqn:Hfv.
        * rewrite lookup_insert_eq. by case_decide.
        * by case_decide.
      + assert (env !! x
                = match Stack.lookUpVar s fv with
                  | Some th => <[fv := th]> env
                  | None => env
                  end !! x) as <-.
        { destruct (Stack.lookUpVar s fv); [|done].
          by rewrite lookup_insert_ne. }
        destruct (decide (x ∈ fvs)) as [Hin|Hnot].
        * rewrite decide_True; [done|]. by (apply elem_of_cons; by right).
        * rewrite decide_False; [done|].
          intros [?|?]%elem_of_cons; done. }
  intros Hx. rewrite Hfold, decide_True by done.
  destruct (Stack.lookUpVar s x); [done|]. apply lookup_empty.
Qed.

Section Arrays.
Context `{Externals}.

Lemma capture_eq fvs vm : capture fvs vm = OK (captured (stack vm) fvs, vm).
Proof.
  unfold capture, captured. generalize (∅ : BindingFrame).
  induction fvs as [|fv fvs IH]; intros env; [done|].
  cbn [foldM foldl]. unfold bind at 1. unfold bind at 1.
  unfold lookUpVar at 1, gets. cbv beta.
  destruct (Stack.lookUpVar (stack vm) fv); apply IH.
Qed.

Lemma push_element_eq el els vm :
  scratch vm = ARRAY els →
  push_element (Stack.getSelfBinding (stack vm)).1
    (Stack.getSelfBinding (stack vm)).2 el vm
  = OK (tt,
        set_scratch (ARRAY (els ++ [length (heap_thunks vm)]))
          (set_heap_thunks
             (heap_thunks vm ++ [literal_element (stack vm) el]) vm)).
Proof.
  intros Hscr. unfold push_element. unfold bind at 1.
  unfold makeThunk at 1. cbv beta iota.
  unfold bind at 1. rewrite capture_eq.
  unfold bind at 1. unfold modifyThunk at 1.
  cbn [stack heap_thunks set_heap_thunks].
  rewrite lookup_app_r by done. rewrite Nat.sub_diag.
  cbn [lookup list_lookup].
  unfold scratch_push_back, bind, getScratch, gets, setScratch, modify.
  cbn [scratch set_heap_thunks]. rewrite Hscr.
  do 2 f_equal. unfold set_scratch, set_heap_thunks.
  cbn [heap_thunks heap_next scratch stack cachedImports externalVars].
  f_equal. rewrite insert_app_r_alt by done. by rewrite Nat.sub_diag.
Qed.

Lemma array_loop self offset elements : ∀ els vm,
  self = (Stack.getSelfBinding (stack vm)).1 →
  offset = (Stack.getSelfBinding (stack vm)).2 →
  scratch vm = ARRAY els →
  foldM (fun (_ : unit) (el : AST) => push_element self offset el)
    tt elements vm
  = OK (tt,
        set_scratch
          (ARRAY (els ++ seq (length (heap_thunks vm)) (length elements)))
          (set_heap_thunks
             (heap_thunks vm ++ (literal_element (stack vm) <$> elements))
             vm)).
Proof.
  induction elements as [|el elements IH]; intros els vm -> -> Hscr.
  - simpl. unfold ret. rewrite !app_nil_r. destruct vm. simpl in *.
    by subst.
  - cbn [foldM]. unfold bind at 1. rewrite (push_element_eq el els) by done.
    rewrite (IH (els ++ [length (heap_thunks vm)])) by done.
    do 2 f_equal. unfold set_scratch, set_heap_thunks.
    cbn [heap_thunks heap_next scratch stack cachedImports externalVars].
    rewrite length_app. cbn [length fmap list_fmap].
    rewrite <- !app_assoc. cbn [app].
    replace (length (heap_thunks vm) + 1)%nat
      with (S (length (heap_thunks vm))) by lia. done.
Qed.

(** An array literal is built without evaluating its elements: with
    the stack at its initial size, [evaluate] returns after making one
    thunk for each element, in order, and leaving the array of these
    thunks in the scratch register.  The thunk of an element is not
    filled; it holds the element as its body, the [self] and offset of
    the closest call frame, and the bindings in scope of the
    element's free variables.  The stack and the thunks that existed
    are left as they were. *)
Theorem array_literal_is_lazy fuel a (elements : list AST)
    (vm : Interpreter) :
  let vm' :=
    set_scratch
      (ARRAY (seq (length (heap_thunks vm)) (length elements)))
      (set_heap_thunks
         (heap_thunks vm ++ (literal_element (stack vm) <$> elements)) vm) in
  evaluate (S (S fuel)) (AST_ARRAY a elements) (Stack.size (stack vm)) vm
  = OK (tt, vm')
  ∧ ∀ (i : nat) el, elements !! i = Some el →
      ∃ th, heap_thunks vm' !! (length (heap_thunks vm) + i)%nat = Some th
        ∧ Thunk.filled th = false
        ∧ Thunk.body th = Some el
        ∧ ∀ x, x ∈ ast_freeVariables el →
            Thunk.upValues th !! x = Stack.lookUpVar (stack vm) x.
Proof.
  intros vm'. split.
  - cbn [evaluate eval_ast]. unfold bind at 1. unfold bind at 1.
    unfold getSelfBinding at 1, gets. cbv beta iota.
    destruct (Stack.getSelfBinding (stack vm)) as [self offset] eqn:Hself.
    unfold bind at 1. unfold bind at 1.
    unfold setScratch at 1, modify. cbv beta iota.
    change (fun (_ : unit) (el : AST) => _)
      with (fun (_ : unit) (el : AST) => push_element self offset el).
    unfold bind at 1.
    rewrite (array_loop self offset elements [])
      by (try done; simpl; by rewrite Hself).
    cbn [app]. unfold ret at 1. cbv beta iota.
    rewrite unwind_S. unfold bind at 1. unfold stackSize, gets. cbv beta iota.
    rewrite bool_decide_eq_false_2 by (simpl; lia). reflexivity.
  - intros i el Hi. exists (literal_element (stack vm) el). split_and!.
    + subst vm'. cbn [heap_thunks set_scratch set_heap_thunks].
      rewrite lookup_app_r by lia.
      replace (length (heap_thunks vm) + i - length (heap_thunks vm))%nat
        with i by lia.
      by rewrite list_lookup_fmap, Hi.
    + done.
    + done.
    + intros x Hx. unfold literal_element. simpl.
      by apply captured_lookup.
Qed.
End Arrays.

Section Lengths.
Context `{Externals}.

(** [std.length] (builtin 14) of an object is the number of its fields
    that are not hidden, the fields [std.objectFieldsEx] lists without
    the hidden ones; read back as an integer the result is that
    number exactly. *)
Theorem length_of_object loc (obj : option HeapObject) (vm : Interpreter) :
  Z.of_nat (length (field_names obj false)) < 2 ^ 53 →
  ∃ d, builtin_call loc 14 [OBJECT obj] vm
       = OK (PopFrame, set_scratch (DOUBLE d) vm)
    ∧ double_to_long d = OK (Z.of_nat (length (field_names obj false))).
Proof.
  intros Hlt.
  assert (length (field_names obj false) = size (objectFields_ptr obj true))
    as Hlen.
  { unfold field_names. rewrite merge_sort_Permutation. done. }
  exists (Z_to_double (Z.of_nat (size (objectFields_ptr obj true)))).
  split; [reflexivity|].
  rewrite <- Hlen. apply double_to_long_of_Z. lia.
Qed.
End Lengths.

(** * The theorems at work *)

Module ExtraWitness.
Import Demo ExtraExample ObjectExample DriverExample ImportExample
  ImportExampleMore.

Lemma lookUpVar_scope_witness :
  Stack.lookUpVar_from ([inner] ++ outer :: []) (U "x") = Some 0%nat.
Proof.
  refine (proj1 (lookUpVar_scope (U "x") [inner] outer [] _) 0%nat _).
  - constructor; [split; reflexivity|constructor].
  - reflexivity.
Defined.

Lemma objectHasEx_answer_witness :
  ∃ found,
    builtin_call loc0 13 [OBJECT (Some both); STRING (U "a"); BOOLEAN false]
      vm0
    = OK (PopFrame, set_scratch (BOOLEAN found) vm0)
    ∧ (false = true →
       (found = true ↔
        ∃ leaf, leaf ∈ leaves both ∧ has_field (U "a") leaf = true))
    ∧ (false = false →
       (found = true ↔ U "a" ∈ sorted_fields (Some both))).
Proof.
  apply (objectHasEx_answer loc0 both (U "a") false vm0).
  vm_compute. reflexivity.
Defined.

Lemma codepoint_char_round_trip_witness :
  ∃ d,
    builtin_call loc0 16 [STRING [65%N]] vm0
    = OK (PopFrame, set_scratch (DOUBLE d) vm0)
    ∧ builtin_call loc0 17 [DOUBLE d] vm0
      = OK (PopFrame, set_scratch (STRING [65%N]) vm0).
Proof.
  apply (codepoint_char_round_trip loc0 65%N vm0); vm_compute; reflexivity.
Defined.

Lemma char_codepoint_witness :
  builtin_call loc0 17 [DOUBLE (Z_to_double 65)] vm0
  = OK (PopFrame, set_scratch (STRING [Z.to_N 65]) vm0)
  ∧ builtin_call loc0 16 [STRING [Z.to_N 65]] vm0
    = OK (PopFrame, set_scratch (DOUBLE (Z_to_double 65)) vm0).
Proof.
  generalize (char_codepoint loc0 (Z_to_double 65) vm0).
  change (double_to_long (Z_to_double 65)) with (OK 65 : Result Z).
  intros (_ & _ & Hchar). apply Hchar.
  vm_compute. split; [discriminate|reflexivity].
Defined.

Lemma bitwise_on_integers_witness :
  binary_double loc0 BOP_BITWISE_AND (Z_to_double 6) (Z_to_double 3) vm0
  = OK (DOUBLE (Z_to_double (Z.land 6 3)), vm0).
Proof.
  refine (proj1 (bitwise_on_integers loc0 6 3 vm0 _ _));
    vm_compute; split; reflexivity.
Defined.

Lemma makeArray_elements_witness :
  ∃ vm' els,
    builtin_call loc0 0 [DOUBLE (Z_to_double (Z.of_nat 2)); FUNCTION identity]
      vm2
    = OK (PopFrame, vm')
    ∧ scratch vm' = ARRAY els ∧ length els = 2%nat.
Proof.
  destruct (makeArray_elements loc0 identity (U "i") 2 base_frame [] vm2)
    as (vm' & els & Hcall & Hscr & Hlen & _).
  - reflexivity.
  - vm_compute. reflexivity.
  - reflexivity.
  - exists vm', els. split; [exact Hcall|]. split; [exact Hscr|exact Hlen].
Defined.

Lemma importString_cached_witness :
  @importString ext there (U "x.libsonnet") imported.2
  = OK (imported.1, imported.2).
Proof.
  refine (proj1 (importString_cached found ext here there (U "x.libsonnet")
                   vm0 imported.2 imported.1 _ _)).
  - vm_compute. reflexivity.
  - vm_compute. reflexivity.
Defined.

Lemma newCall_pop_witness :
  ∃ s'', Stack.pop called = Some s''
    ∧ Stack.stack s'' = Stack.stack (Stack.tailCallTrimStack (Stack.make 10))
    ∧ Stack.calls s'' = Stack.calls (Stack.tailCallTrimStack (Stack.make 10))
    ∧ Stack.limit s'' = Stack.limit (Stack.make 10).
Proof.
  apply (newCall_pop [] loc0 None None 0 ∅ (Stack.make 10) called).
  - vm_compute. split; [reflexivity|]. split; [discriminate|reflexivity].
  - vm_compute. reflexivity.
Defined.

Lemma objectInvariants_thunks_witness :
  ∃ vm' f',
    objectInvariants guarded (Some guarded) 0 vm2
    = OK (Z.of_nat (length (leaves guarded)), vm')
    ∧ heap_thunks vm'
      = heap_thunks vm2 ++ invariant_thunks (Some guarded) 0 (leaves guarded)
    ∧ frames vm' = f' :: []
    ∧ Frame.thunks f'
      = Frame.thunks base_frame
        ++ seq (length (heap_thunks vm2))
             (length (invariant_thunks (Some guarded) 0 (leaves guarded)))
    ∧ same_but_thunks vm2 vm'.
Proof.
  apply (objectInvariants_thunks guarded (Some guarded) base_frame [] vm2).
  - reflexivity.
  - vm_compute. reflexivity.
Defined.

Lemma runInvariants_leaves_frame_witness :
  ∃ f, frames checked = f :: frames (Interpreter_make ∅ 10)
    ∧ Frame.kind f = FRAME_INVARIANTS
    ∧ Frame.self f = Some guarded
    ∧ Frame.elementId f = 1
    ∧ Frame.thunks f
      = seq (length (heap_thunks (Interpreter_make ∅ 10)))
          (length (invariant_thunks (Some guarded) 0 (leaves guarded))).
Proof.
  apply (runInvariants_leaves_frame 9 loc0 guarded (Interpreter_make ∅ 10)
           checked).
  - intros Hex. exact (proj1 (Exists_nil _) Hex).
  - vm_compute. reflexivity.
  - discriminate.
  - vm_compute. reflexivity.
Defined.

Lemma manifestJson_keeps_frames_witness :
  frames holding = [base_frame]
  ∧ (∃ upper, frames manifested.2 = upper ++ frames holding)
  ∧ (length (frames holding) ≤ Stack.low_water (stack manifested.2))%nat.
Proof.
  split; [reflexivity|].
  apply (manifestJson_keeps_frames 20 loc0 true [] holding manifested.2
           manifested.1).
  - split; [discriminate|reflexivity].
  - vm_compute. reflexivity.
Defined.

Lemma builtin_call_rejects_witness :
  builtin_call loc0 16 [DOUBLE (Z_to_double 1)] vm0
  = Throw (makeError (heap_thunks vm0) (stack vm0) loc0
      ("Builtin function "
       +:+ encode_utf8 (jsonnet_builtin_decl_name 16)
       +:+ " expected (" +:+ comma_sep (type_str <$> [T_STRING])
       +:+ ") but got ("
       +:+ comma_sep (type_str_value <$> [DOUBLE (Z_to_double 1)]) +:+ ")")).
Proof.
  apply (builtin_call_rejects loc0 16 [T_STRING] [DOUBLE (Z_to_double 1)] vm0).
  - reflexivity.
  - discriminate.
Defined.

Lemma length_of_object_witness :
  ∃ d, builtin_call loc0 14 [OBJECT (Some both)] vm0
       = OK (PopFrame, set_scratch (DOUBLE d) vm0)
    ∧ double_to_long d
      = OK (Z.of_nat (length (field_names (Some both) false))).
Proof.
  apply (length_of_object loc0 (Some both) vm0). vm_compute. reflexivity.
Defined.
End ExtraWitness.

(** * Indexing strings and arrays *)

Section Indexing.
Context `{Externals}.

Lemma index_of_long (f : Frame) a target index (v : Value)
    (d : float) (i : Z) (vm : Interpreter) :
  Frame.ast f = Some (AST_INDEX a target index) →
  Frame.val f = v →
  scratch vm = DOUBLE d →
  double_to_long d = OK i →
  (∀ value, v = STRING value →
     (i < 0 ∨ Z.of_nat (length value) ≤ i →
      ∃ e, frame_index_index f vm = Throw e
           ∧ msg e = "String bounds error: " +:+ pretty i
                     +:+ " not within [0, "
                     +:+ pretty (Z.of_nat (length value)) +:+ ")"
           ∧ tf_location <$> head (stack_trace e) = Some (location a))
     ∧ (0 ≤ i < Z.of_nat (length value) →
        ∃ c, value !! Z.to_nat i = Some c
             ∧ frame_index_index f vm
               = OK (PopFrame, set_scratch (STRING (one_char c)) vm)))
  ∧ (∀ array, v = ARRAY array →
       (i < 0 ∨ Z.of_nat (length array) ≤ i →
        ∃ e, frame_index_index f vm = Throw e
             ∧ msg e = "Array bounds error: " +:+ pretty i
                       +:+ " not within [0, "
                       +:+ pretty (Z.of_nat (length array)) +:+ ")"
             ∧ tf_location <$> head (stack_trace e) = Some (location a))
       ∧ (0 ≤ i < Z.of_nat (length array) →
          ∃ r, array !! Z.to_nat i = Some r
               ∧ ∀ thunk, heap_thunks vm !! r = Some thunk →
                   Thunk.filled thunk = true →
                   frame_index_index f vm
                   = OK (PopFrame, set_scratch (Thunk.content thunk) vm))).
Proof.
  intros Hast Hval Hscr Hd. split.
  - intros value ->.
    assert (frame_index_index f vm
            = (if bool_decide (i < 0)
                  || bool_decide (Z.of_nat (length value) ≤ i) then
                 throw (location a)
                   ("String bounds error: " +:+ pretty i
                    +:+ " not within [0, "
                    +:+ pretty (Z.of_nat (length value)) +:+ ")")
               else
                 match value !! Z.to_nat i with
                 | Some c =>
                     setScratch (makeString (one_char c));; ret PopFrame
                 | None => undefined
                 end) vm) as ->.
    { unfold frame_index_index. rewrite Hast, Hval.
      unfold bind at 1. unfold getScratch, gets. cbv beta iota.
      rewrite Hscr. unfold bind at 1. rewrite Hd. reflexivity. }
    split.
    + intros Hout.
      assert (bool_decide (i < 0)
              || bool_decide (Z.of_nat (length value) ≤ i) = true) as ->.
      { destruct Hout; [rewrite bool_decide_eq_true_2 by done; done|].
        rewrite (bool_decide_eq_true_2 (_ ≤ i)) by done.
        apply orb_true_r. }
      eexists. split; [reflexivity|].
      split; [reflexivity|apply makeError_location].
    + intros Hin. rewrite !bool_decide_eq_false_2 by lia.
      destruct (lookup_lt_is_Some_2 value (Z.to_nat i)) as [c Hc]; [lia|].
      exists c. split; [done|]. by rewrite Hc.
  - intros array ->.
    assert (frame_index_index f vm
            = (if bool_decide (i < 0)
                  || bool_decide (Z.of_nat (length array) ≤ i) then
                 throw (location a)
                   ("Array bounds error: " +:+ pretty i
                    +:+ " not within [0, "
                    +:+ pretty (Z.of_nat (length array)) +:+ ")")
               else
                 match array !! Z.to_nat i with
                 | Some r =>
                     do thunk <- getThunk r;
                     if Thunk.filled thunk then
                       setScratch (Thunk.content thunk);; ret PopFrame
                     else pop;; force_thunk (location a) r thunk
                 | None => undefined
                 end) vm) as ->.
    { unfold frame_index_index. rewrite Hast, Hval.
      unfold bind at 1. unfold getScratch, gets. cbv beta iota.
      rewrite Hscr. unfold bind at 1. rewrite Hd. reflexivity. }
    split.
    + intros Hout.
      assert (bool_decide (i < 0)
              || bool_decide (Z.of_nat (length array) ≤ i) = true) as ->.
      { destruct Hout; [rewrite bool_decide_eq_true_2 by done; done|].
        rewrite (bool_decide_eq_true_2 (_ ≤ i)) by done.
        apply orb_true_r. }
      eexists. split; [reflexivity|].
      split; [reflexivity|apply makeError_location].
    + intros Hin. rewrite !bool_decide_eq_false_2 by lia.
      destruct (lookup_lt_is_Some_2 array (Z.to_nat i)) as [r Hr]; [lia|].
      exists r. split; [done|]. intros thunk Hth Hfilled. rewrite Hr.
      unfold bind at 1. unfold getThunk. cbn [orb]. cbv beta. rewrite Hth, Hfilled. reflexivity.
Qed.

(** [FRAME_INDEX_INDEX] on a string or an array and a number: the
    number is converted to a [long] [i].  When the truncated number is
    a [long], nothing is read outside: outside of [0, length) the
    index raises a bounds error located at the expression; inside, a
    string gives the string of its [i]-th code point alone, which is
    empty when that code point is zero, and an array whose [i]-th
    thunk is filled gives the content of that thunk.  When the
    truncated number is no [long] (NaN, an infinity, a magnitude of
    2^63 or more), the conversion has no defined result in C++, and
    the run is [Undefined]. *)
Theorem index_within_bounds (f : Frame) a target index (v : Value)
    (d : float) (vm : Interpreter) :
  Frame.ast f = Some (AST_INDEX a target index) →
  Frame.val f = v →
  scratch vm = DOUBLE d →
  match double_to_long d with
  | OK i =>
      (∀ value, v = STRING value →
         (i < 0 ∨ Z.of_nat (length value) ≤ i →
          ∃ e, frame_index_index f vm = Throw e
               ∧ msg e = "String bounds error: " +:+ pretty i
                         +:+ " not within [0, "
                         +:+ pretty (Z.of_nat (length value)) +:+ ")"
               ∧ tf_location <$> head (stack_trace e) = Some (location a))
         ∧ (0 ≤ i < Z.of_nat (length value) →
            ∃ c, value !! Z.to_nat i = Some c
                 ∧ frame_index_index f vm
                   = OK (PopFrame, set_scratch (STRING (one_char c)) vm)))
      ∧ (∀ array, v = ARRAY array →
           (i < 0 ∨ Z.of_nat (length array) ≤ i →
            ∃ e, frame_index_index f vm = Throw e
                 ∧ msg e = "Array bounds error: " +:+ pretty i
                           +:+ " not within [0, "
                           +:+ pretty (Z.of_nat (length array)) +:+ ")"
                 ∧ tf_location <$> head (stack_trace e) = Some (location a))
           ∧ (0 ≤ i < Z.of_nat (length array) →
              ∃ r, array !! Z.to_nat i = Some r
                   ∧ ∀ thunk, heap_thunks vm !! r = Some thunk →
                       Thunk.filled thunk = true →
                       frame_index_index f vm
                       = OK (PopFrame, set_scratch (Thunk.content thunk) vm)))
  | _ =>
      (∀ value, v = STRING value → frame_index_index f vm = Undefined)
      ∧ (∀ array, v = ARRAY array → frame_index_index f vm = Undefined)
  end.
Proof.
  intros Hast Hval Hscr.
  pose proof (double_to_long_cases d) as Hshape.
  destruct (double_to_long d) as [i| | | | |] eqn:Hd; try done.
  - by apply (index_of_long f a target index v d i vm).
  - split; intros ? ->; unfold frame_index_index; rewrite Hast, Hval;
      unfold bind at 1; unfold getScratch, gets; cbv beta iota;
      rewrite Hscr; unfold bind at 1; by rewrite Hd.
Qed.
End Indexing.

Module IndexWitness.
Import Demo IndexExample.

Lemma index_within_bounds_witness :
  ∃ c, U "ab" !! Z.to_nat 1 = Some c
       ∧ frame_index_index string_frame vm5
         = OK (PopFrame, set_scratch (STRING (one_char c)) vm5).
Proof.
  generalize (index_within_bounds string_frame (at0 []) (str "ab") (num 1)
                (STRING (U "ab")) (Z_to_double 1) vm5
                eq_refl eq_refl eq_refl).
  change (double_to_long (Z_to_double 1)) with (OK 1 : Result Z).
  intros [Hstring _].
  refine (proj2 (Hstring (U "ab") eq_refl) _).
  vm_compute. split; [discriminate|reflexivity].
Defined.
End IndexWitness.

(** * Local variables and function literals *)

Lemma bind_thunks_other base binds env id :
  id ∉ binds.*1 → bind_thunks base binds env !! id = env !! id.
Proof.
  revert base env. induction binds as [|b binds IH]; intros base env Hid;
    [done|].
  cbn [fmap list_fmap] in Hid. apply not_elem_of_cons in Hid as [Hne Hid].
  cbn [bind_thunks]. rewrite IH by done. by rewrite lookup_insert_ne.
Qed.

Lemma bind_thunks_lookup base binds env (i : nat) b :
  NoDup binds.*1 → binds !! i = Some b →
  bind_thunks base binds env !! b.1 = Some (base + i)%nat.
Proof.
  revert base env i. induction binds as [|b0 binds IH];
    intros base env i Hnd Hi; [done|].
  cbn [fmap list_fmap] in Hnd. apply NoDup_cons in Hnd as [Hnot Hnd].
  destruct i as [|i]; cbn [bind_thunks].
  - injection Hi as ->. rewrite bind_thunks_other by done.
    rewrite lookup_insert_eq. f_equal. lia.
  - rewrite (IH (S base) _ i) by done. f_equal. lia.
Qed.

Lemma captured_same_frames s s' fvs :
  Stack.stack s = Stack.stack s' → captured s fvs = captured s' fvs.
Proof.
  intros Hs. unfold captured.
  assert (∀ fv, Stack.lookUpVar s fv = Stack.lookUpVar s' fv) as Hl
    by (intros fv; unfold Stack.lookUpVar; by rewrite Hs).
  generalize (∅ : BindingFrame).
  induction fvs as [|fv fvs IH]; intros env; [done|].
  cbn [foldl]. rewrite Hl. apply IH.
Qed.

Section Locals.
Context `{Externals}.

Lemma bind_loop self offset binds : ∀ vm f below,
  Stack.stack (stack vm) = f :: below →
  ∃ vm',
    foldM (fun (_ : unit) bind => bind_round self offset bind) tt binds vm
    = OK (tt, vm')
    ∧ heap_thunks vm'
      = heap_thunks vm ++ (raw_thunk self offset <$> binds)
    ∧ Stack.stack (stack vm')
      = Frame.set_bindings
          (bind_thunks (length (heap_thunks vm)) binds (Frame.bindings f)) f
        :: below
    ∧ scratch vm' = scratch vm.
Proof.
  induction binds as [|b binds IH]; intros vm f below Hf.
  - exists vm. simpl. rewrite app_nil_r. split_and!; try done.
    rewrite Hf. by destruct f.
  - set (vm1 := set_stack
                  (Stack.set_stack
                     (Frame.set_bindings
                        (<[b.1 := length (heap_thunks vm)]>
                           (Frame.bindings f)) f :: below) (stack vm))
                  (set_heap_thunks
                     (heap_thunks vm ++ [raw_thunk self offset b]) vm)).
    destruct (IH vm1 _ below eq_refl) as (vm' & Hloop & Hheap & Hst & Hscr).
    exists vm'. split_and!.
    + cbn [foldM]. unfold bind at 1. unfold bind_round at 1.
      unfold bind at 1. unfold makeThunk at 1. cbv beta iota.
      unfold modifyTop at 1.
      cbn [stack heap_thunks set_heap_thunks set_stack]. rewrite Hf.
      exact Hloop.
    + rewrite Hheap. subst vm1.
      cbn [stack heap_thunks set_heap_thunks set_stack fmap list_fmap].
      by rewrite <- app_assoc.
    + rewrite Hst. subst vm1.
      cbn [stack heap_thunks set_heap_thunks set_stack bind_thunks
           Frame.bindings Frame.set_bindings].
      rewrite length_app. cbn [length].
      replace (length (heap_thunks vm) + 1)%nat
        with (S (length (heap_thunks vm))) by lia.
      reflexivity.
    + by rewrite Hscr.
Qed.

Lemma capture_loop self offset F below rest : ∀ pre vm,
  Stack.stack (stack vm) = F :: below →
  heap_thunks vm = pre ++ (raw_thunk self offset <$> rest) →
  (∀ (j : nat) b, rest !! j = Some b →
     Frame.bindings F !! b.1 = Some (length pre + j)%nat) →
  foldM (fun (_ : unit) bind => capture_round bind) tt rest vm
  = OK (tt,
        set_heap_thunks
          (pre ++ (bound_thunk (stack vm) self offset <$> rest)) vm).
Proof.
  induction rest as [|b rest IH]; intros pre vm Hf Hheap Hbind.
  - simpl. unfold ret. simpl in Hheap. rewrite <- Hheap. by destruct vm.
  - cbn [foldM]. unfold bind at 1. unfold capture_round at 1.
    unfold bind at 1. unfold top at 1. unfold Stack.top. rewrite Hf.
    cbn [head]. rewrite (Hbind 0%nat b eq_refl), Nat.add_0_r.
    unfold bind at 1. rewrite capture_eq.
    unfold modifyThunk at 1. rewrite Hheap.
    rewrite lookup_app_r by done. rewrite Nat.sub_diag.
    cbn [fmap list_fmap lookup list_lookup].
    rewrite insert_app_r_alt by done. rewrite Nat.sub_diag.
    cbn [insert list_insert].
    rewrite (IH (pre ++ [bound_thunk (stack vm) self offset b])).
    + cbn [stack set_heap_thunks]. do 2 f_equal.
      unfold set_heap_thunks.
      cbn [heap_thunks heap_next scratch stack cachedImports externalVars].
      by rewrite <- app_assoc.
    + done.
    + cbn [heap_thunks set_heap_thunks]. by rewrite <- app_assoc.
    + intros j b' Hj. rewrite length_app. cbn [length].
      rewrite (Hbind (S j) b' Hj). f_equal. lia.
Qed.

(** [case AST_LOCAL] binds its variables before any of them is
    evaluated, and each of them sees all of them.  It pushes a
    [LOCAL] frame that binds every variable to a new thunk, unfilled,
    whose body is the expression of the variable and whose environment
    gives the free variables of that expression the bindings in scope
    once the frame is pushed, the other variables of the [local]
    among them; then it goes on with the body.  The thunks that
    existed and the scratch register are left as they were. *)
Theorem local_binds_are_recursive a (binds : list (Identifier * AST))
    (body : AST) (vm : Interpreter) :
  NoDup binds.*1 →
  ∃ vm' f,
    eval_ast (AST_LOCAL a binds body) vm = OK (Goto body, vm')
    ∧ frames vm' = f :: frames vm
    ∧ Frame.kind f = FRAME_LOCAL
    ∧ scratch vm' = scratch vm
    ∧ length (heap_thunks vm')
      = (length (heap_thunks vm) + length binds)%nat
    ∧ (∀ r th, heap_thunks vm !! r = Some th →
               heap_thunks vm' !! r = Some th)
    ∧ ∀ (i : nat) id e, binds !! i = Some (id, e) →
        Frame.bindings f !! id = Some (length (heap_thunks vm) + i)%nat
        ∧ ∃ th,
            heap_thunks vm' !! (length (heap_thunks vm) + i)%nat = Some th
            ∧ Thunk.filled th = false
            ∧ Thunk.body th = Some e
            ∧ ∀ x, x ∈ ast_freeVariables e →
                Thunk.upValues th !! x = Stack.lookUpVar (stack vm') x.
Proof.
  intros Hnd.
  set (f0 := Frame.of_ast FRAME_LOCAL (AST_LOCAL a binds body)).
  set (vm0 := set_stack (Stack.newFrame f0 (stack vm)) vm).
  destruct (Stack.getSelfBinding (stack vm0)) as [self offset] eqn:Hself.
  destruct (bind_loop self offset binds vm0 f0 (frames vm) eq_refl)
    as (vm1 & Hloop1 & Hheap1 & Hst1 & Hscr1).
  change (heap_thunks vm0) with (heap_thunks vm) in *.
  change (Frame.bindings f0) with (∅ : BindingFrame) in Hst1.
  set (F := Frame.set_bindings
              (bind_thunks (length (heap_thunks vm)) binds ∅) f0) in *.
  pose proof (capture_loop self offset F (frames vm) binds
                (heap_thunks vm) vm1 Hst1 Hheap1) as Hloop2.
  assert (∀ (j : nat) b, binds !! j = Some b →
            Frame.bindings F !! b.1
            = Some (length (heap_thunks vm) + j)%nat) as Hbind.
  { intros j b Hj. subst F. cbn [Frame.bindings Frame.set_bindings].
    by apply bind_thunks_lookup. }
  specialize (Hloop2 Hbind).
  eexists _, F. split_and!.
  - cbn [eval_ast]. unfold bind at 1. unfold newFrame at 1, modify.
    cbv beta iota. fold f0. fold vm0.
    unfold bind at 1. unfold getSelfBinding at 1, gets. cbv beta iota.
    rewrite Hself.
    change (fun (_ : unit) (bind : list N * AST) =>
              do th <- makeThunk bind.1 self offset (Some bind.2);
              modifyTop (fun f =>
                Frame.set_bindings (<[bind.1 := th]> (Frame.bindings f)) f))
      with (fun (_ : unit) bind => bind_round self offset bind).
    unfold bind at 1. unfold bind at 1. rewrite Hloop1.
    change (foldM _ tt binds vm1)
      with (foldM (fun (_ : unit) bind => capture_round bind) tt binds vm1).
    rewrite Hloop2. reflexivity.
  - unfold frames. cbn [stack set_heap_thunks]. exact Hst1.
  - done.
  - cbn [scratch set_heap_thunks]. by rewrite Hscr1.
  - cbn [heap_thunks set_heap_thunks].
    by rewrite length_app, length_fmap.
  - intros r th Hr. cbn [heap_thunks set_heap_thunks].
    by apply lookup_app_l_Some.
  - intros i id e Hi. split; [exact (Hbind i (id, e) Hi)|].
    exists (bound_thunk (stack vm1) self offset (id, e)).
    cbn [heap_thunks set_heap_thunks stack]. split_and!.
    + rewrite lookup_app_r by lia.
      replace (length (heap_thunks vm) + i - length (heap_thunks vm))%nat
        with i by lia.
      by rewrite list_lookup_fmap, Hi.
    + done.
    + done.
    + intros x Hx. unfold bound_thunk. simpl.
      by apply captured_lookup.
Qed.

(** A function literal evaluates, with the stack at its initial size,
    to a closure and nothing else: the body is not evaluated and no
    thunk is made.  The closure has the parameters and the body of the
    literal, the [self] and offset of the closest call frame, and an
    environment that gives the free variables of the literal their
    bindings in scope. *)
Theorem function_literal_captures fuel a (params : list Identifier)
    (body : AST) (vm : Interpreter) :
  let closure :=
    {| Closure.addr := heap_next vm;
       Closure.upValues := captured (stack vm) (freeVariables a);
       Closure.self := (Stack.getSelfBinding (stack vm)).1;
       Closure.offset := (Stack.getSelfBinding (stack vm)).2;
       Closure.params := params;
       Closure.body := Some body;
       Closure.builtin := 0 |} in
  evaluate (S (S fuel)) (AST_FUNCTION a params body)
    (Stack.size (stack vm)) vm
  = OK (tt, set_scratch (FUNCTION closure)
              (set_heap_next (S (heap_next vm)) vm))
  ∧ ∀ x, x ∈ freeVariables a →
      Closure.upValues closure !! x = Stack.lookUpVar (stack vm) x.
Proof.
  intros closure. split.
  - cbn [evaluate eval_ast]. unfold bind at 1. unfold bind at 1.
    rewrite capture_eq.
    unfold bind at 1. unfold getSelfBinding at 1, gets. cbv beta iota.
    destruct (Stack.getSelfBinding (stack vm)) as [self offset] eqn:Hself.
    unfold makeClosure, freshAddr, bind, setScratch, modify, ret.
    cbv beta iota. rewrite unwind_S.
    unfold bind, stackSize, gets. cbv beta iota.
    rewrite bool_decide_eq_false_2 by (simpl; lia).
    subst closure. reflexivity.
  - intros x Hx. by apply captured_lookup.
Qed.
End Locals.

Module LocalWitness.
Import Demo LocalExample.

Lemma local_binds_are_recursive_witness :
  ∃ vm' f th,
    eval_ast mutual (Interpreter_make ∅ 10)
    = OK (Goto (AST_VAR (at0 [U "x"]) (U "x")), vm')
    ∧ frames vm' = [f]
    ∧ Frame.kind f = FRAME_LOCAL
    ∧ Frame.bindings f !! U "x" = Some 0%nat
    ∧ Frame.bindings f !! U "y" = Some 1%nat
    ∧ heap_thunks vm' !! 0%nat = Some th
    ∧ Thunk.filled th = false
    ∧ Thunk.body th = Some (AST_VAR (at0 [U "y"]) (U "y"))
    ∧ Thunk.upValues th !! U "y" = Some 1%nat.
Proof.
  destruct (local_binds_are_recursive (at0 [])
              [(U "x", AST_VAR (at0 [U "y"]) (U "y")); (U "y", num 1)]
              (AST_VAR (at0 [U "x"]) (U "x")) (Interpreter_make ∅ 10))
    as (vm' & f & Hrun & Hfr & Hk & _ & _ & _ & Hbinds).
  - vm_compute. constructor.
    + intros Hin. apply list_elem_of_singleton in Hin. discriminate Hin.
    + constructor; [|constructor].
      intros Hin. exact (proj1 (elem_of_nil _) Hin).
  - destruct (Hbinds 0%nat _ _ eq_refl)
      as (Hx & th & Hth & Hfilled & Hbody & Hup).
    destruct (Hbinds 1%nat _ _ eq_refl) as (Hy & _).
    exists vm', f, th.
    split; [exact Hrun|]. split; [exact Hfr|]. split; [exact Hk|].
    split; [exact Hx|]. split; [exact Hy|]. split; [exact Hth|].
    split; [exact Hfilled|]. split; [exact Hbody|].
    rewrite (Hup (U "y")).
    + unfold Stack.lookUpVar. fold (frames vm'). rewrite Hfr.
      cbn [Stack.lookUpVar_from]. rewrite Hy. reflexivity.
    + vm_compute. apply list_elem_of_singleton. reflexivity.
Defined.
End LocalWitness.
